(** * Loop supervisor: log journal, issue adapter, resume prompt, operator toggle

  A shallow embedding of the TypeScript sources
    - the log journal    (appendLog, readLogs, readRecentLogs, tailLog,
                          formatLogEntry, generateResumeSummary),
    - the issue module   (parseIssueUrl, fetchIssue, closeIssue,
                          applyAcceptanceCriteriaToIssueBody, updateIssueBody,
                          parseAcceptanceCriteria, buildPromptFromIssue),
    - the claude adapter (extractSessionId, buildResumePrompt),
    - index.ts           (the tabs, the list of loops and its selection,
                          toggleCriterion, loadLogsForLoop, the criteria
                          editor and finalizeCriteria),
  and the properties the specification states about them, then further
  properties of the same code.

  Strings are lists of characters ([list ascii]); a character stands for
  one UTF-16 code unit in the range 0..255, which is exact for ASCII and
  Latin-1 text.  Where the code reads a file by ranges of bytes
  ([readRecentLogs], [tailLog]), module [Raw] has the file as its bytes
  and the UTF-8 decoder between the bytes and the text; on ASCII the two
  agree.  Numbers that the code uses as sizes, counts and indices are
  [nat] or [Z]; a number that is read from a text or printed into one is
  taken to be at most 2^53. *)

From Stdlib Require Import Ascii String ZArith Lia DecimalString.
From stdpp Require Import base option list gmap strings.

Open Scope list_scope.
Open Scope nat_scope.

(* ===================================================================== *)
(** ** JavaScript string primitives *)
(* ===================================================================== *)

Module JS.

Abbreviation jsstring := (list ascii) (only parsing).

(** String literals of the source. *)
Definition str (s : string) : jsstring := list_ascii_of_string s.

Definition LF : ascii := "010"%char.
Definition CR : ascii := "013"%char.
Definition DQUOTE : ascii := "034"%char.
Definition BACKTICK : ascii := "096"%char.

(** [WhiteSpace] and [LineTerminator] of ECMAScript, for code units below
    256: TAB, LF, VT, FF, CR, SP and NBSP.  This is the set [\s] of a
    regular expression and the set [String.prototype.trim] strips. *)
Definition is_ws (c : ascii) : bool :=
  let n := nat_of_ascii c in
  ((9 <=? n) && (n <=? 13)) || (n =? 32) || (n =? 160).

(** [LineTerminator] for code units below 256: the characters [.] refuses. *)
Definition is_line_terminator (c : ascii) : bool :=
  Ascii.eqb c LF || Ascii.eqb c CR.

Definition is_digit (c : ascii) : bool :=
  let n := nat_of_ascii c in (48 <=? n) && (n <=? 57).

Definition is_lower (c : ascii) : bool :=
  let n := nat_of_ascii c in (97 <=? n) && (n <=? 122).

Definition is_upper (c : ascii) : bool :=
  let n := nat_of_ascii c in (65 <=? n) && (n <=? 90).

(** [\w] *)
Definition is_word (c : ascii) : bool :=
  is_digit c || is_lower c || is_upper c || Ascii.eqb c "_"%char.

(** [toLowerCase] on one ASCII character. *)
Definition to_lower (c : ascii) : ascii :=
  if is_upper c then ascii_of_nat (nat_of_ascii c + 32) else c.

Definition streq (a b : jsstring) : bool := bool_decide (a = b).

(** [s.trimStart()], [s.trimEnd()], [s.trim()] *)
Fixpoint trimStart (s : jsstring) : jsstring :=
  match s with
  | c :: s' => if is_ws c then trimStart s' else s
  | [] => []
  end.

Definition trimEnd (s : jsstring) : jsstring := rev (trimStart (rev s)).

Definition trim (s : jsstring) : jsstring := trimEnd (trimStart s).

(** [s.split(sep)] for a one-character separator: never the empty list. *)
Fixpoint split (sep : ascii) (s : jsstring) : list jsstring :=
  match s with
  | [] => [[]]
  | c :: s' =>
      if Ascii.eqb c sep then [] :: split sep s'
      else match split sep s' with
           | l :: ls => (c :: l) :: ls
           | [] => [[c]]
           end
  end.

(** [parts.join(sep)] *)
Fixpoint join (sep : jsstring) (parts : list jsstring) : jsstring :=
  match parts with
  | [] => []
  | [p] => p
  | p :: ps => p ++ sep ++ join sep ps
  end.

(** [s.startsWith(p)] *)
Fixpoint startsWith (p s : jsstring) : bool :=
  match p, s with
  | [], _ => true
  | a :: p', b :: s' => Ascii.eqb a b && startsWith p' s'
  | _ :: _, [] => false
  end.

(** [s.indexOf(p)]: the remainder of [s] after the first occurrence of
    [p], with the prefix before it. *)
Fixpoint find_sub (p s : jsstring) : option (jsstring * jsstring) :=
  if startsWith p s then Some ([], drop (length p) s)
  else match s with
       | [] => None
       | c :: s' =>
           match find_sub p s' with
           | Some (pre, post) => Some (c :: pre, post)
           | None => None
           end
       end.

(** [s.includes(p)] *)
Definition includes (p s : jsstring) : bool :=
  match find_sub p s with Some _ => true | None => false end.

(** [s.replace(p, r)] with a string pattern: the first occurrence only. *)
Definition replace_first (p r s : jsstring) : jsstring :=
  match find_sub p s with
  | Some (pre, post) => pre ++ r ++ post
  | None => s
  end.

(** Relative index of [slice]: negative counts from the end, then clamp. *)
Definition rel_index (len : nat) (i : Z) : nat :=
  if (i <? 0)%Z then Z.to_nat (Z.max 0 (Z.of_nat len + i))
  else Nat.min len (Z.to_nat i).

(** [xs.slice(b, e)] on strings and arrays. *)
Definition slice {A} (b e : Z) (xs : list A) : list A :=
  let from := rel_index (length xs) b in
  let to := rel_index (length xs) e in
  take (to - from) (drop from xs).

(** [xs.slice(b)] *)
Definition slice_from {A} (b : Z) (xs : list A) : list A :=
  drop (rel_index (length xs) b) xs.

(** Template interpolation of a non-negative integer.  A JavaScript number
    holds every integer up to 2^53 and prints it in decimal digits; the
    statements that print or read a number keep to this range. *)
Definition num (n : nat) : jsstring :=
  str (NilZero.string_of_uint (Nat.to_uint n)).

(** [parseInt(digits, 10)] on a non-empty run of decimal digits: the
    integer they denote, which is what JavaScript returns up to 2^53;
    above, it returns the nearest number it can hold. *)
Definition parseInt (ds : jsstring) : nat :=
  fold_left (fun acc c => 10 * acc + (nat_of_ascii c - 48)) ds 0.

(** [xs.filter(Boolean)] on strings: the non-empty ones. *)
Definition nonempty (s : jsstring) : bool :=
  match s with [] => false | _ => true end.

End JS.

Import JS.

(* ===================================================================== *)
(** ** Regular expressions (backtracking, as ECMAScript matches them) *)
(* ===================================================================== *)

Module Re.

Inductive regex : Type :=
| Eps
| Bol                                        (* ^ *)
| Cls (p : ascii -> bool)                    (* one character of a class *)
| Cat (r1 r2 : regex)
| Alt (r1 r2 : regex)                        (* r1|r2, left first *)
| Rep (lo : nat) (hi : option nat) (r : regex)   (* greedy r{lo,hi} *)
| Grp (i : nat) (r : regex).                 (* i-th capturing group *)

Definition caps := nat -> option (list ascii).
Definition nocaps : caps := fun _ => None.
Definition setcap (i : nat) (v : list ascii) (c : caps) : caps :=
  fun j => if j =? i then Some v else c j.

Definition cont := list ascii -> caps -> option (list ascii * caps).

(** The greedy quantifier: at most [hi] and at least [lo] rounds of [step];
    a round that is not required must consume something. *)
Fixpoint rep_loop (step : list ascii -> caps -> cont -> option (list ascii * caps))
    (k : cont) (fuel lo : nat) (hi : option nat) (s : list ascii) (c : caps)
    : option (list ascii * caps) :=
  match fuel with
  | 0 => None
  | S fuel' =>
      match hi with
      | Some 0 => k s c
      | _ =>
          let round :=
            step s c (fun s' c' =>
              if (lo =? 0) && (length s' =? length s) then None
              else rep_loop step k fuel' (pred lo) (pred <$> hi) s' c') in
          match lo with
          | 0 => match round with Some x => Some x | None => k s c end
          | S _ => round
          end
      end
  end.

(** [m n0 r s c k]: match [r] at the front of [s], the rest of a subject
    of length [n0], then continue with [k]. *)
Fixpoint m (n0 : nat) (r : regex) (s : list ascii) (c : caps) (k : cont)
    {struct r} : option (list ascii * caps) :=
  match r with
  | Eps => k s c
  | Bol => if length s =? n0 then k s c else None
  | Cls p =>
      match s with
      | a :: s' => if p a then k s' c else None
      | [] => None
      end
  | Cat r1 r2 => m n0 r1 s c (fun s' c' => m n0 r2 s' c' k)
  | Alt r1 r2 =>
      match m n0 r1 s c k with
      | Some x => Some x
      | None => m n0 r2 s c k
      end
  | Rep lo hi r' => rep_loop (m n0 r') k (S (lo + length s)) lo hi s c
  | Grp i r' =>
      m n0 r' s c (fun s' c' =>
        k s' (setcap i (take (length s - length s') s) c'))
  end.

Record rmatch := {
  m_index : nat;              (* match.index *)
  m_text : list ascii;        (* match[0] *)
  m_group : nat -> option (list ascii);   (* match[i] *)
  m_rest : list ascii         (* the subject after the match *)
}.

Definition match_here (r : regex) (n0 : nat) (s : list ascii) : option rmatch :=
  match m n0 r s nocaps (fun s' c' => Some (s', c')) with
  | Some (s', c') =>
      Some {| m_index := n0 - length s;
              m_text := take (length s - length s') s;
              m_group := c';
              m_rest := s' |}
  | None => None
  end.

(** The leftmost match at or after the current position. *)
Fixpoint search (r : regex) (n0 : nat) (s : list ascii) : option rmatch :=
  match match_here r n0 s with
  | Some x => Some x
  | None =>
      match s with
      | [] => None
      | _ :: s' => search r n0 s'
      end
  end.

(** [re.exec(s)] and [s.match(re)] without the [g] flag. *)
Definition exec (r : regex) (s : list ascii) : option rmatch :=
  search r (length s) s.

(** [re.test(s)] *)
Definition test (r : regex) (s : list ascii) : bool :=
  match exec r s with Some _ => true | None => false end.

(** All matches of a [g] regex, as the loop
    [while ((match = re.exec(s)) !== null)] sees them: each search starts
    where the previous match ended. *)
Fixpoint exec_all_from (fuel : nat) (r : regex) (n0 : nat) (s : list ascii)
    : list rmatch :=
  match fuel with
  | 0 => []
  | S fuel' =>
      match search r n0 s with
      | None => []
      | Some x =>
          x :: (if length (m_rest x) <? length s
                then exec_all_from fuel' r n0 (m_rest x)
                else [])
      end
  end.

Definition exec_all (r : regex) (s : list ascii) : list rmatch :=
  exec_all_from (S (length s)) r (length s) s.

(** [s.replace(re, by)] with a [g] regex whose matches are not empty. *)
Fixpoint replace_all_from (fuel : nat) (r : regex) (by_ : list ascii)
    (n0 : nat) (s : list ascii) : list ascii :=
  match fuel with
  | 0 => s
  | S fuel' =>
      match match_here r n0 s with
      | Some x =>
          if length (m_rest x) <? length s
          then by_ ++ replace_all_from fuel' r by_ n0 (m_rest x)
          else s
      | None =>
          match s with
          | [] => []
          | a :: s' => a :: replace_all_from fuel' r by_ n0 s'
          end
      end
  end.

Definition replace_all (r : regex) (by_ : list ascii) (s : list ascii) : list ascii :=
  replace_all_from (S (length s)) r by_ (length s) s.

(** *** Notation of the source's patterns *)

Definition chr (a : ascii) : regex := Cls (Ascii.eqb a).
(** a character under the [i] flag *)
Definition chr_i (a : ascii) : regex :=
  Cls (fun c => Ascii.eqb (to_lower c) (to_lower a)).
Definition ws : regex := Cls is_ws.                       (* \s *)
Definition digit : regex := Cls is_digit.                 (* \d *)
Definition word : regex := Cls is_word.                   (* \w *)
Definition dot : regex := Cls (fun c => negb (is_line_terminator c)).   (* . *)
Definition star (r : regex) : regex := Rep 0 None r.      (* r* *)
Definition plus (r : regex) : regex := Rep 1 None r.      (* r+ *)
Definition opt (r : regex) : regex := Rep 0 (Some 1) r.   (* r? *)
Definition rep (lo hi : nat) (r : regex) : regex := Rep lo (Some hi) r.

Fixpoint cat (rs : list regex) : regex :=
  match rs with
  | [] => Eps
  | [r] => r
  | r :: rs' => Cat r (cat rs')
  end.

(** a literal, and a literal under the [i] flag *)
Definition lit (s : string) : regex := cat (map chr (str s)).
Definition lit_i (s : string) : regex := cat (map chr_i (str s)).

End Re.

Import Re.

(* ===================================================================== *)
(** ** Data model *)
(* ===================================================================== *)

(** Modelled from the spec: the type declarations ([./types.js]) are not
    among the sources; the specification gives an acceptance criterion as
    [{text, completed: bool, completedBy: {agent|operator}?, completedAt?}]. *)
Inductive Actor := Agent | Operator.

Record AcceptanceCriterion := mkCriterion {
  text : jsstring;
  completed : bool;
  completedBy : option Actor;
  completedAt : option jsstring
}.

(** Modelled from the spec: the issue snapshot "containing url, number,
    title, body, repo reference", the ordered list of criteria and the
    snapshot of the original ones; these are the fields [fetchIssue]
    fills. *)
Record Issue := mkIssue {
  url : jsstring;
  number : nat;
  title : jsstring;
  body : jsstring;
  repo : jsstring;
  acceptanceCriteria : list AcceptanceCriterion;
  originalAcceptanceCriteria : list AcceptanceCriterion
}.

(** Modelled from the spec: a log entry is [{timestamp, loopId,
    type: {agent|operator|system|error}, content: string}]. *)
Inductive LogType := TAgent | TOperator | TSystem | TError.

#[global] Instance LogType_eq_dec : EqDecision LogType.
Proof. solve_decision. Defined.

#[global] Instance Actor_eq_dec : EqDecision Actor.
Proof. solve_decision. Defined.

Record LogEntry := mkLogEntry {
  timestamp : jsstring;
  loopId : jsstring;
  type : LogType;
  content : jsstring
}.

(** What a call returns: a value, or a thrown [Error] with its message. *)
Inductive outcome (A : Type) :=
| Return (a : A)
| Throw (msg : jsstring).
Arguments Return {A} a.
Arguments Throw {A} msg.

(* ===================================================================== *)
(** ** The issue module *)
(* ===================================================================== *)

Module Github.

(** [criteriaSectionHeaders] *)
Definition re_acceptance_criteria : regex :=   (* /^#{1,3}\s*acceptance\s*criteria/i *)
  cat [Bol; rep 1 3 (chr "#"); star ws; lit_i "acceptance"; star ws; lit_i "criteria"].
Definition re_done_when : regex :=             (* /^#{1,3}\s*done\s*when/i *)
  cat [Bol; rep 1 3 (chr "#"); star ws; lit_i "done"; star ws; lit_i "when"].
Definition re_stop_conditions : regex :=       (* /^#{1,3}\s*stop\s*conditions/i *)
  cat [Bol; rep 1 3 (chr "#"); star ws; lit_i "stop"; star ws; lit_i "conditions"].
Definition re_requirements : regex :=          (* /^#{1,3}\s*requirements/i *)
  cat [Bol; rep 1 3 (chr "#"); star ws; lit_i "requirements"].
Definition re_bold_acceptance_criteria : regex :=   (* /^\*\*acceptance\s*criteria\*\*/i *)
  cat [Bol; lit "**"; lit_i "acceptance"; star ws; lit_i "criteria"; lit "**"].

Definition criteriaSectionHeaders : list regex :=
  [re_acceptance_criteria; re_done_when; re_stop_conditions; re_requirements;
   re_bold_acceptance_criteria].

(** [criteriaSectionHeaders.some(header => header.test(line.trim()))] *)
Definition is_section_header (line : jsstring) : bool :=
  existsb (fun header => test header (trim line)) criteriaSectionHeaders.

(** [/^#{1,3}\s+/] *)
Definition re_heading : regex := cat [Bol; rep 1 3 (chr "#"); plus ws].

(** [/^[\s]*[-*]\s*\[([ xX])\]\s*(.+)/] *)
Definition re_checkbox : regex :=
  cat [Bol; star ws; Cls (fun c => Ascii.eqb c "-" || Ascii.eqb c "*"); star ws;
       chr "[";
       Grp 1 (Cls (fun c => Ascii.eqb c " " || Ascii.eqb c "x" || Ascii.eqb c "X"));
       chr "]"; star ws; Grp 2 (plus dot)].

(** [/^[\s]*[-*]\s+(.+)/] *)
Definition re_bullet : regex :=
  cat [Bol; star ws; Cls (fun c => Ascii.eqb c "-" || Ascii.eqb c "*"); plus ws;
       Grp 1 (plus dot)].

(** [/\n{3,}/g] *)
Definition re_blank_run : regex := Rep 3 None (chr LF).

Definition group (x : rmatch) (i : nat) : jsstring := default [] (m_group x i).

(** [renderAcceptanceCriteriaSection] *)
Definition render_item (ac : AcceptanceCriterion) : jsstring :=
  let checkbox := if completed ac then str "[x]" else str "[ ]" in
  str "- " ++ checkbox ++ str " " ++ text ac.

Definition renderAcceptanceCriteriaSection (criteria : list AcceptanceCriterion) : jsstring :=
  join [LF] (str "## Acceptance Criteria" :: map render_item criteria).

(** The first loop of [applyAcceptanceCriteriaToIssueBody]: the index of the
    first header line, [None] for [start = -1]. *)
Fixpoint find_start (i : nat) (lines : list jsstring) : option nat :=
  match lines with
  | [] => None
  | line :: rest => if is_section_header line then Some i else find_start (S i) rest
  end.

(** The condition that ends a section: a heading that is not a criteria header. *)
Definition ends_section (line : jsstring) : bool :=
  test re_heading line && negb (is_section_header line).

(** The second loop: the index of the first line after [start] that ends the
    section, [lines.length] when there is none.  [i] is the index of the head
    of [lines]. *)
Fixpoint find_end (i : nat) (lines : list jsstring) : nat :=
  match lines with
  | [] => i
  | line :: rest => if ends_section line then i else find_end (S i) rest
  end.

(** [applyAcceptanceCriteriaToIssueBody] *)
Definition applyAcceptanceCriteriaToIssueBody (body : jsstring)
    (criteria : list AcceptanceCriterion) : jsstring :=
  let lines := split LF body in
  let section := split LF (renderAcceptanceCriteriaSection criteria) in
  match find_start 0 lines with
  | Some start =>
      let end_ := find_end (S start) (drop (S start) lines) in
      let before := take start lines in
      let after := drop end_ lines in
      replace_all re_blank_run [LF; LF] (join [LF] (before ++ section ++ after))
  | None =>
      let trimmed := trimEnd body in
      let spacer := if nonempty trimmed then [LF; LF] else [] in
      trimmed ++ spacer ++ join [LF] section
  end.

(** The criterion a checkbox match pushes. *)
Definition criterion_of_checkbox (x : rmatch) : AcceptanceCriterion :=
  let checked := streq (map to_lower (group x 1)) (str "x") in
  {| text := trim (group x 2);
     completed := checked;
     completedBy := if checked then Some Operator else None;
     completedAt := None |}.

(** The criterion a plain bullet pushes. *)
Definition criterion_of_bullet (x : rmatch) : AcceptanceCriterion :=
  {| text := trim (group x 1);
     completed := false;
     completedBy := None;
     completedAt := None |}.

(** The first loop of [parseAcceptanceCriteria], from the line at the head of
    [lines] on, with the loop's variables [inSection] and [criteria].  (The
    variable [sectionIndent] is written and never read.) *)
Fixpoint parse_section (inSection : bool) (lines : list jsstring)
    (criteria : list AcceptanceCriterion) : list AcceptanceCriterion :=
  match lines with
  | [] => criteria
  | line :: rest =>
      if negb inSection then
        parse_section (is_section_header line) rest criteria
      else if ends_section line then criteria
      else
        match exec re_checkbox line with
        | Some x => parse_section inSection rest (criteria ++ [criterion_of_checkbox x])
        | None =>
            match exec re_bullet line with
            | Some x => parse_section inSection rest (criteria ++ [criterion_of_bullet x])
            | None => parse_section inSection rest criteria
            end
        end
  end.

(** The fallback loop: every checkbox line of the body. *)
Fixpoint parse_fallback (lines : list jsstring)
    (criteria : list AcceptanceCriterion) : list AcceptanceCriterion :=
  match lines with
  | [] => criteria
  | line :: rest =>
      match exec re_checkbox line with
      | Some x => parse_fallback rest (criteria ++ [criterion_of_checkbox x])
      | None => parse_fallback rest criteria
      end
  end.

(** [parseAcceptanceCriteria] *)
Definition parseAcceptanceCriteria (body : jsstring) : list AcceptanceCriterion :=
  let lines := split LF body in
  let criteria := parse_section false lines [] in
  if length criteria =? 0 then parse_fallback lines criteria else criteria.

(** [buildPromptFromIssue] *)
Definition buildPromptFromIssue (issue : Issue) : jsstring :=
  let prompt := str "# Task: " ++ title issue ++ [LF; LF] in
  let prompt := prompt ++ str "GitHub Issue: " ++ url issue ++ [LF; LF] in
  let prompt :=
    if 0 <? length (acceptanceCriteria issue) then
      let prompt := prompt ++ str "## Acceptance Criteria" ++ [LF] in
      let prompt :=
        fold_left (fun prompt ac =>
          let checkbox := if completed ac then str "[x]" else str "[ ]" in
          prompt ++ str "- " ++ checkbox ++ str " " ++ text ac ++ [LF])
          (acceptanceCriteria issue) prompt in
      prompt ++ [LF]
    else prompt in
  let prompt := prompt ++ str "## Issue Description" ++ [LF] ++ body issue ++ [LF; LF] in
  let prompt := prompt ++ str "## Instructions" ++ [LF] in
  let prompt := prompt ++ str "Complete all acceptance criteria above." ++ [LF] in
  let prompt := prompt ++ str "Mark criteria as you finish them with:" ++ [LF] in
  let prompt := prompt ++ str "- <criterion-complete>N</criterion-complete>" ++ [LF] in
  let prompt := prompt ++
    str "- <criterion-incomplete>N</criterion-incomplete> (if you need to regress)" ++ [LF] in
  let prompt := prompt ++ str "Criteria are 1-indexed based on the list above." ++ [LF] in
  let prompt := prompt ++
    str "When all criteria are complete, output the exact tag: <promise>TASK COMPLETE</promise>"
    ++ [LF] in
  prompt.

(** What [execFileSync] throws when the command fails: the error's [code],
    its captured [stderr] and [stdout] (empty when absent) and its [message]. *)
Record ExecError := mkExecError {
  err_code : option jsstring;
  err_stderr : jsstring;
  err_stdout : jsstring;
  err_message : jsstring
}.

Inductive CloseIssueResult := closed | already_closed.

(** [x || y] on strings *)
Definition or_else (x y : jsstring) : jsstring := if nonempty x then x else y.

Definition re_already_closed : regex :=        (* /already\s+closed/i *)
  cat [lit_i "already"; plus ws; lit_i "closed"].
Definition re_already_been_closed : regex :=   (* /already\s+been\s+closed/i *)
  cat [lit_i "already"; plus ws; lit_i "been"; plus ws; lit_i "closed"].

(** The arguments [closeIssue] hands to [gh]. *)
Definition close_args (url : jsstring) (comment : option jsstring) : list jsstring :=
  let args := [str "issue"; str "close"; url] in
  match comment with
  | Some c => if nonempty (trim c) then args ++ [str "--comment"; trim c] else args
  | None => args
  end.

(** [message] of the catch block. *)
Definition failure_message (err : ExecError) : jsstring :=
  trim (or_else (err_stderr err) (or_else (err_stdout err) (err_message err))).

(** [err?.code === 'ENOENT' || message.includes('gh: command not found')] *)
Definition gh_not_found (err : ExecError) : bool :=
  bool_decide (err_code err = Some (str "ENOENT"))
  || includes (str "gh: command not found") (failure_message err).

(** [/already\s+closed/i.test(message) || /already\s+been\s+closed/i.test(message)] *)
Definition says_already_closed (err : ExecError) : bool :=
  test re_already_closed (failure_message err)
  || test re_already_been_closed (failure_message err).

(** [closeIssue]; [execFileSync args] is [None] when [gh args] exits with
    status 0 and the error it throws otherwise. *)
Definition closeIssue (execFileSync : list jsstring -> option ExecError)
    (url : jsstring) (comment : option jsstring) : outcome CloseIssueResult :=
  if negb (nonempty url) then Throw (str "Missing GitHub issue URL")
  else
    match execFileSync (close_args url comment) with
    | None => Return closed
    | Some err =>
        if gh_not_found err
        then Throw (str "GitHub CLI (gh) not found. Install from https://cli.github.com")
        else if says_already_closed err
        then Return already_closed
        else
          let firstLine :=
            or_else (hd [] (split LF (failure_message err))) (str "Unknown error") in
          Throw (str "Failed to close issue: " ++ firstLine)
    end.

End Github.

(* ===================================================================== *)
(** ** The claude adapter *)
(* ===================================================================== *)

Module Claude.

(** The numbered list of [buildResumePrompt]. *)
Definition criteriaList (remainingCriteria : list jsstring) : jsstring :=
  if 0 <? length remainingCriteria
  then join [LF] (imap (fun i c => num (i + 1) ++ str ". " ++ c) remainingCriteria)
  else str "(all criteria completed)".

(** [buildResumePrompt] *)
Definition buildResumePrompt (workSummary : jsstring)
    (remainingCriteria : list jsstring) : jsstring :=
  str "RESUMING FROM PAUSE (previous session)" ++ [LF; LF] ++
  str "## Summary of work done so far:" ++ [LF] ++
  workSummary ++ [LF; LF] ++
  str "## Remaining acceptance criteria:" ++ [LF] ++
  criteriaList remainingCriteria ++ [LF; LF] ++
  str "Please continue working on this task. Review the summary above and pick up where you left off. When each criterion is complete, emit <criterion-complete>N</criterion-complete>. When all criteria are done, emit <promise>TASK COMPLETE</promise>.".

(** Modelled from the spec: the caller of [buildResumePrompt]
    ([resumePausedLoop] of the loop engine) is not among the sources; the
    specification says the prompt receives "exactly the incomplete criteria
    as of pause, in original order". *)
Definition remainingCriteria (criteria : list AcceptanceCriterion) : list jsstring :=
  map text (List.filter (fun ac => negb (completed ac)) criteria).

End Claude.

(* ===================================================================== *)
(** ** The log journal *)
(* ===================================================================== *)

Module Logs.

(** The file system the log journal touches: the text of every regular
    file by path, and the directories that exist. *)
Record filesystem := mkFs {
  files : gmap (list ascii) (list ascii);
  dirs : gset (list ascii)
}.

(** What the caller of [appendLog] passes: [Omit<LogEntry, 'timestamp' | 'loopId'>]. *)
Record EntryInput := mkEntryInput {
  in_type : LogType;
  in_content : jsstring
}.

(** The state of one tailer: the closure variables of [tailLog]. *)
Record Tailer := mkTailer {
  position : nat;
  active : bool;
  lineBuffer : jsstring
}.

Section Journal.

(** [getLoopDir] of [./state.js], which is not among the sources. *)
Variable getLoopDir : jsstring -> jsstring.

(** [JSON.stringify] on a log entry and [JSON.parse] on a line, [None]
    when it throws.  The cast [as LogEntry] of the source is not checked at
    run time; the model keeps to lines whose value has the entry's shape. *)
Variable JSON_stringify : LogEntry -> jsstring.
Variable JSON_parse : jsstring -> option LogEntry.

(** [getLogPath] *)
Definition getLogPath (loopId : jsstring) : jsstring :=
  getLoopDir loopId ++ str "/log.jsonl".

(** Modelled from the spec: [ensureLoopDir] of [./state.js] is not among
    the sources; by the filesystem layout [loops/<loopId>/log.jsonl] it
    makes the loop's directory when it is missing and touches no file. *)
Definition ensureLoopDir (loopId : jsstring) (fs : filesystem) : filesystem :=
  {| files := files fs; dirs := {[ getLoopDir loopId ]} ∪ dirs fs |}.

(** [fs.appendFileSync(path, data)] *)
Definition appendFileSync (path data : jsstring) (fs : filesystem) : filesystem :=
  {| files := <[ path := default [] (files fs !! path) ++ data ]> (files fs);
     dirs := dirs fs |}.

(** [fs.writeFileSync(path, data)] *)
Definition writeFileSync (path data : jsstring) (fs : filesystem) : filesystem :=
  {| files := <[ path := data ]> (files fs); dirs := dirs fs |}.

(** [appendLog]; [now] is what [new Date().toISOString()] returns. *)
Definition appendLog (now : jsstring) (loopId : jsstring) (entry : EntryInput)
    (fs : filesystem) : filesystem :=
  let fs := ensureLoopDir loopId fs in
  let logPath := getLogPath loopId in
  let fullEntry :=
    {| timestamp := now; loopId := loopId;
       type := in_type entry; content := in_content entry |} in
  appendFileSync logPath (JSON_stringify fullEntry ++ [LF]) fs.

(** [lines.map(parse).filter(entry => entry !== null)] *)
Definition parse_lines (lines : list jsstring) : list LogEntry :=
  omap JSON_parse lines.

(** [readLogs] *)
Definition readLogs (fs : filesystem) (loopId : jsstring) : list LogEntry :=
  match files fs !! getLogPath loopId with
  | None => []
  | Some content =>
      let lines := List.filter nonempty (split LF (trim content)) in
      parse_lines lines
  end.

(** The loop of [readRecentLogs], over the lines from the last one back. *)
Fixpoint recent_loop (count : nat) (lines_rev : list jsstring)
    (entries : list LogEntry) : list LogEntry :=
  match lines_rev with
  | [] => entries
  | line :: rest =>
      if length entries <? count then
        match JSON_parse line with
        | Some entry => recent_loop count rest (entry :: entries)
        | None => recent_loop count rest entries
        end
      else entries
  end.

(** The bytes [readRecentLogs] reads: the last [min(size, count * 500)].
    Here the file is its text and a character counts as one byte, which is
    what the code sees on ASCII text; [Raw.recent_buffer] and
    [Raw.readRecentLogs] have the bytes and the decoder. *)
Definition recent_chunk (content : jsstring) (count : nat) : jsstring :=
  let size := length content in
  let chunkSize := Nat.min size (count * 500) in
  take chunkSize (drop (size - chunkSize) content).

(** [readRecentLogs] *)
Definition readRecentLogs (fs : filesystem) (loopId : jsstring) (count : nat)
    : list LogEntry :=
  match files fs !! getLogPath loopId with
  | None => []
  | Some content =>
      if length content =? 0 then []
      else
        let lines := List.filter nonempty (split LF (recent_chunk content count)) in
        recent_loop count (rev lines) []
  end.

(** The body of [tailLog] before the first poll: the directory and the file
    are made, and the tailer starts at the end of the file. *)
Definition tailLog_start (loopId : jsstring) (fs : filesystem)
    : filesystem * Tailer :=
  let logPath := getLogPath loopId in
  let fs := ensureLoopDir loopId fs in
  let fs :=
    match files fs !! logPath with
    | None => writeFileSync logPath [] fs
    | Some _ => fs
    end in
  (fs, {| position := length (default [] (files fs !! logPath));
          active := true;
          lineBuffer := [] |}).

(** The entries one batch of complete lines delivers to [onEntry]. *)
Definition deliver (lines : list jsstring) : list LogEntry :=
  omap (fun line => if nonempty (trim line) then JSON_parse line else None) lines.

(** [lines.pop()]: the array without its last element, and that element. *)
Definition pop (lines : list jsstring) : list jsstring * jsstring :=
  (removelast lines, List.last lines []).

(** One run of [poll]: the tailer afterwards and the entries handed to
    [onEntry], in call order.  A missing file makes [statSync] throw
    [ENOENT], which the handler ignores.  Here the file is its text and a
    character counts as one byte, which is what the code sees when every
    poll finds whole characters, as on ASCII text; [Raw.poll] has the bytes
    and the decoder.  The callback is taken not to call the cleanup
    function; [poll_calling] has callbacks that do. *)
Definition poll (loopId : jsstring) (fs : filesystem) (t : Tailer)
    : Tailer * list LogEntry :=
  if negb (active t) then (t, [])
  else
    match files fs !! getLogPath loopId with
    | None => (t, [])
    | Some content =>
        let size := length content in
        if position t <? size then
          let newBytes := size - position t in
          let newContent := take newBytes (drop (position t) content) in
          let lineBuffer := lineBuffer t ++ newContent in
          let '(lines, rest) := pop (split LF lineBuffer) in
          ({| position := size; active := active t; lineBuffer := rest |},
           deliver lines)
        else if size <? position t then
          ({| position := 0; active := active t; lineBuffer := [] |}, [])
        else (t, [])
    end.

(** The function [tailLog] returns. *)
Definition cancel (t : Tailer) : Tailer :=
  {| position := position t; active := false; lineBuffer := lineBuffer t |}.

(** [tailLog] up to its return: the start and the first, synchronous poll. *)
Definition tailLog (loopId : jsstring) (fs : filesystem)
    : filesystem * Tailer * list LogEntry :=
  let '(fs, t) := tailLog_start loopId fs in
  let '(t, out) := poll loopId fs t in
  (fs, t, out).

(** *** Resume summary *)

Definition alts (rs : list regex) : regex :=
  match rs with
  | [] => Eps
  | r :: rs' => fold_left Alt rs' r
  end.

Definition is_quote (c : ascii) : bool := Ascii.eqb c BACKTICK || Ascii.eqb c DQUOTE.
Definition is_letter (c : ascii) : bool := is_lower c || is_upper c.

(** [/Iteration (\d+)/] *)
Definition re_iteration : regex := cat [lit "Iteration "; Grp 1 (plus digit)].

(** [/(?:created|modified|edited|wrote|updated|deleted)\s+(?:file\s+)?Q?([^\sQ]+\.[a-z]{1,5})Q?/gi],
    where Q stands for the class of the backtick and the double quote. *)
Definition filePatterns : regex :=
  cat [alts [lit_i "created"; lit_i "modified"; lit_i "edited"; lit_i "wrote";
             lit_i "updated"; lit_i "deleted"];
       plus ws;
       opt (cat [lit_i "file"; plus ws]);
       opt (Cls is_quote);
       Grp 1 (cat [plus (Cls (fun c => negb (is_ws c || is_quote c)));
                   chr ".";
                   rep 1 5 (Cls is_letter)]);
       opt (Cls is_quote)].

(** [/(?:Using|Called|Invoked)\s+(?:tool\s+)?(\w+)/gi] *)
Definition toolPatterns : regex :=
  cat [alts [lit_i "using"; lit_i "called"; lit_i "invoked"];
       plus ws;
       opt (cat [lit_i "tool"; plus ws]);
       Grp 1 (plus word)].

(** [set.add(x)] on a [Set], kept in insertion order. *)
Definition set_add (x : jsstring) (set : list jsstring) : list jsstring :=
  if bool_decide (x ∈ set) then set else set ++ [x].

(** The loop [for (const log of agentLogs) while ((match = re.exec(...)))
    set.add(match[1])]. *)
Definition collect (re : regex) (agentLogs : list LogEntry) : list jsstring :=
  fold_left (fun set log =>
    fold_left (fun set x => set_add (default [] (m_group x 1)) set)
      (exec_all re (content log)) set) agentLogs [].

Definition is_type (t : LogType) (l : LogEntry) : bool :=
  bool_decide (type l = t).

(** [Math.max(0, ...xs)] *)
Definition max0 (xs : list nat) : nat := fold_right Nat.max 0 xs.

(** The sections of the summary, in the order they are pushed. *)
Definition summary_parts (logs : list LogEntry) : list jsstring :=
  let systemLogs := List.filter (is_type TSystem) logs in
  let agentLogs := List.filter (is_type TAgent) logs in
  let iterationMatches :=
    map (fun l => match exec re_iteration (content l) with
                  | Some x => parseInt (default [] (m_group x 1))
                  | None => 0
                  end)
      (List.filter (fun l => includes (str "--- Iteration") (content l)) systemLogs) in
  let maxIteration := max0 iterationMatches in
  let criteriaCompletions :=
    map content
      (List.filter (fun l => includes (str "Criterion") (content l)
                             && includes (str "complete") (content l)) systemLogs) in
  let filesModified := collect filePatterns agentLogs in
  let toolsUsed := collect toolPatterns agentLogs in   (* computed, not reported *)
  let analysisLogs :=
    List.filter (fun l => startsWith (str "Analysis:") (content l)) systemLogs in
  let lastAnalysis := List.last (map content analysisLogs) [] in
  let parts := [str "Iterations completed: " ++ num maxIteration] in
  let parts :=
    if 0 <? length filesModified
    then parts ++ [str "Files touched: " ++ join (str ", ") (slice 0 10 filesModified)]
    else parts in
  let parts :=
    if 0 <? length criteriaCompletions
    then parts ++ [str "Criteria progress: " ++ num (length criteriaCompletions)
                   ++ str " updates"]
    else parts in
  let parts :=
    if nonempty lastAnalysis
    then parts ++ [str "Last analysis: " ++ replace_first (str "Analysis: ") [] lastAnalysis]
    else parts in
  let recentAgent :=
    join [LF] (map (fun l => slice 0 200 (content l)) (slice_from (-5) agentLogs)) in
  let parts :=
    if 0 <? length recentAgent
    then parts ++ [str "Recent activity:" ++ [LF] ++ slice 0 800 recentAgent]
    else parts in
  parts.

(** The last step: [summary.slice(0, maxChars - 3) + '...'] when too long. *)
Definition truncate (maxChars : Z) (summary : jsstring) : jsstring :=
  if (maxChars <? Z.of_nat (length summary))%Z
  then slice 0 (maxChars - 3) summary ++ str "..."
  else summary.

(** The default of the parameter [maxChars]. *)
Definition maxChars_default : Z := 2000.

(** [generateResumeSummary] *)
Definition generateResumeSummary (fs : filesystem) (loopId : jsstring)
    (maxChars : Z) : jsstring :=
  let logs := readLogs fs loopId in
  if length logs =? 0 then str "No previous work logged."
  else truncate maxChars (join [LF; LF] (summary_parts logs)).

End Journal.

End Logs.

(* ===================================================================== *)
(** ** index.ts: the operator's criterion toggle *)
(* ===================================================================== *)

Module LoopStatus.
Inductive t := queued | running | paused | completed | stopped | error.
End LoopStatus.

Module App.

(** Modelled from the spec: [Loop] of the state document, with the fields
    the specification's data model lists. *)
Record Loop := mkLoop {
  id : jsstring;
  agent : jsstring;
  status : LoopStatus.t;
  issue : Issue;
  repoRoot : jsstring;
  skipPermissions : bool;
  sessionId : option jsstring;
  startedAt : option jsstring;
  endedAt : option jsstring;
  pausedAt : option jsstring;
  pausedFromPreviousSession : bool;
  issueClosed : bool;
  error : option jsstring;
  pid : option nat
}.

(** Modelled from the spec: the state document [{loops: Loop[]}]. *)
Record State := mkState { loops : list Loop }.

(** What [toggleCriterion] reads and writes: the state document on disk
    and the files of the log journal. *)
Record World := mkWorld {
  state_json : State;
  disk : Logs.filesystem
}.

(** [{ ...l, issue: patch }] *)
Definition with_issue (l : Loop) (patch : Issue) : Loop :=
  {| id := id l; agent := agent l; status := status l; issue := patch;
     repoRoot := repoRoot l; skipPermissions := skipPermissions l;
     sessionId := sessionId l; startedAt := startedAt l;
     endedAt := endedAt l; pausedAt := pausedAt l;
     pausedFromPreviousSession := pausedFromPreviousSession l;
     issueClosed := issueClosed l; error := error l; pid := pid l |}.

(** Modelled from the spec: [updateLoop] of the engine's state module is not among the
    sources; it "returns a new document with the patch shallow-merged into
    the matching loop; unknown ids are no-ops".  This is the call with the
    patch [{ issue }], the only one [toggleCriterion] makes. *)
Definition updateLoop_issue (st : State) (loopId : jsstring) (patch : Issue) : State :=
  {| loops := map (fun l =>
       if bool_decide (id l = loopId) then with_issue l patch else l) (loops st) |}.

(** The three assignments to [criterion]. *)
Definition toggle (now : jsstring) (criterion : AcceptanceCriterion) : AcceptanceCriterion :=
  let nextCompleted := negb (completed criterion) in
  {| text := text criterion;
     completed := nextCompleted;
     completedBy := if nextCompleted then Some Operator else None;
     completedAt := if nextCompleted then Some now else None |}.

Definition with_criteria (i : Issue) (cs : list AcceptanceCriterion) : Issue :=
  {| url := url i; number := number i; title := title i; body := body i;
     repo := repo i; acceptanceCriteria := cs;
     originalAcceptanceCriteria := originalAcceptanceCriteria i |}.

Section Toggle.

Variable getLoopDir : jsstring -> jsstring.
Variable JSON_stringify : LogEntry -> jsstring.

(** [toggleCriterion], without the redraw of the panes.  [now] and [now']
    are the two readings of the clock: the one stored in [completedAt] and
    the one [appendLog] stamps. *)
Definition toggleCriterion (now now' : jsstring) (loopId : jsstring) (index : Z)
    (w : World) : World :=
  let nextState := state_json w in
  match find (fun l => bool_decide (id l = loopId)) (loops nextState) with
  | None => w
  | Some loop =>
      let criteria := acceptanceCriteria (issue loop) in
      if ((index <? 0) || (Z.of_nat (length criteria) <=? index))%Z then w
      else
        let i := Z.to_nat index in
        match criteria !! i with
        | None => w
        | Some criterion =>
            let criterion' := toggle now criterion in
            let issue' := with_criteria (issue loop) (<[ i := criterion' ]> criteria) in
            let nextState := updateLoop_issue nextState loopId issue' in
            let content :=
              str "Criterion " ++ num (Z.to_nat (index + 1)) ++ str " marked " ++
              (if completed criterion' then str "complete" else str "incomplete") ++
              str " by operator" in
            {| state_json := nextState;
               disk := Logs.appendLog getLoopDir JSON_stringify now' loopId
                         {| Logs.in_type := TSystem; Logs.in_content := content |}
                         (disk w) |}
        end
  end.

End Toggle.

End App.

(* ===================================================================== *)
(** ** The JSON codec of the journal *)
(* ===================================================================== *)

(** What the journal relies on from [JSON.stringify] and [JSON.parse]: an
    entry serialises to one line that starts and ends with a character that
    is not white space (its braces), and parses back to itself. *)
Record JsonCodec (stringify : LogEntry -> jsstring)
    (parse : jsstring -> option LogEntry) : Prop := {
  codec_roundtrip : forall e, parse (stringify e) = Some e;
  codec_one_line : forall e, LF ∉ stringify e;
  codec_first : forall e, exists a s, stringify e = a :: s /\ is_ws a = false;
  codec_last : forall e, exists s z, stringify e = s ++ [z] /\ is_ws z = false
}.

(** A codec for entries in the layout [JSON.stringify] gives them,
    [{"timestamp":..,"loopId":..,"type":..,"content":..}] with the string
    escapes of ECMAScript's [QuoteJSONString]; its parser reads back this
    layout only. *)
Module MiniJson.

Definition BACKSLASH : ascii := "092"%char.

Definition hex_digit (n : nat) : ascii :=
  if n <? 10 then ascii_of_nat (48 + n) else ascii_of_nat (87 + n).

Definition hex_value (c : ascii) : option nat :=
  let n := nat_of_ascii c in
  if is_digit c then Some (n - 48)
  else if (97 <=? n) && (n <=? 102) then Some (n - 87)
  else if (65 <=? n) && (n <=? 70) then Some (n - 55)
  else None.

(** [QuoteJSONString] on one code unit *)
Definition esc_char (c : ascii) : jsstring :=
  let n := nat_of_ascii c in
  if Ascii.eqb c DQUOTE then [BACKSLASH; DQUOTE]
  else if Ascii.eqb c BACKSLASH then [BACKSLASH; BACKSLASH]
  else if n =? 8 then [BACKSLASH; "b"%char]
  else if n =? 12 then [BACKSLASH; "f"%char]
  else if n =? 10 then [BACKSLASH; "n"%char]
  else if n =? 13 then [BACKSLASH; "r"%char]
  else if n =? 9 then [BACKSLASH; "t"%char]
  else if n <? 32 then
    [BACKSLASH; "u"%char; "0"%char; "0"%char; hex_digit (n / 16); hex_digit (n mod 16)]
  else [c].

Definition esc (s : jsstring) : jsstring := concat (map esc_char s).

Definition quote (s : jsstring) : jsstring := DQUOTE :: esc s ++ [DQUOTE].

(** Reads a string's characters up to its closing quote. *)
Fixpoint unquote (s : jsstring) : option (jsstring * jsstring) :=
  match s with
  | [] => None
  | c :: s1 =>
      if Ascii.eqb c DQUOTE then Some ([], s1)
      else if Ascii.eqb c BACKSLASH then
        match s1 with
        | [] => None
        | e :: s2 =>
            let simple (d : ascii) :=
              match unquote s2 with
              | Some (t, r) => Some (d :: t, r)
              | None => None
              end in
            if Ascii.eqb e DQUOTE then simple DQUOTE
            else if Ascii.eqb e BACKSLASH then simple BACKSLASH
            else if Ascii.eqb e "/"%char then simple "/"%char
            else if Ascii.eqb e "b"%char then simple (ascii_of_nat 8)
            else if Ascii.eqb e "f"%char then simple (ascii_of_nat 12)
            else if Ascii.eqb e "n"%char then simple (ascii_of_nat 10)
            else if Ascii.eqb e "r"%char then simple (ascii_of_nat 13)
            else if Ascii.eqb e "t"%char then simple (ascii_of_nat 9)
            else if Ascii.eqb e "u"%char then
              match s2 with
              | h1 :: h2 :: h3 :: h4 :: s6 =>
                  match hex_value h1, hex_value h2, hex_value h3, hex_value h4 with
                  | Some 0, Some 0, Some v3, Some v4 =>
                      match unquote s6 with
                      | Some (t, r) => Some (ascii_of_nat (16 * v3 + v4) :: t, r)
                      | None => None
                      end
                  | _, _, _, _ => None
                  end
              | _ => None
              end
            else None
        end
      else if nat_of_ascii c <? 32 then None
      else
        match unquote s1 with
        | Some (t, r) => Some (c :: t, r)
        | None => None
        end
  end.

Definition type_name (t : LogType) : jsstring :=
  match t with
  | TAgent => str "agent"
  | TOperator => str "operator"
  | TSystem => str "system"
  | TError => str "error"
  end.

Definition type_of_name (s : jsstring) : option LogType :=
  if streq s (str "agent") then Some TAgent
  else if streq s (str "operator") then Some TOperator
  else if streq s (str "system") then Some TSystem
  else if streq s (str "error") then Some TError
  else None.

(** [{"name":] for the first member and [,"name":] for the others *)
Definition key (first : bool) (name : string) : jsstring :=
  (if first then "{"%char else ","%char) :: DQUOTE :: str name ++ [DQUOTE; ":"%char].

Definition stringify (e : LogEntry) : jsstring :=
  key true "timestamp" ++ quote (timestamp e) ++
  key false "loopId" ++ quote (loopId e) ++
  key false "type" ++ quote (type_name (type e)) ++
  key false "content" ++ quote (content e) ++ ["}"%char].

(** Strips the prefix [p], or fails. *)
Fixpoint expect (p s : jsstring) : option jsstring :=
  match p, s with
  | [], _ => Some s
  | a :: p', b :: s' => if Ascii.eqb a b then expect p' s' else None
  | _ :: _, [] => None
  end.

(** A member [key:"value"]: the value and what follows it. *)
Definition member (first : bool) (name : string) (s : jsstring)
    : option (jsstring * jsstring) :=
  match expect (key first name ++ [DQUOTE]) s with
  | Some s' => unquote s'
  | None => None
  end.

Definition parse (s : jsstring) : option LogEntry :=
  '(ts, s) ← member true "timestamp" s;
  '(lid, s) ← member false "loopId" s;
  '(ty, s) ← member false "type" s;
  t ← type_of_name ty;
  '(c, s) ← member false "content" s;
  if streq s (str "}") then
    Some {| timestamp := ts; loopId := lid; type := t; content := c |}
  else None.

End MiniJson.

(* ===================================================================== *)
(** ** Runs of the journal *)
(* ===================================================================== *)

Module Run.

Import Logs.

(** The lines of a text that a newline closes, and what follows the last
    newline. *)
Definition complete_lines (s : jsstring) : list jsstring := removelast (split LF s).
Definition partial_line (s : jsstring) : jsstring := List.last (split LF s) [].

(** The record [appendLog] writes for an entry. *)
Definition record_of (stringify : LogEntry -> jsstring) (e : LogEntry) : jsstring :=
  stringify e ++ [LF].

(** What happens to a log file while a tailer watches it: bytes are
    appended to it, and the timer runs [poll]. *)
Inductive event :=
| Append (data : jsstring)
| Tick.

(** All the bytes a run appends. *)
Fixpoint appended (evs : list event) : jsstring :=
  match evs with
  | [] => []
  | Append data :: evs' => data ++ appended evs'
  | Tick :: evs' => appended evs'
  end.

(** The operations of the journal that write: [appendLog], and [tailLog]
    when it makes the file. *)
Inductive journal_op :=
| Op_append (now loopId : jsstring) (entry : EntryInput)
| Op_tail (loopId : jsstring).

Definition no_files : filesystem := {| files := ∅; dirs := ∅ |}.

Section Runs.

Variable getLoopDir : jsstring -> jsstring.
Variable JSON_stringify : LogEntry -> jsstring.
Variable JSON_parse : jsstring -> option LogEntry.

(** A run of a tailer over the events: the file system and the tailer at
    the end, and every entry handed to [onEntry], in order. *)
Fixpoint run (loopId : jsstring) (evs : list event) (fs : filesystem) (t : Tailer)
    : filesystem * Tailer * list LogEntry :=
  match evs with
  | [] => (fs, t, [])
  | Append data :: evs' =>
      run loopId evs' (appendFileSync (getLogPath getLoopDir loopId) data fs) t
  | Tick :: evs' =>
      let '(t', out) := poll getLoopDir JSON_parse loopId fs t in
      let '(fs'', t'', out') := run loopId evs' fs t' in
      (fs'', t'', out ++ out')
  end.

(** [tailLog], a run of events, and one more poll: everything delivered. *)
Definition tail_session (loopId : jsstring) (evs : list event) (fs : filesystem)
    : list LogEntry :=
  let '(fs, t, out0) := tailLog getLoopDir JSON_parse loopId fs in
  let '(fs, t, out) := run loopId evs fs t in
  out0 ++ out ++ snd (poll getLoopDir JSON_parse loopId fs t).

Definition run_op (op : journal_op) (fs : filesystem) : filesystem :=
  match op with
  | Op_append now loopId entry => appendLog getLoopDir JSON_stringify now loopId entry fs
  | Op_tail loopId => fst (tailLog_start getLoopDir loopId fs)
  end.

(** The file system after the operations, the first one first. *)
Definition run_ops (ops : list journal_op) (fs : filesystem) : filesystem :=
  fold_left (fun fs op => run_op op fs) ops fs.

End Runs.

End Run.

(* ===================================================================== *)
(** ** Vocabulary of the properties *)
(* ===================================================================== *)

Import Logs Run Github.

(** The last [n] elements of a list. *)
Definition take_last {A} (n : nat) (l : list A) : list A := drop (length l - n) l.

(** A tailer that watches a file: the file is [pre], the text that was
    there when the tailer started, then what the tailer has [consumed],
    then what is [pending]. *)
Definition watching (getLoopDir : jsstring -> jsstring)
    (loopId pre consumed pending : jsstring) (fs : filesystem) (t : Tailer) : Prop :=
  files fs !! getLogPath getLoopDir loopId = Some (pre ++ consumed ++ pending)
  /\ position t = length (pre ++ consumed)
  /\ lineBuffer t = partial_line consumed
  /\ active t = true.

(** A line that is a JSON record of the entry [e]: it parses to [e], and
    so is not blank. *)
Definition json_record (parse : jsstring -> option LogEntry)
    (line : jsstring) (e : LogEntry) : Prop :=
  (LF ∉ line) /\ nonempty (trim line) = true /\ parse line = Some e.

(** Every log file is a sequence of closed lines. *)
Definition closed_lines (fs : filesystem) : Prop :=
  forall path content, files fs !! path = Some content ->
    content = [] \/ exists c, content = c ++ [LF].

(** The box of a checkbox match is checked. *)
Definition checked (x : rmatch) : Prop :=
  group x 1 = str "x" \/ group x 1 = str "X".

(** What stops a run of a class: the end, or a character outside of it. *)
Definition stops (p : ascii -> bool) (rest : jsstring) : Prop :=
  match rest with
  | [] => True
  | a :: _ => p a = false
  end.

(** A criterion's text as the renderer and the parser agree on it: it
    starts and ends with a character that is not white space, and has no
    line terminator. *)
Definition clean_text (t : jsstring) : Prop :=
  (exists a t', t = a :: t' /\ is_ws a = false)
  /\ (exists t' z, t = t' ++ [z] /\ is_ws z = false)
  /\ Forall (fun c => is_line_terminator c = false) t.

(** The criterion the parser makes of a rendered item. *)
Definition canonical (c : AcceptanceCriterion) : AcceptanceCriterion :=
  {| text := text c;
     completed := completed c;
     completedBy := if completed c then Some Operator else None;
     completedAt := None |}.

(** The heading [renderAcceptanceCriteriaSection] writes. *)
Definition header_line : jsstring := str "## Acceptance Criteria".

(** What may follow the items of the section: nothing, or the heading of
    the next section. *)
Definition closes_section (after : list jsstring) : Prop :=
  match after with
  | [] => True
  | line :: _ => ends_section line = true
  end.

(** A text of white space only (the empty text included). *)
Definition all_ws (s : jsstring) : Prop := Forall (fun c => is_ws c = true) s.

(** The lines of a section that render to the criteria [cs]: blank lines,
    and, for every criterion in turn, its item [- [ ] text] or [- [x] text],
    possibly indented and possibly followed by white space. *)
Inductive section_lines : list jsstring -> list AcceptanceCriterion -> Prop :=
| section_end : section_lines [] []
| section_blank (line : jsstring) (lines : list jsstring) (cs : list AcceptanceCriterion) :
    all_ws line -> section_lines lines cs -> section_lines (line :: lines) cs
| section_item (lead trail : jsstring) (c : AcceptanceCriterion)
    (lines : list jsstring) (cs : list AcceptanceCriterion) :
    all_ws lead -> all_ws trail -> clean_text (text c) ->
    section_lines lines cs ->
    section_lines ((lead ++ render_item c ++ trail) :: lines) (c :: cs).

(** A text without its white space. *)
Definition strip_ws (s : jsstring) : jsstring :=
  List.filter (fun c => negb (is_ws c)) s.

(* ===================================================================== *)
(** ** Concrete loops, bodies and journals *)
(* ===================================================================== *)

Module Ex.

Definition getLoopDir (loopId : jsstring) : jsstring := str "data/loops/" ++ loopId.

Definition loop1 : jsstring := str "loop-1".

(** *** A loop with three criteria, the first one completed by the agent *)

Definition A : AcceptanceCriterion :=
  {| text := str "A"; completed := true; completedBy := Some Agent;
     completedAt := Some (str "2026-01-05T09:00:00.000Z") |}.
Definition B : AcceptanceCriterion :=
  {| text := str "B"; completed := false; completedBy := None; completedAt := None |}.
Definition C : AcceptanceCriterion :=
  {| text := str "C"; completed := false; completedBy := None; completedAt := None |}.

Definition criteria : list AcceptanceCriterion := [A; B; C].

Definition the_issue : Issue :=
  {| url := str "https://github.com/o/r/issues/7"; number := 7; title := str "Do it";
     body := []; repo := str "o/r";
     acceptanceCriteria := criteria; originalAcceptanceCriteria := criteria |}.

Definition the_loop : App.Loop :=
  {| App.id := loop1; App.agent := str "claude"; App.status := LoopStatus.running;
     App.issue := the_issue; App.repoRoot := str "/work"; App.skipPermissions := false;
     App.sessionId := None; App.startedAt := Some (str "2026-01-05T08:00:00.000Z");
     App.endedAt := None; App.pausedAt := None;
     App.pausedFromPreviousSession := false; App.issueClosed := false;
     App.error := None; App.pid := Some 4242 |}.

Definition world : App.World :=
  {| App.state_json := {| App.loops := [the_loop] |}; App.disk := no_files |}.

(** *** Issue bodies *)

(** A section under another recognised header, with prose and a starred,
    capital-X item. *)
Definition body_done_when : jsstring :=
  join [LF] [str "## Done When"; str "All of:"; str "* [X] ship it"; str "- plain bullet"].

(** A section as [renderAcceptanceCriteriaSection] writes it. *)
Definition item_a : AcceptanceCriterion :=
  {| text := str "a"; completed := false; completedBy := None; completedAt := None |}.
Definition item_bee : AcceptanceCriterion :=
  {| text := str "bee"; completed := true; completedBy := Some Operator; completedAt := None |}.
Definition body_rendered : jsstring :=
  join [LF] [str "Intro"; str "## Acceptance Criteria"; str "- [ ] a"; str "- [x] bee";
             str "## Next"; str "text"].

(** The same section as an editor with CR LF line ends, a blank line under
    the header and an indented item leaves it. *)
Definition body_crlf : jsstring :=
  join [CR; LF] [str "Intro"; str "## Acceptance Criteria"; []; str "- [ ] a";
                 str "  - [x] bee"; str "## Next"; str "text"].

(** *** Journals *)

Definition entry1 : LogEntry :=
  {| timestamp := str "2026-01-05T10:00:00.000Z"; loopId := loop1;
     type := TSystem; content := str "--- Iteration 3 ---" |}.
Definition entry2 : LogEntry :=
  {| timestamp := str "2026-01-05T10:00:01.000Z"; loopId := loop1;
     type := TAgent; content := str "I created file src/a.ts using tool Bash" |}.

Definition record1 : jsstring := record_of MiniJson.stringify entry1.
Definition record2 : jsstring := record_of MiniJson.stringify entry2.

(** The two records arrive in three writes that cut through them, and an
    unfinished third line follows; the timer fires in between. *)
Definition torn : jsstring := take 30 record1.
Definition events : list event :=
  [Append (take 10 record1); Tick; Append (drop 10 record1 ++ take 40 record2);
   Tick; Tick; Append (drop 40 record2 ++ torn); Tick].

(** A journal written by [appendLog] and watched by a tailer. *)
Definition ops : list journal_op :=
  [Op_tail loop1;
   Op_append (timestamp entry1) loop1 {| in_type := TSystem; in_content := content entry1 |};
   Op_append (timestamp entry2) loop1 {| in_type := TAgent; in_content := content entry2 |}].

Definition journal : filesystem := run_ops getLoopDir MiniJson.stringify ops no_files.

(** A log file of 530 characters with one line: the start of a record
    that was cut short, and directly behind it a whole record of 499
    characters. *)
Definition long_entry : LogEntry :=
  {| timestamp := str "2026-01-05T10:00:01.000Z"; loopId := loop1;
     type := TAgent; content := repeat "a"%char 413 |}.
Definition torn_line : jsstring := torn ++ MiniJson.stringify long_entry.
Definition torn_journal : filesystem :=
  {| files := {[ getLogPath getLoopDir loop1 := torn_line ++ [LF] ]}; dirs := ∅ |}.

End Ex.

From Stdlib Require Import DecimalNat Sorted.

(* ===================================================================== *)
(** ** More vocabulary: journals as lists of lines *)
(* ===================================================================== *)

(** A text of closed lines. *)
Definition closed_text (lines : list jsstring) : jsstring :=
  concat (map (fun line => line ++ [LF]) lines).

(** A line that [trim] leaves alone wherever it stands in a file: it has no
    newline and starts and ends with a character that is not white space. *)
Definition solid_line (line : jsstring) : Prop :=
  (LF ∉ line)
  /\ (exists a s, line = a :: s /\ is_ws a = false)
  /\ (exists s z, line = s ++ [z] /\ is_ws z = false).

(** The entry [appendLog] serialises. *)
Definition stamped (now loopId : jsstring) (entry : EntryInput) : LogEntry :=
  {| timestamp := now; loopId := loopId;
     type := in_type entry; content := in_content entry |}.

(** The entries the operations append to the file at [path], in order. *)
Fixpoint entries_for (getLoopDir : jsstring -> jsstring) (path : jsstring)
    (ops : list journal_op) : list LogEntry :=
  match ops with
  | [] => []
  | Op_append now loopId entry :: ops' =>
      if bool_decide (getLogPath getLoopDir loopId = path)
      then stamped now loopId entry :: entries_for getLoopDir path ops'
      else entries_for getLoopDir path ops'
  | Op_tail _ :: ops' => entries_for getLoopDir path ops'
  end.

(** What happens while a tailer watches a journal: the journal's own
    operations, on this loop or on another, and the timer's polls. *)
Inductive step :=
| Step_op (op : journal_op)
| Step_poll.

Definition ops_of (steps : list step) : list journal_op :=
  omap (fun s => match s with Step_op op => Some op | Step_poll => None end) steps.

Section Steps.

Variable getLoopDir : jsstring -> jsstring.
Variable JSON_stringify : LogEntry -> jsstring.
Variable JSON_parse : jsstring -> option LogEntry.

(** A run of a tailer of [loopId] over the steps: the file system and the
    tailer at the end, and every entry handed to [onEntry], in order.  The
    callback does not call the cleanup function ([run_calling] is the run
    with a callback that may). *)
Fixpoint run_steps (loopId : jsstring) (steps : list step) (fs : filesystem)
    (t : Tailer) : filesystem * Tailer * list LogEntry :=
  match steps with
  | [] => (fs, t, [])
  | Step_op op :: steps' =>
      run_steps loopId steps' (run_op getLoopDir JSON_stringify op fs) t
  | Step_poll :: steps' =>
      let '(t', out) := poll getLoopDir JSON_parse loopId fs t in
      let '(fs'', t'', out') := run_steps loopId steps' fs t' in
      (fs'', t'', out ++ out')
  end.

(** [tailLog], a run of steps, and one more poll: everything delivered. *)
Definition tail_steps_session (loopId : jsstring) (steps : list step)
    (fs : filesystem) : list LogEntry :=
  let '(fs, t, out0) := tailLog getLoopDir JSON_parse loopId fs in
  let '(fs, t, out) := run_steps loopId steps fs t in
  out0 ++ out ++ snd (poll getLoopDir JSON_parse loopId fs t).

End Steps.

(* ===================================================================== *)
(** ** The issue module's calls of the GitHub CLI *)
(* ===================================================================== *)

Module GithubCli.

Definition not_slash (c : ascii) : bool := negb (Ascii.eqb c "/").

(** [/github\.com\/([^/]+\/[^/]+)\/issues\/(\d+)/] *)
Definition re_issue_url : regex :=
  cat [lit "github.com/";
       Grp 1 (cat [plus (Cls not_slash); chr "/"; plus (Cls not_slash)]);
       lit "/issues/";
       Grp 2 (plus digit)].

(** What [parseIssueUrl] returns: [{ repo, number }]. *)
Record IssueRef := mkIssueRef {
  ref_repo : jsstring;
  ref_number : nat
}.

(** [parseIssueUrl] *)
Definition parseIssueUrl (url : jsstring) : option IssueRef :=
  match exec re_issue_url url with
  | None => None
  | Some x => Some {| ref_repo := group x 1; ref_number := parseInt (group x 2) |}
  end.

(** The object [gh issue view --json title,body,number,url] prints, as
    [fetchIssue] reads it; a field that is missing is the empty string,
    which [data.body || ''] and [data.url || url] treat alike. *)
Record IssueData := mkIssueData {
  data_url : jsstring;
  data_number : nat;
  data_title : jsstring;
  data_body : jsstring
}.

(** The command line [fetchIssue] hands to the shell. *)
Definition fetch_command (repo : jsstring) (number : nat) : jsstring :=
  str "gh issue view " ++ num number ++ str " --repo " ++ repo
  ++ str " --json title,body,number,url".

(** The catch block of [fetchIssue], on the error's message. *)
Definition fetch_failure (message : jsstring) : outcome Issue :=
  if includes (str "gh: command not found") message
  then Throw (str "GitHub CLI (gh) not found. Install from https://cli.github.com")
  else Throw (str "Failed to fetch issue: " ++ message).

(** [fetchIssue]; [execSync command] is the standard output of the shell
    command, or the message of the error it throws; [JSON_parse] likewise. *)
Definition fetchIssue (execSync : jsstring -> outcome jsstring)
    (JSON_parse : jsstring -> outcome IssueData) (url : jsstring) : outcome Issue :=
  match parseIssueUrl url with
  | None => Throw (str "Invalid GitHub issue URL: " ++ url)
  | Some parsed =>
      match execSync (fetch_command (ref_repo parsed) (ref_number parsed)) with
      | Throw message => fetch_failure message
      | Return result =>
          match JSON_parse result with
          | Throw message => fetch_failure message
          | Return data =>
              let acceptanceCriteria :=
                parseAcceptanceCriteria (or_else (data_body data) []) in
              let originalAcceptanceCriteria :=
                map (fun criterion => criterion) acceptanceCriteria in
              Return {| url := or_else (data_url data) url;
                        number := data_number data;
                        title := data_title data;
                        body := or_else (data_body data) [];
                        repo := ref_repo parsed;
                        acceptanceCriteria := acceptanceCriteria;
                        originalAcceptanceCriteria := originalAcceptanceCriteria |}
          end
      end
  end.

(** [updateIssueBody]; [execFileSync] as for [closeIssue]. *)
Definition updateIssueBody (execFileSync : list jsstring -> option ExecError)
    (url body : jsstring) : outcome unit :=
  if negb (nonempty url) then Throw (str "Missing GitHub issue URL")
  else
    match execFileSync [str "issue"; str "edit"; url; str "--body"; body] with
    | None => Return tt
    | Some err =>
        if gh_not_found err
        then Throw (str "GitHub CLI (gh) not found. Install from https://cli.github.com")
        else
          let firstLine :=
            or_else (hd [] (split LF (failure_message err))) (str "Unknown error") in
          Throw (str "Failed to update issue: " ++ firstLine)
    end.

End GithubCli.

(* ===================================================================== *)
(** ** The claude adapter's session id *)
(* ===================================================================== *)

Module ClaudeCli.

Definition not_quote (c : ascii) : bool := negb (Ascii.eqb c DQUOTE).

(** [/Q<name>Q\s*:\s*Q([^Q]+)Q/], where Q stands for the double quote. *)
Definition re_string_field (name : string) : regex :=
  cat [chr DQUOTE; lit name; chr DQUOTE; star ws; chr ":"; star ws;
       chr DQUOTE; Grp 1 (plus (Cls not_quote)); chr DQUOTE].

(** The key of a field as it stands in the output: the name in quotes. *)
Definition quoted_key (name : string) : jsstring := DQUOTE :: str name ++ [DQUOTE].

Definition re_sessionId : regex := re_string_field "sessionId".
Definition re_session_id : regex := re_string_field "session_id".

(** [extractSessionId] *)
Definition extractSessionId (output : jsstring) : option jsstring :=
  match exec re_sessionId output with
  | Some sessionIdMatch => Some (group sessionIdMatch 1)
  | None =>
      match exec re_session_id output with
      | Some altMatch => Some (group altMatch 1)
      | None => None
      end
  end.

End ClaudeCli.

(* ===================================================================== *)
(** ** The dashboard: tabs, selection, log pane and criteria editor *)
(* ===================================================================== *)

#[global] Instance LoopStatus_eq_dec : EqDecision LoopStatus.t.
Proof. solve_decision. Defined.

Module Ui.

Import App.

(** *** Tabs *)

(** [tabDefs] *)
Definition tabDefs : list (jsstring * option LoopStatus.t) :=
  [(str "All", None);
   (str "Running", Some LoopStatus.running);
   (str "Paused", Some LoopStatus.paused);
   (str "Completed", Some LoopStatus.completed);
   (str "Errors", Some LoopStatus.error)].

(** [l => l.status === s] *)
Definition has_status (s : LoopStatus.t) (l : Loop) : bool :=
  bool_decide (status l = s).

(** [getTabCounts]: the record, as the list of its keys and values. *)
Definition getTabCounts (state : State) : list (jsstring * nat) :=
  [(str "All", length (loops state));
   (str "Running", length (List.filter (has_status LoopStatus.running) (loops state)));
   (str "Paused", length (List.filter (has_status LoopStatus.paused) (loops state)));
   (str "Completed", length (List.filter (has_status LoopStatus.completed) (loops state)));
   (str "Errors", length (List.filter (has_status LoopStatus.error) (loops state)))].

(** [counts[label]] *)
Definition count_of (label : jsstring) (counts : list (jsstring * nat)) : option nat :=
  snd <$> find (fun kv => streq (fst kv) label) counts.

(** [getFilteredLoops]; [None] is the [TypeError] of reading [status] of
    [tabDefs[activeTabIndex]] when there is no such tab. *)
Definition getFilteredLoops (state : State) (activeTabIndex : nat) : option (list Loop) :=
  match tabDefs !! activeTabIndex with
  | None => None
  | Some (_, None) => Some (loops state)
  | Some (_, Some filter) => Some (List.filter (has_status filter) (loops state))
  end.

(** The guard and the assignment of [setActiveTab]. *)
Definition setActiveTab (index : Z) (activeTabIndex : nat) : nat :=
  if ((index <? 0) || (Z.of_nat (length tabDefs) <=? index))%Z then activeTabIndex
  else Z.to_nat index.

(** *** The list of loops and the selection *)

Section LoopList.

(** [new Date(ts).getTime()], for time stamps that are dates. *)
Variable getTime : jsstring -> Z.

(** [getLoopTimestamp] *)
Definition getLoopTimestamp (loop : Loop) : Z :=
  let ts := or_else (default [] (endedAt loop)) (default [] (startedAt loop)) in
  if nonempty ts then getTime ts else 0%Z.

(** [[...xs].sort((a, b) => getLoopTimestamp(b) - getLoopTimestamp(a))]:
    the stable sort, newest first.  [y] stays before [x], which stood
    before it in [xs], only when the comparison of [y] with [x] is
    negative. *)
Fixpoint insert_by_time (x : Loop) (sorted : list Loop) : list Loop :=
  match sorted with
  | [] => [x]
  | y :: rest =>
      if (getLoopTimestamp x - getLoopTimestamp y <? 0)%Z
      then y :: insert_by_time x rest
      else x :: y :: rest
  end.

Definition sort_by_time (xs : list Loop) : list Loop :=
  fold_right insert_by_time [] xs.

(** [updateLoopList], for what it stores in [loopListData]. *)
Definition updateLoopList (state : State) (activeTabIndex : nat) : option (list Loop) :=
  sort_by_time <$> getFilteredLoops state activeTabIndex.

(** [syncSelectionAfterFilter]: the new [selectedLoopId] and the result. *)
Definition syncSelectionAfterFilter (loopListData : list Loop)
    (selectedLoopId : option jsstring) : option jsstring * bool :=
  match loopListData with
  | [] => (None, true)
  | first :: _ =>
      match find (fun loop => bool_decide (Some (id loop) = selectedLoopId)) loopListData with
      | Some _ => (selectedLoopId, false)
      | None => (Some (id first), true)
      end
  end.

End LoopList.

(** *** The log pane *)

Definition type_string (t : LogType) : jsstring :=
  match t with
  | TAgent => str "agent"
  | TOperator => str "operator"
  | TSystem => str "system"
  | TError => str "error"
  end.

(** [typeColors[entry.type]] *)
Definition typeColors (t : LogType) : jsstring :=
  match t with
  | TAgent => str "#2de2e6"
  | TOperator => str "#ff4fd8"
  | TSystem => str "#666"
  | TError => str "#ff006e"
  end.

(** [formatLogEntry] *)
Definition formatLogEntry (entry : LogEntry) : jsstring :=
  let color := or_else (typeColors (type entry)) (str "#666") in
  str "{" ++ color ++ str "-fg}[" ++ type_string (type entry) ++ str "]{/} "
  ++ content entry.

(** The lines [logWindow.log] gets for the entries: those whose content
    is not blank, formatted. *)
Definition log_lines (entries : list LogEntry) : list jsstring :=
  map formatLogEntry
    (List.filter (fun entry => nonempty (trim (content entry))) entries).

Section LogPane.

Variable getLoopDir : jsstring -> jsstring.
Variable JSON_stringify : LogEntry -> jsstring.
Variable JSON_parse : jsstring -> option LogEntry.

(** [loadLogsForLoop]: the file system and the new tailer, and the lines
    of the cleared log pane. *)
Definition loadLogsForLoop (loopId : jsstring) (fs : Logs.filesystem)
    : Logs.filesystem * Logs.Tailer * list jsstring :=
  let recentLogs := Logs.readRecentLogs getLoopDir JSON_parse fs loopId 50 in
  let pane := log_lines recentLogs in
  let '(fs, t, out) := Logs.tailLog getLoopDir JSON_parse loopId fs in
  (fs, t, pane ++ log_lines out).

(** The log pane after [loadLogsForLoop], a run of steps and one more
    poll. *)
Definition log_pane (loopId : jsstring) (steps : list step) (fs : Logs.filesystem)
    : list jsstring :=
  let '(fs, t, pane) := loadLogsForLoop loopId fs in
  let '(fs, t, out) := run_steps getLoopDir JSON_stringify JSON_parse loopId steps fs t in
  pane ++ log_lines (out ++ snd (Logs.poll getLoopDir JSON_parse loopId fs t)).

End LogPane.

(** *** The criteria editor *)

(** The variables of [openCriteriaModal] that the keys change. *)
Record Editor := mkEditor {
  criteriaDraft : list AcceptanceCriterion;
  selectedIndex : nat;
  editingIndex : option nat
}.

Definition with_text (c : AcceptanceCriterion) (t : jsstring) : AcceptanceCriterion :=
  {| text := t; completed := completed c;
     completedBy := completedBy c; completedAt := completedAt c |}.

(** [{ text: '', completed: false }] *)
Definition blank_criterion : AcceptanceCriterion :=
  {| text := []; completed := false; completedBy := None; completedAt := None |}.

(** The start of [openCriteriaModal]. *)
Definition openCriteriaModal (issue : Issue) : Editor :=
  {| criteriaDraft :=
       if 0 <? length (acceptanceCriteria issue)
       then map (fun criterion => criterion) (acceptanceCriteria issue)
       else [blank_criterion];
     selectedIndex := 0;
     editingIndex := None |}.

(** [criteriaDraft[i].text = value.trim()]; [None] is the [TypeError] of
    assigning to a property of [undefined]. *)
Definition save_text (i : nat) (value : jsstring) (draft : list AcceptanceCriterion)
    : option (list AcceptanceCriterion) :=
  match draft !! i with
  | Some c => Some (<[ i := with_text c (trim value) ]> draft)
  | None => None
  end.

(** [stopEditing], and the handler of Enter and Escape in the input;
    [value] is what the input holds. *)
Definition stopEditing (value : jsstring) (e : Editor) : option Editor :=
  match editingIndex e with
  | Some i =>
      draft ← save_text i value (criteriaDraft e);
      Some {| criteriaDraft := draft; selectedIndex := selectedIndex e;
              editingIndex := None |}
  | None => Some e
  end.

(** [startEditing(index)] *)
Definition startEditing (value : jsstring) (index : nat) (e : Editor) : option Editor :=
  draft ← match editingIndex e with
          | Some i => save_text i value (criteriaDraft e)
          | None => Some (criteriaDraft e)
          end;
  _ ← draft !! index;
  Some {| criteriaDraft := draft; selectedIndex := index; editingIndex := Some index |}.

(** The handler of Tab in the input, up to its timer. *)
Definition edit_next (value : jsstring) (e : Editor) : option Editor :=
  match editingIndex e with
  | Some i =>
      draft ← save_text i value (criteriaDraft e);
      Some {| criteriaDraft := draft;
              selectedIndex := (selectedIndex e + 1) mod length draft;
              editingIndex := None |}
  | None => Some e
  end.

(** The handler of [+] and [a], up to its timer. *)
Definition add_criterion (value : jsstring) (e : Editor) : option Editor :=
  e ← stopEditing value e;
  let draft := criteriaDraft e ++ [blank_criterion] in
  Some {| criteriaDraft := draft; selectedIndex := length draft - 1;
          editingIndex := editingIndex e |}.

(** The handler of [-], [x] and Delete. *)
Definition remove_criterion (value : jsstring) (e : Editor) : option Editor :=
  e ← stopEditing value e;
  if 1 <? length (criteriaDraft e) then
    let draft := delete (selectedIndex e) (criteriaDraft e) in
    Some {| criteriaDraft := draft;
            selectedIndex := Nat.min (selectedIndex e) (length draft - 1);
            editingIndex := editingIndex e |}
  else
    draft ← save_text 0 [] (criteriaDraft e);
    Some {| criteriaDraft := draft; selectedIndex := selectedIndex e;
            editingIndex := editingIndex e |}.

(** The keys of the editor; each carries what the input holds when it is
    pressed.  [Key_edit] is Tab or [e] on the list, and also the timer that
    [+] and Tab in the input set. *)
Inductive key :=
| Key_edit (value : jsstring)
| Key_done (value : jsstring)
| Key_next (value : jsstring)
| Key_add (value : jsstring)
| Key_remove (value : jsstring).

Definition press (k : key) (e : Editor) : option Editor :=
  match k with
  | Key_edit value => startEditing value (selectedIndex e) e
  | Key_done value => stopEditing value e
  | Key_next value => edit_next value e
  | Key_add value => add_criterion value e
  | Key_remove value => remove_criterion value e
  end.

Fixpoint press_all (ks : list key) (e : Editor) : option Editor :=
  match ks with
  | [] => Some e
  | k :: ks' => e' ← press k e; press_all ks' e'
  end.

(** The editor's draft has a criterion, the selection is one of the
    draft's, and so is the criterion being edited. *)
Definition editor_ok (e : Editor) : Prop :=
  0 < length (criteriaDraft e)
  /\ selectedIndex e < length (criteriaDraft e)
  /\ forall i, editingIndex e = Some i -> i < length (criteriaDraft e).

(** [nextCriteria] of [finalizeCriteria] *)
Definition nextCriteria (criteriaDraft : list AcceptanceCriterion)
    : list AcceptanceCriterion :=
  map (fun criterion => with_text criterion (trim (text criterion)))
    (List.filter (fun criterion => 0 <? length (trim (text criterion))) criteriaDraft).

(** [updatedIssue] of [finalizeCriteria] *)
Definition updatedIssue (issue : Issue) (originalCriteria : list AcceptanceCriterion)
    (criteriaDraft : list AcceptanceCriterion) : Issue :=
  let nextCriteria := nextCriteria criteriaDraft in
  let updatedBody :=
    applyAcceptanceCriteriaToIssueBody (or_else (body issue) []) nextCriteria in
  {| url := url issue; number := number issue; title := title issue;
     body := updatedBody; repo := repo issue;
     acceptanceCriteria := nextCriteria;
     originalAcceptanceCriteria := originalCriteria |}.

End Ui.

(** The content of the entry [toggleCriterion] logs for the criterion
    number [n]: [Criterion n marked complete by operator], or [incomplete]. *)
Definition toggle_line (n : nat) (nextCompleted : bool) : jsstring :=
  str "Criterion " ++ num n ++ str " marked "
  ++ (if nextCompleted then str "complete" else str "incomplete")
  ++ str " by operator".

(* ===================================================================== *)
(** ** More concrete journals, URLs and states *)
(* ===================================================================== *)

Module Cases.

Import Ex.

Definition loop2 : jsstring := str "loop-2".

Definition entry_other : LogEntry :=
  {| timestamp := str "2026-01-05T10:00:00.500Z"; loopId := loop2;
     type := TError; content := str "spawn failed" |}.

Definition append_of (e : LogEntry) : journal_op :=
  Op_append (timestamp e) (loopId e) {| in_type := type e; in_content := content e |}.

(** Two loops write to their journals in turn. *)
Definition mixed_ops : list journal_op :=
  [Op_tail loop1; append_of entry1; append_of entry_other; append_of entry2].

(** The same, seen by a tailer that polls in between. *)
Definition mixed_steps : list step :=
  [Step_poll; Step_op (append_of entry1); Step_op (append_of entry_other);
   Step_poll; Step_op (Op_tail loop2); Step_op (append_of entry2)].

(** A log file with a line that is no JSON between two records. *)
Definition junk_lines : list jsstring :=
  [MiniJson.stringify entry1; str "not json"; MiniJson.stringify entry2].
Definition junk_journal : filesystem :=
  {| files := {[ getLogPath getLoopDir loop1 := closed_text junk_lines ]}; dirs := ∅ |}.


(** A journal with two iteration markers and an agent's line. *)
Definition marker12 : LogEntry :=
  {| timestamp := str "2026-01-05T10:30:00.000Z"; loopId := loop1;
     type := TSystem; content := str "--- Iteration 12 ---" |}.
Definition marked_logs : list LogEntry := [entry1; entry2; marker12].

(** The journal of two toggles of the second criterion. *)
Definition toggle_logs : list LogEntry :=
  [ {| timestamp := str "2026-01-05T11:00:00.001Z"; loopId := loop1;
       type := TSystem; content := toggle_line 2 true |};
    {| timestamp := str "2026-01-05T11:00:05.001Z"; loopId := loop1;
       type := TSystem; content := toggle_line 2 false |} ].

(** [gh] prints the issue of [the_issue]'s URL, with a body. *)
Definition gh_output : jsstring := str "{...}".
Definition gh_data : GithubCli.IssueData :=
  {| GithubCli.data_url := [];
     GithubCli.data_number := 7;
     GithubCli.data_title := str "Do it";
     GithubCli.data_body := body_rendered |}.
Definition execSync (command : jsstring) : outcome jsstring :=
  if streq command (str "gh issue view 7 --repo o/r --json title,body,number,url")
  then Return gh_output
  else Throw (str "unexpected command").
Definition JSON_parse (text : jsstring) : outcome GithubCli.IssueData :=
  if streq text gh_output then Return gh_data else Throw (str "Unexpected token").

(** [gh] fails with a blank line on standard error. *)
Definition blank_failure : ExecError :=
  {| err_code := None; err_stderr := [" "%char; LF];
     err_stdout := str "HTTP 401: Bad credentials"; err_message := str "Command failed" |}.

(** A draft of the criteria editor: a text with blanks around it, a blank
    text, and a checked criterion. *)
Definition draft : list AcceptanceCriterion :=
  [ {| text := str " a "; completed := false; completedBy := None; completedAt := None |};
    {| text := str "  "; completed := false; completedBy := None; completedAt := None |};
    {| text := str "bee"; completed := true; completedBy := Some Agent;
       completedAt := Some (str "2026-01-05T09:00:00.000Z") |} ].

(** The result line of the agent's output, with the one key and with the
    other. *)
Definition result_line (key : string) : jsstring :=
  str "{" ++ ClaudeCli.quoted_key "type" ++ str ":" ++ [DQUOTE] ++ str "result" ++ [DQUOTE]
  ++ str "," ++ ClaudeCli.quoted_key key ++ str ": " ++ [DQUOTE] ++ str "abc-123" ++ [DQUOTE]
  ++ str "," ++ ClaudeCli.quoted_key "cost_usd" ++ str ":0.1}".

(** A state with a running, a queued and a completed loop. *)
Definition loop_with (loopId : jsstring) (st : LoopStatus.t) (ended : option jsstring)
    : App.Loop :=
  {| App.id := loopId; App.agent := str "claude"; App.status := st;
     App.issue := the_issue; App.repoRoot := str "/work"; App.skipPermissions := false;
     App.sessionId := None; App.startedAt := Some (str "2026-01-05T08:00:00.000Z");
     App.endedAt := ended; App.pausedAt := None;
     App.pausedFromPreviousSession := false; App.issueClosed := false;
     App.error := None; App.pid := None |}.

Definition three_loops : App.State :=
  {| App.loops :=
       [the_loop;
        loop_with loop2 LoopStatus.queued None;
        loop_with (str "loop-3") LoopStatus.completed (Some (str "2026-01-05T09:30:00.000Z"))] |}.

(** A clock that knows the hours of the examples' time stamps. *)
Definition getTime (ts : jsstring) : Z :=
  Z.of_nat (parseInt (take 2 (drop 11 ts))) * 60 + Z.of_nat (parseInt (take 2 (drop 14 ts))).

End Cases.

(* ===================================================================== *)
(** ** The log file as bytes *)
(* ===================================================================== *)

(** [readRecentLogs] and [tailLog] do not read the file as text: they read
    a range of its bytes into a [Buffer] and decode that range on its own
    with [buffer.toString('utf-8')].  In this module a file is the sequence
    of its bytes, sizes and positions count bytes, and a string is held as
    its UTF-8 encoding, so that writing a string to a file is the identity
    and a character outside ASCII takes two to four places.  On a file of
    ASCII characters the functions of this module are those of [Logs]. *)
Module Raw.

Import Logs.

(** U+FFFD, which the decoder puts where the bytes are not UTF-8. *)
Definition REPLACEMENT : jsstring :=
  [ascii_of_nat 239; ascii_of_nat 191; ascii_of_nat 189].

Definition in_range (lo hi : nat) (b : ascii) : bool :=
  (lo <=? nat_of_ascii b) && (nat_of_ascii b <=? hi).

(** The UTF-8 decoder behind [Buffer.toString('utf-8')]: [seen] holds the
    bytes of the character being read, [needed] the number of continuation
    bytes still to come, and [lower] and [upper] bound the next one.  A
    sequence that is well formed is handed on as it is; a byte that cannot
    start or continue a character gives one U+FFFD, and a continuation
    that is out of range is read again as the start of a character; a
    character still open where the bytes end gives one U+FFFD. *)
Fixpoint decode (bytes seen : list ascii) (needed lower upper : nat) : jsstring :=
  match bytes with
  | [] => if needed =? 0 then [] else REPLACEMENT
  | b :: rest =>
      let first :=
        if in_range 0 127 b then b :: decode rest [] 0 128 191
        else if in_range 194 223 b then decode rest [b] 1 128 191
        else if in_range 224 239 b then
          decode rest [b] 2
            (if nat_of_ascii b =? 224 then 160 else 128)
            (if nat_of_ascii b =? 237 then 159 else 191)
        else if in_range 240 244 b then
          decode rest [b] 3
            (if nat_of_ascii b =? 240 then 144 else 128)
            (if nat_of_ascii b =? 244 then 143 else 191)
        else REPLACEMENT ++ decode rest [] 0 128 191 in
      if needed =? 0 then first
      else if in_range lower upper b then
        if needed =? 1 then seen ++ b :: decode rest [] 0 128 191
        else decode rest (seen ++ [b]) (needed - 1) 128 191
      else REPLACEMENT ++ first
  end.

(** [buffer.toString('utf-8')] *)
Definition toString (buffer : list ascii) : jsstring := decode buffer [] 0 128 191.

(** The white space of [String.prototype.trim] that is one byte long. *)
Definition white1 (a : ascii) : bool :=
  let n := nat_of_ascii a in (9 <=? n) && (n <=? 13) || (n =? 32).

(** U+00A0. *)
Definition white2 (a b : ascii) : bool :=
  (nat_of_ascii a =? 194) && (nat_of_ascii b =? 160).

(** U+1680, U+2000 to U+200A, U+2028, U+2029, U+202F, U+205F, U+3000 and
    U+FEFF. *)
Definition white3 (a b c : ascii) : bool :=
  let '(x, y, z) := (nat_of_ascii a, nat_of_ascii b, nat_of_ascii c) in
  (x =? 225) && (y =? 154) && (z =? 128)
  || (x =? 226) && (y =? 128)
     && ((128 <=? z) && (z <=? 138) || (z =? 168) || (z =? 169) || (z =? 175))
  || (x =? 226) && (y =? 129) && (z =? 159)
  || (x =? 227) && (y =? 128) && (z =? 128)
  || (x =? 239) && (y =? 187) && (z =? 191).

(** [!line.trim()]: the string holds nothing but white space. *)
Fixpoint blank (s : jsstring) : bool :=
  match s with
  | [] => true
  | a :: s1 =>
      if white1 a then blank s1
      else
        match s1 with
        | [] => false
        | b :: s2 =>
            if white2 a b then blank s2
            else
              match s2 with
              | [] => false
              | c :: s3 => if white3 a b c then blank s3 else false
              end
        end
  end.

Section Journal.

Variable getLoopDir : jsstring -> jsstring.
Variable JSON_parse : jsstring -> option LogEntry.

(** The loop over the complete lines in [poll]: the entries handed to
    [onEntry]. *)
Definition deliver (lines : list jsstring) : list LogEntry :=
  omap (fun line => if blank line then None else JSON_parse line) lines.

(** One run of [poll]: [statSync] gives the size in bytes, [readSync] the
    bytes from [position] on, and these bytes are decoded by themselves. *)
Definition poll (loopId : jsstring) (fs : filesystem) (t : Tailer)
    : Tailer * list LogEntry :=
  if negb (active t) then (t, [])
  else
    match files fs !! getLogPath getLoopDir loopId with
    | None => (t, [])
    | Some bytes =>
        let size := length bytes in
        if position t <? size then
          let newBytes := size - position t in
          let buffer := take newBytes (drop (position t) bytes) in
          let newContent := toString buffer in
          let lineBuffer := lineBuffer t ++ newContent in
          let '(lines, rest) := pop (split LF lineBuffer) in
          ({| position := size; active := active t; lineBuffer := rest |},
           deliver lines)
        else if size <? position t then
          ({| position := 0; active := active t; lineBuffer := [] |}, [])
        else (t, [])
    end.

(** [tailLog] up to its return. *)
Definition tailLog (loopId : jsstring) (fs : filesystem)
    : filesystem * Tailer * list LogEntry :=
  let '(fs, t) := tailLog_start getLoopDir loopId fs in
  let '(t, out) := poll loopId fs t in
  (fs, t, out).

(** A run of a tailer over the events, as [Run.run]. *)
Fixpoint run (loopId : jsstring) (evs : list Run.event) (fs : filesystem) (t : Tailer)
    : filesystem * Tailer * list LogEntry :=
  match evs with
  | [] => (fs, t, [])
  | Run.Append data :: evs' =>
      run loopId evs' (appendFileSync (getLogPath getLoopDir loopId) data fs) t
  | Run.Tick :: evs' =>
      let '(t', out) := poll loopId fs t in
      let '(fs'', t'', out') := run loopId evs' fs t' in
      (fs'', t'', out ++ out')
  end.

(** [tailLog], a run of events, and one more poll: everything delivered. *)
Definition tail_session (loopId : jsstring) (evs : list Run.event) (fs : filesystem)
    : list LogEntry :=
  let '(fs, t, out0) := tailLog loopId fs in
  let '(fs, t, out) := run loopId evs fs t in
  out0 ++ out ++ snd (poll loopId fs t).

(** The bytes [readRecentLogs] reads, [chunkSize] of them from
    [stat.size - chunkSize] on. *)
Definition recent_buffer (bytes : list ascii) (count : nat) : list ascii :=
  let size := length bytes in
  let chunkSize := Nat.min size (count * 500) in
  take chunkSize (drop (size - chunkSize) bytes).

(** [readRecentLogs] *)
Definition readRecentLogs (fs : filesystem) (loopId : jsstring) (count : nat)
    : list LogEntry :=
  match files fs !! getLogPath getLoopDir loopId with
  | None => []
  | Some bytes =>
      if length bytes =? 0 then []
      else
        let content := toString (recent_buffer bytes count) in
        let lines := List.filter nonempty (split LF content) in
        recent_loop JSON_parse count (rev lines) []
  end.

End Journal.

End Raw.

(** A character of one byte, and a text of such characters. *)
Definition is_ascii (c : ascii) : bool := nat_of_ascii c <? 128.
Definition ascii_text (s : jsstring) : Prop := Forall (fun c => is_ascii c = true) s.

(* ===================================================================== *)
(** ** The tailer and what its callback does *)
(* ===================================================================== *)

(** The cleanup function that [tailLog] returns may be called by [onEntry]
    itself, while [poll] is in its loop over the lines.  Here the callback
    is given by what it does to the tailer: [calls_cleanup entry] tells
    whether [onEntry(entry)] calls the cleanup function. *)
Section Calling.

Import Logs.

Variable getLoopDir : jsstring -> jsstring.
Variable JSON_stringify : LogEntry -> jsstring.
Variable JSON_parse : jsstring -> option LogEntry.
Variable calls_cleanup : LogEntry -> bool.

(** The loop [for (const line of lines)] of [poll], which does not look at
    [active]: the value of [active] after it and the entries handed to
    [onEntry]. *)
Fixpoint deliver_calling (lines : list jsstring) (active : bool)
    : bool * list LogEntry :=
  match lines with
  | [] => (active, [])
  | line :: rest =>
      if nonempty (trim line) then
        match JSON_parse line with
        | Some entry =>
            let active := if calls_cleanup entry then false else active in
            let '(active, out) := deliver_calling rest active in
            (active, entry :: out)
        | None => deliver_calling rest active
        end
      else deliver_calling rest active
  end.

(** [poll] with such a callback. *)
Definition poll_calling (loopId : jsstring) (fs : filesystem) (t : Tailer)
    : Tailer * list LogEntry :=
  if negb (active t) then (t, [])
  else
    match files fs !! getLogPath getLoopDir loopId with
    | None => (t, [])
    | Some content =>
        let size := length content in
        if position t <? size then
          let newBytes := size - position t in
          let newContent := take newBytes (drop (position t) content) in
          let lineBuffer := lineBuffer t ++ newContent in
          let '(lines, rest) := pop (split LF lineBuffer) in
          let '(active, out) := deliver_calling lines (active t) in
          ({| position := size; active := active; lineBuffer := rest |}, out)
        else if size <? position t then
          ({| position := 0; active := active t; lineBuffer := [] |}, [])
        else (t, [])
    end.

(** A run over journal operations and polls, as [run_steps]. *)
Fixpoint run_calling (loopId : jsstring) (steps : list step) (fs : filesystem)
    (t : Tailer) : filesystem * Tailer * list LogEntry :=
  match steps with
  | [] => (fs, t, [])
  | Step_op op :: steps' =>
      run_calling loopId steps' (run_op getLoopDir JSON_stringify op fs) t
  | Step_poll :: steps' =>
      let '(t', out) := poll_calling loopId fs t in
      let '(fs'', t'', out') := run_calling loopId steps' fs t' in
      (fs'', t'', out ++ out')
  end.

End Calling.

(* ===================================================================== *)
(** ** Cut records and failures of [gh] *)
(* ===================================================================== *)

Module Faults.

Import Ex.

(** An entry with a character outside ASCII: [cafe] is the UTF-8 of
    c, a, f and U+00E9, whose two bytes are C3 and A9. *)
Definition cafe : jsstring := str "caf" ++ [ascii_of_nat 195; ascii_of_nat 169].
Definition cafe_entry : LogEntry :=
  {| timestamp := str "2026-01-05T10:00:02.000Z"; loopId := loop1;
     type := TAgent; content := cafe |}.

(** Its record, 92 bytes long, gets into the file in two writes, the first
    of which ends between the two bytes of the last character; the timer
    fires in between. *)
Definition cafe_record : jsstring := record_of MiniJson.stringify cafe_entry.
Definition cafe_events : list event :=
  [Append (take 88 cafe_record); Tick; Append (drop 88 cafe_record); Tick].

(** The same record, written at once. *)
Definition cafe_events_whole : list event := [Append cafe_record; Tick].

(** What the tailer makes of it: U+FFFD twice for the one character. *)
Definition garbled_entry : LogEntry :=
  {| timestamp := str "2026-01-05T10:00:02.000Z"; loopId := loop1;
     type := TAgent; content := str "caf" ++ Raw.REPLACEMENT ++ Raw.REPLACEMENT |}.

(** A log file that ends in the middle of a record. *)
Definition open_journal : filesystem :=
  {| files := {[ getLogPath getLoopDir loop1 := torn ]}; dirs := ∅ |}.

(** A failure of [gh issue close] with a warning on stderr and the report
    on stdout. *)
Definition report_on_stdout : ExecError :=
  {| err_code := None;
     err_stderr := str "warning: a new release of gh is available";
     err_stdout := str "! Issue o/r#7 (Do it) is already closed";
     err_message := str "Command failed: gh issue close" |}.

(** A failure for another reason whose text has the two words. *)
Definition other_failure : ExecError :=
  {| err_code := None;
     err_stderr := str "could not add the comment: the pull request it names was already closed";
     err_stdout := [];
     err_message := str "Command failed: gh issue close" |}.

End Faults.

(** The file at [path] is missing, is empty or ends with a newline. *)
Definition closed_file (fs : filesystem) (path : jsstring) : Prop :=
  forall content, files fs !! path = Some content ->
    content = [] \/ exists c, content = c ++ [LF].

(* ===================================================================== *)
(** ** More vocabulary: what a failure says *)
(* ===================================================================== *)

(** [s] starts with [p], whatever the case of the letters. *)
Fixpoint startsWith_i (p s : jsstring) : bool :=
  match p, s with
  | [], _ => true
  | a :: p', b :: s' => Ascii.eqb (to_lower b) (to_lower a) && startsWith_i p' s'
  | _ :: _, [] => false
  end.

(** [s] is the word [w] in some case of its letters. *)
Definition spells (w : string) (s : jsstring) : Prop :=
  map to_lower s = map to_lower (str w).

(** White space, at least one character of it. *)
Definition gap (g : jsstring) : Prop := g <> [] /\ all_ws g.

(** [p] stands somewhere in [text]. *)
Definition mentions (p text : jsstring) : Prop :=
  exists pre post, text = pre ++ p ++ post.

(** Somewhere in [text] stand the words [already closed] or
    [already been closed], in any case of the letters, with white space
    between the words. *)
Definition reports_already_closed (text : jsstring) : Prop :=
  (exists pre a g c post,
     text = pre ++ a ++ g ++ c ++ post
     /\ spells "already" a /\ gap g /\ spells "closed" c)
  \/ (exists pre a g1 b g2 c post,
        text = pre ++ a ++ g1 ++ b ++ g2 ++ c ++ post
        /\ spells "already" a /\ gap g1 /\ spells "been" b /\ gap g2
        /\ spells "closed" c).

(** The one text of a failure that is looked at: what the command wrote
    to stderr, or else to stdout, or else the message of the error,
    without the white space around it. *)
Definition reported_text (err : ExecError) : jsstring :=
  trim (match err_stderr err, err_stdout err with
        | _ :: _, _ => err_stderr err
        | [], _ :: _ => err_stdout err
        | [], [] => err_message err
        end).

(* ===================================================================== *)
(** ** More vocabulary: checkbox lines *)
(* ===================================================================== *)

(** A checkbox line, by its shape: white space, the bullet [-] or [*],
    white space, the box [[ ]], [[x]] or [[X]], white space, and a label
    that starts with a character other than white space and goes to the
    end of the line or to the first carriage return. *)
Definition checkbox_line (line : jsstring) (box : ascii) (label : jsstring) : Prop :=
  exists lead bullet w1 w2 rest,
    line = lead ++ bullet :: w1 ++ "["%char :: box :: "]"%char :: w2 ++ label ++ rest
    /\ all_ws lead
    /\ (bullet = "-"%char \/ bullet = "*"%char)
    /\ all_ws w1
    /\ (box = " "%char \/ box = "x"%char \/ box = "X"%char)
    /\ all_ws w2
    /\ (exists a t, label = a :: t /\ is_ws a = false)
    /\ Forall (fun c => is_line_terminator c = false) label
    /\ stops (fun c => negb (is_line_terminator c)) rest.

(** The criterion a line of a section stands for: that of its checkbox when
    it has one, and that of a plain bullet otherwise. *)
Definition item_of (line : jsstring) : option AcceptanceCriterion :=
  match exec re_checkbox line with
  | Some x => Some (criterion_of_checkbox x)
  | None =>
      match exec re_bullet line with
      | Some x => Some (criterion_of_bullet x)
      | None => None
      end
  end.

(* ===================================================================== *)
(** ** Facts about the string primitives *)
(* ===================================================================== *)

Lemma split_not_nil (sep : ascii) (s : jsstring) : split sep s <> [].
Proof.
  destruct s as [|c s]; simpl; [discriminate|].
  destruct (Ascii.eqb c sep); [discriminate|].
  destruct (split sep s); discriminate.
Qed.

Lemma split_no_sep (sep : ascii) (s : jsstring) :
  sep ∉ s -> split sep s = [s].
Proof.
  induction s as [|c s IH]; intros Hs; simpl; [reflexivity|].
  apply not_elem_of_cons in Hs as [Hc Hs].
  destruct (Ascii.eqb_spec c sep) as [->|_]; [congruence|].
  rewrite IH by assumption. reflexivity.
Qed.

(** Splitting distributes over a separator. *)
Lemma split_app_sep (sep : ascii) (a b : jsstring) :
  split sep (a ++ sep :: b) = split sep a ++ split sep b.
Proof.
  induction a as [|c a IH]; simpl.
  - rewrite Ascii.eqb_refl. reflexivity.
  - destruct (Ascii.eqb c sep); rewrite IH; [reflexivity|].
    pose proof (split_not_nil sep a) as Hn.
    destruct (split sep a); [congruence|reflexivity].
Qed.


(** Reading on from a partial line: what was complete stays, and the new
    text is split behind what is left of the last line. *)
Lemma split_resume (s chunk : jsstring) :
  split LF (s ++ chunk) = complete_lines s ++ split LF (partial_line s ++ chunk).
Proof.
  unfold complete_lines, partial_line.
  induction s as [|c s IH]; simpl; [reflexivity|].
  pose proof (split_not_nil LF s) as Hn.
  destruct (Ascii.eqb c LF) eqn:Ec.
  - destruct (split LF s) as [|h t] eqn:E; [congruence|].
    rewrite IH. reflexivity.
  - rewrite IH. destruct (split LF s) as [|h t] eqn:E; [congruence|].
    destruct t as [|h' t']; simpl; rewrite ?Ec; reflexivity.
Qed.

Lemma list_last_app {A} (a b : list A) (d : A) :
  b <> [] -> List.last (a ++ b) d = List.last b d.
Proof.
  intros Hb. rewrite (app_removelast_last d Hb) at 1.
  rewrite app_assoc. apply last_last.
Qed.

Lemma complete_lines_app (s chunk : jsstring) :
  complete_lines (s ++ chunk) =
  complete_lines s ++ complete_lines (partial_line s ++ chunk).
Proof.
  unfold complete_lines at 1. rewrite split_resume.
  rewrite removelast_app by apply split_not_nil. reflexivity.
Qed.

Lemma partial_line_app (s chunk : jsstring) :
  partial_line (s ++ chunk) = partial_line (partial_line s ++ chunk).
Proof.
  unfold partial_line at 1. rewrite split_resume.
  rewrite list_last_app by apply split_not_nil. reflexivity.
Qed.

Lemma complete_lines_no_sep (s : jsstring) : LF ∉ s -> complete_lines s = [].
Proof. intros H. unfold complete_lines. rewrite split_no_sep by assumption. reflexivity. Qed.

Lemma partial_line_no_sep (s : jsstring) : LF ∉ s -> partial_line s = s.
Proof. intros H. unfold partial_line. rewrite split_no_sep by assumption. reflexivity. Qed.

(** A text made of closed lines, then a rest without separator. *)
Lemma complete_lines_records (lines : list jsstring) (rest : jsstring) :
  Forall (fun l => LF ∉ l) lines -> LF ∉ rest ->
  complete_lines (concat (map (fun l => l ++ [LF]) lines) ++ rest) = lines
  /\ partial_line (concat (map (fun l => l ++ [LF]) lines) ++ rest) = rest.
Proof.
  intros Hl Hr. induction Hl as [|l ls Hl _ IH]; simpl.
  - split; [apply complete_lines_no_sep | apply partial_line_no_sep]; assumption.
  - destruct IH as [IH1 IH2].
    rewrite <- !app_assoc. simpl.
    unfold complete_lines, partial_line in *.
    rewrite split_app_sep, (split_no_sep _ l) by assumption. simpl.
    pose proof (split_not_nil LF (concat (map (fun l => l ++ [LF]) ls) ++ rest)) as Hn.
    destruct (split LF (concat (map (fun l => l ++ [LF]) ls) ++ rest)) eqn:E; [congruence|].
    rewrite IH1. split; [reflexivity | exact IH2].
Qed.

Lemma split_pieces_no_sep (sep : ascii) (s : jsstring) :
  Forall (fun l => sep ∉ l) (split sep s).
Proof.
  induction s as [|c s IH]; simpl.
  - constructor; [apply not_elem_of_nil | constructor].
  - destruct (Ascii.eqb_spec c sep) as [->|Hc].
    + constructor; [apply not_elem_of_nil | exact IH].
    + destruct (split sep s) as [|h t].
      { constructor; [|constructor]. intros Hin. apply list_elem_of_singleton in Hin. congruence. }
      apply Forall_cons in IH as [Hh Ht]. constructor; [|assumption].
      intros Hin. apply elem_of_cons in Hin as [->|Hin]; congruence.
Qed.

Lemma partial_line_no_LF (s : jsstring) : LF ∉ partial_line s.
Proof.
  unfold partial_line.
  pose proof (split_pieces_no_sep LF s) as HF.
  pose proof (split_not_nil LF s) as Hn.
  rewrite (app_removelast_last [] Hn) in HF.
  apply Forall_app in HF as [_ HF]. inversion HF; assumption.
Qed.

(* ===================================================================== *)
(** ** The polling tailer *)
(* ===================================================================== *)

Section TailFacts.

Variable getLoopDir : jsstring -> jsstring.
Variable JSON_parse : jsstring -> option LogEntry.


Lemma deliver_app (a b : list jsstring) :
  deliver JSON_parse (a ++ b) = deliver JSON_parse a ++ deliver JSON_parse b.
Proof. apply omap_app. Qed.

Lemma poll_watching loopId pre consumed pending fs t :
  watching getLoopDir loopId pre consumed pending fs t ->
  watching getLoopDir loopId pre (consumed ++ pending) [] fs (fst (poll getLoopDir JSON_parse loopId fs t))
  /\ snd (poll getLoopDir JSON_parse loopId fs t)
     = deliver JSON_parse (complete_lines (partial_line consumed ++ pending)).
Proof.
  intros (Hf & Hp & Hb & Ha). unfold poll. rewrite Ha, Hf. simpl negb. cbv iota.
  rewrite Hp.
  destruct pending as [|x pending].
  - rewrite !app_nil_r in *. rewrite Nat.ltb_irrefl. simpl.
    split.
    + unfold watching. rewrite app_nil_r. auto.
    + rewrite complete_lines_no_sep; [reflexivity | apply partial_line_no_LF].
  - assert (Hlt : (length (pre ++ consumed) <? length (pre ++ consumed ++ x :: pending)) = true).
    { apply Nat.ltb_lt. rewrite !length_app. simpl. lia. }
    rewrite Hlt.
    assert (Hnew : take (length (pre ++ consumed ++ x :: pending) - length (pre ++ consumed))
                     (drop (length (pre ++ consumed)) (pre ++ consumed ++ x :: pending))
                   = x :: pending).
    { rewrite app_assoc, drop_app_length, take_ge; [reflexivity|].
      rewrite !length_app. simpl. lia. }
    rewrite Hnew, Hb. unfold pop. simpl. split.
    + unfold watching. simpl. split_and!.
      * rewrite Hf, app_nil_r. reflexivity.
      * rewrite !app_assoc. reflexivity.
      * symmetry. apply partial_line_app.
      * reflexivity.
    + reflexivity.
Qed.

Lemma append_watching loopId pre consumed pending fs t data :
  watching getLoopDir loopId pre consumed pending fs t ->
  watching getLoopDir loopId pre consumed (pending ++ data)
    (appendFileSync (getLogPath getLoopDir loopId) data fs) t.
Proof.
  intros (Hf & Hp & Hb & Ha). unfold watching. split_and!; try assumption.
  unfold appendFileSync. simpl. rewrite lookup_insert_eq, Hf. simpl.
  rewrite <- !app_assoc. reflexivity.
Qed.

Lemma run_watching loopId pre evs : forall fs t consumed pending,
  watching getLoopDir loopId pre consumed pending fs t ->
  exists consumed' pending',
    consumed ++ pending ++ appended evs = consumed' ++ pending'
    /\ watching getLoopDir loopId pre consumed' pending'
         (fst (fst (run getLoopDir JSON_parse loopId evs fs t)))
         (snd (fst (run getLoopDir JSON_parse loopId evs fs t)))
    /\ deliver JSON_parse (complete_lines consumed')
       = deliver JSON_parse (complete_lines consumed)
         ++ snd (run getLoopDir JSON_parse loopId evs fs t).
Proof.
  induction evs as [|ev evs IH]; intros fs t consumed pending Hw.
  - exists consumed, pending. simpl. rewrite !app_nil_r. auto.
  - destruct ev as [data|]; simpl.
    + destruct (IH _ _ _ _ (append_watching _ _ _ _ _ _ data Hw))
        as (c' & p' & Heq & Hw' & Hd).
      exists c', p'. rewrite <- app_assoc in Heq. auto.
    + destruct (poll_watching _ _ _ _ _ _ Hw) as [Hw1 Hout].
      destruct (poll getLoopDir JSON_parse loopId fs t) as [t1 out1]. simpl in *.
      destruct (IH _ _ _ _ Hw1) as (c' & p' & Heq & Hw' & Hd).
      destruct (run getLoopDir JSON_parse loopId evs fs t1) as [[fs2 t2] out2]. simpl in *.
      exists c', p'. rewrite <- app_assoc in Heq. split; [assumption|]. split; [assumption|].
      rewrite Hd, complete_lines_app, deliver_app, Hout, app_assoc. reflexivity.
Qed.

End TailFacts.

(* ===================================================================== *)
(** ** Facts about [trim] *)
(* ===================================================================== *)

Lemma trimStart_app_nonws (u v : jsstring) (a : ascii) :
  is_ws a = false -> trimStart (u ++ a :: v) = trimStart u ++ a :: v.
Proof.
  intros Ha. induction u as [|c u IH]; simpl.
  - rewrite Ha. reflexivity.
  - destruct (is_ws c); [exact IH | reflexivity].
Qed.

Lemma trimEnd_snoc_ws (s : jsstring) (z : ascii) :
  is_ws z = true -> trimEnd (s ++ [z]) = trimEnd s.
Proof. intros Hz. unfold trimEnd. rewrite rev_app_distr. simpl. rewrite Hz. reflexivity. Qed.

Lemma trimEnd_snoc_nonws (s : jsstring) (z : ascii) :
  is_ws z = false -> trimEnd (s ++ [z]) = s ++ [z].
Proof.
  intros Hz. unfold trimEnd. rewrite rev_app_distr. simpl. rewrite Hz.
  simpl. rewrite rev_involutive. reflexivity.
Qed.

(** [trimStart] keeps a suffix. *)
Lemma trimStart_suffix (s : jsstring) : exists p, s = p ++ trimStart s.
Proof.
  induction s as [|c s [p Hp]]; simpl.
  - exists []. reflexivity.
  - destruct (is_ws c).
    + exists (c :: p). simpl. rewrite <- Hp. reflexivity.
    + exists []. reflexivity.
Qed.

(* ===================================================================== *)
(** ** The codec's contract *)
(* ===================================================================== *)

Section CodecFacts.

Variable stringify : LogEntry -> jsstring.
Variable parse : jsstring -> option LogEntry.
Hypothesis codec : JsonCodec stringify parse.

Lemma codec_not_blank (e : LogEntry) : nonempty (trim (stringify e)) = true.
Proof.
  destruct (codec_first _ _ codec e) as (a & s & Hs & Ha).
  destruct (codec_last _ _ codec e) as (s' & z & Hs' & Hz).
  unfold trim. rewrite Hs. simpl. rewrite Ha. rewrite <- Hs, Hs'.
  rewrite trimEnd_snoc_nonws by assumption. destruct s'; reflexivity.
Qed.

End CodecFacts.

(* ===================================================================== *)
(** ** C4: tail delivery *)
(* ===================================================================== *)

Lemma tailLog_start_watching getLoopDir loopId fs :
  exists pre,
    watching getLoopDir loopId pre [] []
      (fst (Logs.tailLog_start getLoopDir loopId fs))
      (snd (Logs.tailLog_start getLoopDir loopId fs)).
Proof.
  unfold Logs.tailLog_start, watching. simpl.
  destruct (files fs !! Logs.getLogPath getLoopDir loopId) as [pre|] eqn:E.
  - exists pre. simpl. rewrite E, !app_nil_r. simpl. auto.
  - exists []. simpl. rewrite lookup_insert_eq. simpl. auto.
Qed.

Lemma deliver_cons (parse : jsstring -> option LogEntry)
    (l : jsstring) (ls : list jsstring) :
  Logs.deliver parse (l :: ls) =
  match (if nonempty (trim l) then parse l else None) with
  | Some e => e :: Logs.deliver parse ls
  | None => Logs.deliver parse ls
  end.
Proof. reflexivity. Qed.

Lemma deliver_json_records (parse : jsstring -> option LogEntry)
    (lines : list jsstring) (es : list LogEntry) :
  Forall2 (json_record parse) lines es -> Logs.deliver parse lines = es.
Proof.
  induction 1 as [|line e lines es (_ & Hb & Hp) _ IH]; [reflexivity|].
  rewrite deliver_cons, Hb, Hp, IH. reflexivity.
Qed.

Lemma json_records_one_line (parse : jsstring -> option LogEntry)
    (lines : list jsstring) (es : list LogEntry) :
  Forall2 (json_record parse) lines es -> Forall (fun l => LF ∉ l) lines.
Proof. induction 1 as [|line e lines es (Hl & _) _ IH]; constructor; assumption. Qed.

(** What [appendLog] writes is a JSON record of the entry. *)
Lemma codec_json_record (stringify : LogEntry -> jsstring)
    (parse : jsstring -> option LogEntry) (e : LogEntry) :
  JsonCodec stringify parse -> json_record parse (stringify e) e.
Proof.
  intros Hc. split_and!.
  - apply (codec_one_line _ _ Hc).
  - apply (codec_not_blank _ _ Hc).
  - apply (codec_roundtrip _ _ Hc).
Qed.

(** On a log file of characters of one byte each: after [tailLog] starts,
    whatever is appended to the log file and however the appends fall
    between the polls, when the appended text is complete
    newline-terminated JSON records of the entries [es], then a rest
    without newline (an unfinished last line, possibly empty), the tailer
    hands [onEntry] exactly [es], in order, and nothing of the rest. *)
Lemma tail_session_delivers
    (getLoopDir : jsstring -> jsstring) (parse : jsstring -> option LogEntry)
    (loopId : jsstring) (fs : Logs.filesystem)
    (evs : list event) (lines : list jsstring) (es : list LogEntry) (rest : jsstring) :
  Forall2 (json_record parse) lines es ->
  LF ∉ rest ->
  appended evs = concat (map (fun line => line ++ [LF]) lines) ++ rest ->
  tail_session getLoopDir parse loopId evs fs = es.
Proof.
  intros Hrec Hrest Hev. unfold tail_session, Logs.tailLog.
  destruct (tailLog_start_watching getLoopDir loopId fs) as [pre Hw0].
  destruct (Logs.tailLog_start getLoopDir loopId fs) as [fs1 t0]. simpl in Hw0.
  destruct (poll_watching _ parse _ _ _ _ _ _ Hw0) as [Hw1 Hout0].
  destruct (Logs.poll getLoopDir parse loopId fs1 t0) as [t1 out0]. simpl in Hw1, Hout0.
  destruct (run_watching _ parse _ _ evs _ _ _ _ Hw1) as (c & p & Heq & Hw2 & Hd).
  destruct (run getLoopDir parse loopId evs fs1 t1) as [[fs2 t2] out]. simpl in Hw2, Hd.
  destruct (poll_watching _ parse _ _ _ _ _ _ Hw2) as [_ Hout2].
  simpl in Heq. rewrite Hout0, Hout2. simpl.
  change (complete_lines (partial_line [] ++ [])) with (@nil (list ascii)) in *.
  simpl in Hd. rewrite <- Hd, <- deliver_app, <- complete_lines_app, <- Heq, Hev.
  destruct (complete_lines_records lines rest) as [-> _];
    [eapply json_records_one_line; eassumption | assumption |].
  apply deliver_json_records, Hrec.
Qed.

(** C4.  The tailer does not deliver a record as it was appended when a
    poll falls between the bytes of one of its characters.  [poll] decodes
    the bytes that are new since the last poll by themselves.  The record
    of [Faults.cafe_entry], whose content ends in the character U+00E9 of
    two bytes, is appended after [tailLog] has started, in two writes, the
    first one up to the first of the two bytes; the timer fires in between.
    One entry is delivered, and its content ends in U+FFFD twice instead.
    Appended in one write, the same record is delivered as it is. *)
Theorem C4_poll_between_the_bytes_of_a_character :
  appended Faults.cafe_events = MiniJson.stringify Faults.cafe_entry ++ [LF]
  /\ MiniJson.parse (MiniJson.stringify Faults.cafe_entry) = Some Faults.cafe_entry
  /\ Raw.tail_session Ex.getLoopDir MiniJson.parse Ex.loop1 Faults.cafe_events no_files
     = [Faults.garbled_entry]
  /\ content Faults.garbled_entry = str "caf" ++ Raw.REPLACEMENT ++ Raw.REPLACEMENT
  /\ streq (content Faults.garbled_entry) (content Faults.cafe_entry) = false
  /\ Raw.tail_session Ex.getLoopDir MiniJson.parse Ex.loop1 Faults.cafe_events_whole no_files
     = [Faults.cafe_entry].
Proof. vm_compute. repeat split. Qed.

(* ===================================================================== *)
(** ** The codec [MiniJson] keeps the contract *)
(* ===================================================================== *)

Lemma unquote_esc_char (c : ascii) (s : jsstring) :
  MiniJson.unquote (MiniJson.esc_char c ++ s) =
  match MiniJson.unquote s with
  | Some (t, r) => Some (c :: t, r)
  | None => None
  end.
Proof.
  destruct c as [b0 b1 b2 b3 b4 b5 b6 b7].
  destruct b0, b1, b2, b3, b4, b5, b6, b7; reflexivity.
Qed.

Lemma unquote_esc (s rest : jsstring) :
  MiniJson.unquote (MiniJson.esc s ++ DQUOTE :: rest) = Some (s, rest).
Proof.
  induction s as [|c s IH].
  - reflexivity.
  - unfold MiniJson.esc in *. cbn [map concat]. rewrite <- app_assoc.
    rewrite unquote_esc_char, IH. reflexivity.
Qed.

Lemma member_quote (first : bool) (name : string) (v rest : jsstring) :
  MiniJson.member first name (MiniJson.key first name ++ MiniJson.quote v ++ rest)
  = Some (v, rest).
Proof.
  unfold MiniJson.member, MiniJson.quote.
  assert (Hexp : forall p s, MiniJson.expect p (p ++ s) = Some s).
  { induction p as [|a p IHp]; intros s; simpl; [reflexivity|].
    rewrite Ascii.eqb_refl. apply IHp. }
  replace (MiniJson.key first name ++ (DQUOTE :: MiniJson.esc v ++ [DQUOTE]) ++ rest)
    with ((MiniJson.key first name ++ [DQUOTE]) ++ MiniJson.esc v ++ DQUOTE :: rest).
  - rewrite Hexp. apply unquote_esc.
  - rewrite <- !app_assoc. simpl. rewrite <- !app_assoc. reflexivity.
Qed.

Lemma MiniJson_roundtrip (e : LogEntry) :
  MiniJson.parse (MiniJson.stringify e) = Some e.
Proof.
  destruct e as [ts lid ty c]. unfold MiniJson.parse, MiniJson.stringify. cbn [timestamp loopId type content].
  rewrite member_quote. cbn [mbind option_bind].
  rewrite member_quote. cbn [mbind option_bind].
  rewrite member_quote. cbn [mbind option_bind].
  replace (MiniJson.type_of_name (MiniJson.type_name ty)) with (Some ty)
    by (destruct ty; reflexivity).
  cbn [mbind option_bind].
  rewrite member_quote. reflexivity.
Qed.

Lemma esc_char_no_LF (c : ascii) : LF ∉ MiniJson.esc_char c.
Proof.
  assert (H : forallb (fun x => negb (Ascii.eqb x LF)) (MiniJson.esc_char c) = true).
  { destruct c as [b0 b1 b2 b3 b4 b5 b6 b7].
    destruct b0, b1, b2, b3, b4, b5, b6, b7; reflexivity. }
  intros Hin. rewrite forallb_forall in H.
  apply list_elem_of_In, H in Hin. rewrite Ascii.eqb_refl in Hin. discriminate.
Qed.

Lemma quote_no_LF (s : jsstring) : LF ∉ MiniJson.quote s.
Proof.
  unfold MiniJson.quote, MiniJson.esc. intros Hin.
  apply elem_of_cons in Hin as [Hin|Hin]; [discriminate|].
  apply elem_of_app in Hin as [Hin|Hin].
  - induction s as [|c s IH]; simpl in Hin; [inversion Hin|].
    apply elem_of_app in Hin as [Hin|Hin]; [exact (esc_char_no_LF c Hin) | auto].
  - apply list_elem_of_singleton in Hin. discriminate.
Qed.

Lemma no_LF_decide (s : jsstring) :
  forallb (fun x => negb (Ascii.eqb x LF)) s = true -> LF ∉ s.
Proof.
  intros H Hin. rewrite forallb_forall in H.
  apply list_elem_of_In, H in Hin. rewrite Ascii.eqb_refl in Hin. discriminate.
Qed.

Lemma MiniJson_one_line (e : LogEntry) : LF ∉ MiniJson.stringify e.
Proof.
  unfold MiniJson.stringify.
  repeat (rewrite elem_of_app; intros [Hin|Hin];
          [ revert Hin; first [ apply quote_no_LF | apply no_LF_decide; reflexivity ] | revert Hin]).
  apply no_LF_decide; reflexivity.
Qed.

Lemma MiniJson_codec : JsonCodec MiniJson.stringify MiniJson.parse.
Proof.
  split.
  - apply MiniJson_roundtrip.
  - apply MiniJson_one_line.
  - intros e. eexists _, _. split; [reflexivity | reflexivity].
  - intros e. unfold MiniJson.stringify.
    eexists _, _. split; [rewrite !app_assoc; reflexivity | reflexivity].
Qed.

(* ===================================================================== *)
(** ** C10: starting a tailer writes *)
(* ===================================================================== *)

(** C10.  On a loop whose log file does not exist, [tailLog] makes the
    loop's directory and an empty log file before its first poll: the file
    system it leaves is not the one it found, and the first poll changes
    nothing more. *)
Theorem C10_tailLog_creates_empty_log
    (getLoopDir : jsstring -> jsstring) (parse : jsstring -> option LogEntry)
    (loopId : jsstring) (fs : Logs.filesystem) :
  Logs.files fs !! Logs.getLogPath getLoopDir loopId = None ->
  let fs' := fst (Logs.tailLog_start getLoopDir loopId fs) in
  Logs.files fs' !! Logs.getLogPath getLoopDir loopId = Some []
  /\ getLoopDir loopId ∈ Logs.dirs fs'
  /\ fs' <> fs
  /\ fst (fst (Logs.tailLog getLoopDir parse loopId fs)) = fs'
  /\ Logs.position (snd (Logs.tailLog_start getLoopDir loopId fs)) = 0.
Proof.
  intros Hnone. unfold Logs.tailLog, Logs.tailLog_start. simpl. rewrite Hnone. simpl.
  rewrite lookup_insert_eq. simpl. split_and!.
  - reflexivity.
  - apply elem_of_union. left. apply elem_of_singleton. reflexivity.
  - intros Heq. apply (f_equal (fun f => Logs.files f !! Logs.getLogPath getLoopDir loopId)) in Heq.
    simpl in Heq. rewrite lookup_insert_eq, Hnone in Heq. discriminate.
  - destruct (Logs.poll _ _ _ _ _). reflexivity.
  - reflexivity.
Qed.

(* ===================================================================== *)
(** ** C7: an appended entry is read back *)
(* ===================================================================== *)


Lemma closed_lines_run_op getLoopDir stringify op fs :
  closed_lines fs -> closed_lines (run_op getLoopDir stringify op fs).
Proof.
  intros Hfs path content. destruct op as [now lid entry | lid]; simpl.
  - unfold Logs.appendLog, Logs.appendFileSync. simpl.
    destruct (decide (Logs.getLogPath getLoopDir lid = path)) as [<-|Hne].
    + rewrite lookup_insert_eq. intros [= <-]. right.
      eexists. rewrite app_assoc. reflexivity.
    + rewrite lookup_insert_ne by assumption. apply Hfs.
  - unfold Logs.tailLog_start. simpl.
    destruct (Logs.files fs !! Logs.getLogPath getLoopDir lid) eqn:E; simpl; [apply Hfs|].
    destruct (decide (Logs.getLogPath getLoopDir lid = path)) as [<-|Hne].
    + rewrite lookup_insert_eq. intros [= <-]. left. reflexivity.
    + rewrite lookup_insert_ne by assumption. apply Hfs.
Qed.

Lemma closed_lines_run_ops getLoopDir stringify ops : forall fs,
  closed_lines fs -> closed_lines (run_ops getLoopDir stringify ops fs).
Proof.
  induction ops as [|op ops IH]; intros fs Hfs; simpl; [assumption|].
  apply IH, closed_lines_run_op, Hfs.
Qed.

(** The last line of a text of closed lines, once a line is appended. *)
Lemma line_of_trimmed (old line : jsstring) :
  (old = [] \/ exists c, old = c ++ [LF]) ->
  LF ∉ line ->
  (exists a s, line = a :: s /\ is_ws a = false) ->
  (exists s z, line = s ++ [z] /\ is_ws z = false) ->
  line ∈ split LF (trim (old ++ line ++ [LF])).
Proof.
  intros Hold Hnl (a & s & Hs & Ha) (s' & z & Hs' & Hz).
  assert (Htrim : trim (old ++ line ++ [LF]) = trimStart old ++ line).
  { unfold trim. rewrite Hs.
    change (old ++ (a :: s) ++ [LF]) with (old ++ a :: (s ++ [LF])).
    rewrite trimStart_app_nonws by assumption.
    change (trimStart old ++ a :: s ++ [LF]) with (trimStart old ++ (a :: s) ++ [LF]).
    rewrite <- Hs. rewrite app_assoc, trimEnd_snoc_ws by reflexivity.
    rewrite Hs', app_assoc. apply trimEnd_snoc_nonws, Hz. }
  rewrite Htrim.
  destruct (trimStart_suffix old) as [p Hp].
  destruct (trimStart old) as [|x t] eqn:Et.
  - simpl. rewrite split_no_sep by assumption. apply list_elem_of_singleton. reflexivity.
  - destruct Hold as [->|[c Hc]]; [discriminate|].
    assert (Hlast : exists t', x :: t = t' ++ [LF]).
    { rewrite Hc in Hp.
      destruct (@exists_last _ (x :: t)) as (t' & y & Hy); [discriminate|].
      exists t'. rewrite Hy in Hp |- *. rewrite app_assoc in Hp.
      apply app_inj_tail in Hp as [_ ->]. reflexivity. }
    destruct Hlast as [t' ->]. rewrite <- app_assoc. simpl.
    rewrite split_app_sep, (split_no_sep _ line) by assumption.
    apply elem_of_app. right. apply list_elem_of_singleton. reflexivity.
Qed.

Lemma readLogs_after_append getLoopDir stringify parse now loopId entry fs :
  JsonCodec stringify parse ->
  closed_file fs (Logs.getLogPath getLoopDir loopId) ->
  {| timestamp := now; loopId := loopId;
     type := Logs.in_type entry; content := Logs.in_content entry |}
  ∈ Logs.readLogs getLoopDir parse
      (Logs.appendLog getLoopDir stringify now loopId entry fs) loopId.
Proof.
  intros Hc Hfs. unfold Logs.readLogs, Logs.appendLog, Logs.appendFileSync. simpl.
  rewrite lookup_insert_eq.
  set (e := {| timestamp := now; loopId := loopId;
               type := Logs.in_type entry; content := Logs.in_content entry |}).
  unfold Logs.parse_lines. apply list_elem_of_omap. exists (stringify e). split.
  - apply list_elem_of_In, filter_In. split.
    + apply list_elem_of_In, line_of_trimmed.
      * destruct (Logs.files fs !! Logs.getLogPath getLoopDir loopId) eqn:E; simpl.
        -- eapply Hfs, E.
        -- left. reflexivity.
      * apply (codec_one_line _ _ Hc).
      * apply (codec_first _ _ Hc).
      * apply (codec_last _ _ Hc).
    + destruct (codec_first _ _ Hc e) as (a & s & -> & _). reflexivity.
  - apply (codec_roundtrip _ _ Hc).
Qed.

(** C7.  When the loop's log file is missing, is empty or ends with a
    newline, then after [appendLog(loopId, entry)] returns,
    [readLogs(loopId)] contains the entry, with its time stamp and loop
    id.  Nothing is asked of the other files, nor of the lines before the
    last newline. *)
Theorem C7_append_then_readLogs
    (getLoopDir : jsstring -> jsstring)
    (stringify : LogEntry -> jsstring) (parse : jsstring -> option LogEntry)
    (now loopId : jsstring) (entry : Logs.EntryInput) (fs : Logs.filesystem) :
  JsonCodec stringify parse ->
  (forall content,
     Logs.files fs !! Logs.getLogPath getLoopDir loopId = Some content ->
     content = [] \/ exists c, content = c ++ [LF]) ->
  {| timestamp := now; loopId := loopId;
     type := Logs.in_type entry; content := Logs.in_content entry |}
  ∈ Logs.readLogs getLoopDir parse
      (Logs.appendLog getLoopDir stringify now loopId entry fs) loopId.
Proof. intros Hc Hfs. apply readLogs_after_append; assumption. Qed.

(* ===================================================================== *)
(** ** C5: the recent entries *)
(* ===================================================================== *)


Lemma take_last_snoc {A} (n : nat) (l : list A) (x : A) :
  take_last (S n) (l ++ [x]) = take_last n l ++ [x].
Proof.
  unfold take_last. rewrite length_app. simpl.
  replace (length l + 1 - S n) with (length l - n) by lia.
  rewrite drop_app_le by lia. reflexivity.
Qed.

Lemma take_last_0 {A} (l : list A) : take_last 0 l = [].
Proof. unfold take_last. rewrite Nat.sub_0_r. apply drop_all. Qed.

Lemma take_last_length {A} (n : nat) (l : list A) : length (take_last n l) <= n.
Proof. unfold take_last. rewrite length_drop. lia. Qed.

Lemma take_last_subseteq {A} (n : nat) (l : list A) (x : A) :
  x ∈ take_last n l -> x ∈ l.
Proof.
  unfold take_last. intros H.
  rewrite <- (take_drop (length l - n) l). apply elem_of_app. right. exact H.
Qed.

Lemma recent_loop_spec (parse : jsstring -> option LogEntry) (count : nat)
    (lines_rev : list jsstring) : forall entries,
  length entries <= count ->
  Logs.recent_loop parse count lines_rev entries
  = take_last (count - length entries) (omap parse (rev lines_rev)) ++ entries.
Proof.
  induction lines_rev as [|line rest IH]; intros entries Hlen; simpl.
  - reflexivity.
  - rewrite omap_app. simpl.
    destruct (length entries <? count) eqn:Hlt.
    + apply Nat.ltb_lt in Hlt.
      destruct (parse line) as [entry|] eqn:Hp; simpl.
      * rewrite IH by (simpl; lia). simpl.
        replace (count - length entries) with (S (count - S (length entries))) by lia.
        rewrite take_last_snoc, <- app_assoc. reflexivity.
      * rewrite app_nil_r. apply IH, Hlen.
    + apply Nat.ltb_ge in Hlt.
      replace (count - length entries) with 0 by lia.
      rewrite take_last_0. reflexivity.
Qed.

Lemma recent_chunk_drop (content : jsstring) (count : nat) :
  Logs.recent_chunk content count
  = drop (length content - Nat.min (length content) (count * 500)) content.
Proof.
  unfold Logs.recent_chunk. apply take_ge. rewrite length_drop. lia.
Qed.

Lemma split_tail_no_sep (p chunk : jsstring) :
  LF ∉ p -> tail (split LF (p ++ chunk)) = tail (split LF chunk).
Proof.
  induction p as [|c p IH]; intros Hp; simpl; [reflexivity|].
  apply not_elem_of_cons in Hp as [Hc Hp].
  destruct (Ascii.eqb_spec c LF) as [->|_]; [congruence|].
  rewrite <- (IH Hp).
  pose proof (split_not_nil LF (p ++ chunk)) as Hn.
  destruct (split LF (p ++ chunk)); [congruence | reflexivity].
Qed.

Lemma elem_of_tail {A} (x : A) (l : list A) : x ∈ tail l -> x ∈ l.
Proof. destruct l; simpl; [auto | intros H; apply elem_of_cons; right; exact H]. Qed.

(** The pieces of the chunk after the first are whole lines of the file. *)
Lemma chunk_lines_complete (content : jsstring) (count : nat) (line : jsstring) :
  line ∈ tail (split LF (Logs.recent_chunk content count)) ->
  line ∈ split LF content.
Proof.
  rewrite recent_chunk_drop.
  set (k := length content - Nat.min (length content) (count * 500)).
  intros Hin. rewrite <- (take_drop k content).
  rewrite split_resume. apply elem_of_app. right.
  apply elem_of_tail.
  rewrite split_tail_no_sep by apply partial_line_no_LF. exact Hin.
Qed.

(** C5.  [readRecentLogs] does not discard the leading partial line of the
    chunk: it parses that piece like every other and returns its entry
    when it parses.  The log file of [Ex.torn_journal] has 530 bytes and
    one line, which is the start of a record that was cut short and a whole
    record of 499 bytes behind it.  [readRecentLogs(loopId, 1)] reads the
    last 500 bytes, which start inside that line, and returns the entry of
    the whole record, although no line of the file parses and [readLogs]
    returns nothing. *)
Theorem C5_partial_first_line_is_returned :
  Logs.files Ex.torn_journal !! Logs.getLogPath Ex.getLoopDir Ex.loop1
  = Some (Ex.torn_line ++ [LF])
  /\ length (Ex.torn_line ++ [LF]) = 530
  /\ Raw.recent_buffer (Ex.torn_line ++ [LF]) 1 = drop 30 (Ex.torn_line ++ [LF])
  /\ split LF (Ex.torn_line ++ [LF]) = [Ex.torn ++ MiniJson.stringify Ex.long_entry; []]
  /\ split LF (Raw.toString (Raw.recent_buffer (Ex.torn_line ++ [LF]) 1))
     = [MiniJson.stringify Ex.long_entry; []]
  /\ Raw.readRecentLogs Ex.getLoopDir MiniJson.parse Ex.torn_journal Ex.loop1 1
     = [Ex.long_entry]
  /\ Logs.readLogs Ex.getLoopDir MiniJson.parse Ex.torn_journal Ex.loop1 = [].
Proof. vm_compute. repeat split. Qed.


(* ===================================================================== *)
(** ** The criteria parser, line by line *)
(* ===================================================================== *)







(* ===================================================================== *)
(** ** C3: the operator's toggle *)
(* ===================================================================== *)

Import App.

Lemma find_updateLoop_issue (loopId : jsstring) (patch : Issue) (ls : list Loop) :
  find (fun l => bool_decide (id l = loopId))
       (map (fun l => if bool_decide (id l = loopId) then with_issue l patch else l) ls)
  = option_map (fun l => with_issue l patch)
      (find (fun l => bool_decide (id l = loopId)) ls).
Proof.
  induction ls as [|l ls IH]; simpl; [reflexivity|].
  destruct (bool_decide (id l = loopId)) eqn:E; simpl.
  - rewrite E. reflexivity.
  - rewrite E. exact IH.
Qed.

(** C3.  When the operator toggles a criterion that is not completed, the
    loop afterwards is the loop before with that one criterion completed, by
    the operator, at the time of the toggle: the other criteria and every
    other field of the loop, [status] and [endedAt] among them, are as they
    were (so a running loop stays running also when the toggle completes the
    last criterion), the other loops are as they were, and the loop's log
    has one more entry, of type [system]. *)
Theorem C3_operator_completes_criterion
    (getLoopDir : jsstring -> jsstring) (stringify : LogEntry -> jsstring)
    (now now' loopId : jsstring) (index : Z) (w : World)
    (loop : Loop) (criterion : AcceptanceCriterion) :
  find (fun l => bool_decide (id l = loopId)) (loops (state_json w)) = Some loop ->
  (0 <= index)%Z ->
  acceptanceCriteria (issue loop) !! Z.to_nat index = Some criterion ->
  completed criterion = false ->
  let w' := toggleCriterion getLoopDir stringify now now' loopId index w in
  let i := Z.to_nat index in
  let done :=
    {| text := text criterion; completed := true;
       completedBy := Some Operator; completedAt := Some now |} in
  exists loop',
    find (fun l => bool_decide (id l = loopId)) (loops (state_json w')) = Some loop'
    /\ acceptanceCriteria (issue loop') = <[ i := done ]> (acceptanceCriteria (issue loop))
    /\ acceptanceCriteria (issue loop') !! i = Some done
    /\ (forall j, j <> i ->
          acceptanceCriteria (issue loop') !! j = acceptanceCriteria (issue loop) !! j)
    /\ loop' = with_issue loop (with_criteria (issue loop) (acceptanceCriteria (issue loop')))
    /\ status loop' = status loop
    /\ endedAt loop' = endedAt loop
    /\ (forall l, l ∈ loops (state_json w) -> id l <> loopId -> l ∈ loops (state_json w'))
    /\ disk w' =
       Logs.appendLog getLoopDir stringify now' loopId
         {| Logs.in_type := TSystem;
            Logs.in_content :=
              str "Criterion " ++ num (i + 1) ++ str " marked complete by operator" |}
         (disk w)
    /\ Logs.files (disk w') !! Logs.getLogPath getLoopDir loopId =
       Some (default [] (Logs.files (disk w) !! Logs.getLogPath getLoopDir loopId)
             ++ stringify
                  {| timestamp := now'; loopId := loopId; type := TSystem;
                     content := str "Criterion " ++ num (i + 1)
                                ++ str " marked complete by operator" |}
             ++ [LF]).
Proof.
  intros Hfind Hidx Hlook Hc w' i done.
  assert (Hlt : i < length (acceptanceCriteria (issue loop))).
  { eapply lookup_lt_Some, Hlook. }
  assert (Hw' : w' =
    {| state_json := updateLoop_issue (state_json w) loopId
         (with_criteria (issue loop) (<[ i := done ]> (acceptanceCriteria (issue loop))));
       disk := Logs.appendLog getLoopDir stringify now' loopId
         {| Logs.in_type := TSystem;
            Logs.in_content :=
              str "Criterion " ++ num (i + 1) ++ str " marked complete by operator" |}
         (disk w) |}).
  { subst w'. unfold toggleCriterion. rewrite Hfind.
    replace ((index <? 0)%Z || (Z.of_nat (length (acceptanceCriteria (issue loop))) <=? index)%Z)
      with false by (symmetry; apply orb_false_intro; [apply Z.ltb_ge | apply Z.leb_gt]; lia).
    subst i. rewrite Hlook. unfold toggle. rewrite Hc. simpl.
    replace (Z.to_nat (index + 1)) with (Z.to_nat index + 1) by lia. reflexivity. }
  rewrite Hw'. simpl. rewrite find_updateLoop_issue, Hfind. simpl.
  eexists. split; [reflexivity|]. simpl. split_and!.
  - reflexivity.
  - apply list_lookup_insert_eq, Hlt.
  - intros j Hj. apply list_lookup_insert_ne. auto.
  - reflexivity.
  - reflexivity.
  - reflexivity.
  - intros l Hl Hid. apply list_elem_of_fmap. exists l. split; [|exact Hl].
    rewrite bool_decide_eq_false_2 by assumption. reflexivity.
  - reflexivity.
  - unfold Logs.appendLog, Logs.appendFileSync. simpl. apply lookup_insert_eq.
Qed.

(* ===================================================================== *)
(** ** C1: the numbers of the resume prompt *)
(* ===================================================================== *)

(** The resume prompt numbers the remaining criteria 1, 2, ... in the order
    it is given them. *)
Lemma criteriaList_numbers (remaining : list jsstring) (k : nat) (c : jsstring) :
  remaining !! k = Some c ->
  imap (fun i c => num (i + 1) ++ str ". " ++ c) remaining !! k
  = Some (num (k + 1) ++ str ". " ++ c).
Proof. intros H. rewrite list_lookup_imap, H. reflexivity. Qed.

(** The number the resume prompt gives a criterion that is still open: one
    more than the number of open criteria before it in the loop's list.  It
    is the criterion's position in that list only as long as no criterion
    before it is completed. *)
Lemma resume_number_of_criterion (criteria : list AcceptanceCriterion)
    (j : nat) (c : AcceptanceCriterion) :
  criteria !! j = Some c -> completed c = false ->
  let k := length (List.filter (fun ac => negb (completed ac)) (take j criteria)) in
  imap (fun i c => num (i + 1) ++ str ". " ++ c) (Claude.remainingCriteria criteria) !! k
  = Some (num (k + 1) ++ str ". " ++ text c)
  /\ k <= j.
Proof.
  intros Hj Hc k. split.
  - apply criteriaList_numbers. unfold Claude.remainingCriteria.
    rewrite <- (take_drop_middle criteria j c Hj) at 1.
    rewrite List.filter_app. cbn [List.filter]. rewrite Hc. cbn [negb].
    rewrite map_app. cbn [map].
    rewrite lookup_app_r by (rewrite length_map; subst k; lia).
    rewrite length_map. subst k. rewrite Nat.sub_diag. reflexivity.
  - subst k. etransitivity; [apply List.filter_length_le|].
    rewrite length_take. lia.
Qed.

(* ===================================================================== *)
(** ** C6: the summary's length *)
(* ===================================================================== *)

Lemma truncate_spec (maxChars : Z) (summary : jsstring) :
  (3 <= maxChars)%Z ->
  (Z.of_nat (length (Logs.truncate maxChars summary)) <= maxChars)%Z
  /\ ((Z.of_nat (length summary) <= maxChars)%Z -> Logs.truncate maxChars summary = summary)
  /\ ((maxChars < Z.of_nat (length summary))%Z ->
      Logs.truncate maxChars summary = take (Z.to_nat (maxChars - 3)) summary ++ str "...").
Proof.
  intros H3. unfold Logs.truncate.
  destruct (maxChars <? Z.of_nat (length summary))%Z eqn:E.
  - apply Z.ltb_lt in E.
    assert (Hs : slice 0 (maxChars - 3) summary = take (Z.to_nat (maxChars - 3)) summary).
    { unfold slice, rel_index. simpl.
      replace (maxChars - 3 <? 0)%Z with false by (symmetry; apply Z.ltb_ge; lia).
      rewrite Nat.min_0_r, Nat.sub_0_r. simpl.
      rewrite Nat.min_r by lia. reflexivity. }
    rewrite Hs. split_and!.
    + rewrite length_app, length_take. simpl. lia.
    + lia.
    + reflexivity.
  - apply Z.ltb_ge in E. split_and!; [lia | reflexivity | lia].
Qed.

(** C6, as the code has it.  For a log with at least one entry and a bound
    of at least 3, [generateResumeSummary] returns at most [maxChars]
    characters: its sections joined by blank lines, and, when that is longer
    than [maxChars], the first [maxChars - 3] characters of it and an
    ellipsis. *)
Theorem C6_summary_within_bound
    (getLoopDir : jsstring -> jsstring) (parse : jsstring -> option LogEntry)
    (fs : Logs.filesystem) (loopId : jsstring) (maxChars : Z) :
  (3 <= maxChars)%Z ->
  Logs.readLogs getLoopDir parse fs loopId <> [] ->
  let joined := join [LF; LF] (Logs.summary_parts (Logs.readLogs getLoopDir parse fs loopId)) in
  let result := Logs.generateResumeSummary getLoopDir parse fs loopId maxChars in
  (Z.of_nat (length result) <= maxChars)%Z
  /\ ((Z.of_nat (length joined) <= maxChars)%Z -> result = joined)
  /\ ((maxChars < Z.of_nat (length joined))%Z ->
      result = take (Z.to_nat (maxChars - 3)) joined ++ str "...").
Proof.
  intros H3 Hlogs joined result. subst result. unfold Logs.generateResumeSummary.
  destruct (Logs.readLogs getLoopDir parse fs loopId) as [|e es] eqn:E; [congruence|].
  simpl length. simpl Nat.eqb. cbv iota. apply truncate_spec, H3.
Qed.

(** Without a log, or with an empty one, the summary is one fixed sentence. *)
Lemma summary_of_empty_log
    (getLoopDir : jsstring -> jsstring) (parse : jsstring -> option LogEntry)
    (fs : Logs.filesystem) (loopId : jsstring) (maxChars : Z) :
  Logs.readLogs getLoopDir parse fs loopId = [] ->
  Logs.generateResumeSummary getLoopDir parse fs loopId maxChars
  = str "No previous work logged.".
Proof. intros H. unfold Logs.generateResumeSummary. rewrite H. reflexivity. Qed.

(** With the default bound the summary has at most 2000 characters, with or
    without a log. *)
Lemma summary_default_bound
    (getLoopDir : jsstring -> jsstring) (parse : jsstring -> option LogEntry)
    (fs : Logs.filesystem) (loopId : jsstring) :
  length (Logs.generateResumeSummary getLoopDir parse fs loopId Logs.maxChars_default)
  <= 2000.
Proof.
  unfold Logs.generateResumeSummary.
  destruct (Logs.readLogs getLoopDir parse fs loopId) as [|e es]; simpl length.
  - simpl. lia.
  - simpl Nat.eqb. cbv iota.
    pose proof (truncate_spec Logs.maxChars_default
                  (join [LF; LF] (Logs.summary_parts (e :: es)))) as [H _].
    + unfold Logs.maxChars_default. lia.
    + unfold Logs.maxChars_default in *. lia.
Qed.

(* ===================================================================== *)
(** ** Facts about the matcher *)
(* ===================================================================== *)

Lemma m_cat n0 r1 r2 s c k :
  m n0 (Cat r1 r2) s c k = m n0 r1 s c (fun s' c' => m n0 r2 s' c' k).
Proof. reflexivity. Qed.

Lemma m_bol n0 s c k : length s = n0 -> m n0 Bol s c k = k s c.
Proof. intros H. simpl. rewrite <- H, Nat.eqb_refl. reflexivity. Qed.

Lemma m_cls_ok n0 (p : ascii -> bool) a s c k :
  p a = true -> m n0 (Cls p) (a :: s) c k = k s c.
Proof. intros H. simpl. rewrite H. reflexivity. Qed.

Lemma m_grp n0 i r s c k :
  m n0 (Grp i r) s c k
  = m n0 r s c (fun s' c' => k s' (setcap i (take (length s - length s') s) c')).
Proof. reflexivity. Qed.

Lemma m_rep n0 lo hi r s c k :
  m n0 (Rep lo hi r) s c k = rep_loop (m n0 r) k (S (lo + length s)) lo hi s c.
Proof. reflexivity. Qed.

(** A pattern that starts with [^] matches at the start or nowhere. *)
Lemma match_here_anchored r n0 s :
  length s <> n0 -> match_here (Cat Bol r) n0 s = None.
Proof.
  intros H. unfold match_here. simpl.
  destruct (Nat.eqb_spec (length s) n0); [contradiction | reflexivity].
Qed.

Lemma search_anchored r n0 s :
  length s < n0 -> search (Cat Bol r) n0 s = None.
Proof.
  induction s as [|a s IH]; intros H; simpl search.
  - rewrite match_here_anchored by lia. reflexivity.
  - rewrite match_here_anchored by lia. apply IH. simpl in H. lia.
Qed.

Lemma exec_anchored r s :
  exec (Cat Bol r) s = match_here (Cat Bol r) (length s) s.
Proof.
  unfold exec.
  assert (H : forall n, length s <= n ->
            search (Cat Bol r) n s = match_here (Cat Bol r) n s); [|apply H; lia].
  intros n Hn. destruct s as [|a s]; cbn [search];
    destruct (match_here (Cat Bol r) n _); try reflexivity.
  apply search_anchored. simpl in Hn. lia.
Qed.


(** A greedy run of a class takes every character of the class in front,
    when what follows the quantifier then matches. *)
Lemma rep_loop_cls_greedy n0 (p : ascii -> bool) k (pre : jsstring) :
  forall fuel lo rest c r,
    Forall (fun a => p a = true) pre ->
    stops p rest ->
    lo <= length pre -> length pre < fuel ->
    k rest c = Some r ->
    rep_loop (m n0 (Cls p)) k fuel lo None (pre ++ rest) c = Some r.
Proof.
  induction pre as [|a pre IH]; intros fuel lo rest c r Hpre Hstop Hlo Hfuel Hk.
  - simpl in Hlo. assert (lo = 0) as -> by lia.
    destruct fuel as [|fuel]; [simpl in Hfuel; lia|].
    simpl. destruct rest as [|b rest]; simpl in *.
    + exact Hk.
    + rewrite Hstop. exact Hk.
  - apply Forall_cons in Hpre as [Ha Hpre].
    destruct fuel as [|fuel]; [simpl in Hfuel; lia|].
    assert (Hnext : rep_loop (m n0 (Cls p)) k fuel (pred lo) None (pre ++ rest) c = Some r).
    { apply IH; try assumption; simpl in *; lia. }
    cbn [rep_loop app]. cbn [m]. rewrite Ha.
    replace (length (pre ++ rest) =? length (a :: pre ++ rest)) with false
      by (symmetry; apply Nat.eqb_neq; simpl; lia).
    rewrite andb_false_r. cbn [fmap option_fmap option_map]. cbn [m] in Hnext.
    rewrite Hnext. destruct lo; reflexivity.
Qed.

(** A required round whose first character is not of the class fails. *)
Lemma rep_loop_cls_fails n0 (p : ascii -> bool) k fuel lo hi s c :
  stops p s -> hi <> Some 0 ->
  rep_loop (m n0 (Cls p)) k fuel (S lo) hi s c = None.
Proof.
  intros Hs Hhi. destruct fuel as [|fuel]; [reflexivity|].
  simpl. destruct hi as [[|h]|]; try congruence;
    destruct s as [|a s]; simpl in *; rewrite ?Hs; reflexivity.
Qed.

(* ===================================================================== *)
(** ** The patterns of the criteria parser on a rendered item *)
(* ===================================================================== *)


Lemma clean_text_trim t : clean_text t -> trim t = t.
Proof.
  intros ((a & t1 & -> & Ha) & (t2 & z & Hz & Hzz) & _).
  unfold trim. simpl. rewrite Ha, Hz. apply trimEnd_snoc_nonws, Hzz.
Qed.

Lemma clean_text_no_LF t : clean_text t -> LF ∉ t.
Proof.
  intros (_ & _ & Hl) Hin. rewrite Forall_forall in Hl.
  specialize (Hl _ Hin). discriminate.
Qed.

(** The line of an item, character by character. *)
Lemma render_item_chars (c : AcceptanceCriterion) :
  render_item c
  = "-"%char :: " "%char :: "["%char :: (if completed c then "x"%char else " "%char)
      :: "]"%char :: " "%char :: text c.
Proof. unfold render_item. destruct (completed c); reflexivity. Qed.


(* ===================================================================== *)
(** ** Lines of a body *)
(* ===================================================================== *)

Lemma join_split (s : jsstring) : join [LF] (split LF s) = s.
Proof.
  induction s as [|c s IH]; simpl; [reflexivity|].
  pose proof (split_not_nil LF s) as Hn.
  destruct (Ascii.eqb_spec c LF) as [->|_].
  - destruct (split LF s) as [|h t] eqn:E; [congruence|].
    change (join [LF] ([] :: h :: t)) with ([] ++ [LF] ++ join [LF] (h :: t)).
    rewrite IH. reflexivity.
  - destruct (split LF s) as [|h t] eqn:E; [congruence|].
    destruct t as [|h' t']; simpl in *; rewrite <- IH; reflexivity.
Qed.

Lemma split_join (ls : list jsstring) :
  ls <> [] -> Forall (fun l => LF ∉ l) ls -> split LF (join [LF] ls) = ls.
Proof.
  intros Hn Hl. induction Hl as [|l ls Hl Hls IH]; [congruence|].
  destruct ls as [|l' ls'].
  - simpl. apply split_no_sep, Hl.
  - change (join [LF] (l :: l' :: ls')) with (l ++ LF :: join [LF] (l' :: ls')).
    rewrite split_app_sep, IH by discriminate.
    rewrite split_no_sep by assumption. reflexivity.
Qed.




Lemma render_item_canonical (c : AcceptanceCriterion) :
  render_item (canonical c) = render_item c.
Proof. reflexivity. Qed.

Lemma render_item_no_LF (c : AcceptanceCriterion) :
  clean_text (text c) -> LF ∉ render_item c.
Proof.
  intros Hc. rewrite render_item_chars. intros Hin.
  repeat (apply elem_of_cons in Hin as [Hin|Hin];
          [destruct (completed c); discriminate|]).
  exact (clean_text_no_LF _ Hc Hin).
Qed.


(* ===================================================================== *)
(** ** The patterns on blank lines and on items with white space around *)
(* ===================================================================== *)

Lemma all_ws_app (a b : jsstring) : all_ws (a ++ b) <-> all_ws a /\ all_ws b.
Proof. apply Forall_app. Qed.

Lemma not_ws_hash (a : ascii) : is_ws a = true -> Ascii.eqb "#" a = false.
Proof. destruct (Ascii.eqb_spec "#"%char a) as [<-|]; [discriminate | reflexivity]. Qed.

Lemma not_ws_dash (a : ascii) :
  is_ws a = true -> (Ascii.eqb a "-" || Ascii.eqb a "*") = false.
Proof.
  intros H. destruct (Ascii.eqb_spec a "-"%char) as [->|]; [discriminate|].
  destruct (Ascii.eqb_spec a "*"%char) as [->|]; [discriminate | reflexivity].
Qed.

(** A run of a class, however long, fails when what follows the quantifier
    fails behind every prefix of the class. *)
Lemma rep_loop_cls_none n0 (p : ascii -> bool) k (good : jsstring -> Prop) :
  (forall a s, good (a :: s) -> good s) ->
  (forall s c, good s -> k s c = None) ->
  forall fuel lo hi s c,
    good s -> rep_loop (m n0 (Cls p)) k fuel lo hi s c = None.
Proof.
  intros Htl Hk. induction fuel as [|fuel IH]; intros lo hi s c Hs; [reflexivity|].
  cbn [rep_loop].
  assert (Hround :
    m n0 (Cls p) s c
      (fun s' c' =>
         if (lo =? 0) && (length s' =? length s) then None
         else rep_loop (m n0 (Cls p)) k fuel (pred lo) (pred <$> hi) s' c') = None).
  { destruct s as [|a s]; cbn [m]; [reflexivity|].
    destruct (p a); [|reflexivity].
    destruct ((lo =? 0) && (length s =? length (a :: s))); [reflexivity|].
    apply IH. eapply Htl, Hs. }
  rewrite Hround.
  destruct hi as [[|h]|]; destruct lo; auto.
Qed.

Lemma all_ws_tail a s : all_ws (a :: s) -> all_ws s.
Proof. intros H. apply Forall_cons in H as [_ H]. exact H. Qed.

(** The line starts with white space or is empty: no heading. *)
Lemma heading_needs_hash (line : jsstring) :
  stops (Ascii.eqb "#") line -> test re_heading line = false.
Proof.
  intros Hs. unfold test, re_heading. cbn [cat].
  rewrite exec_anchored. unfold match_here.
  rewrite m_cat, m_bol by reflexivity. rewrite m_cat. unfold rep, chr. rewrite m_rep.
  rewrite rep_loop_cls_fails; [reflexivity | exact Hs | discriminate].
Qed.

Lemma ends_section_blank (line : jsstring) : all_ws line -> ends_section line = false.
Proof.
  intros Hw. unfold ends_section. rewrite heading_needs_hash; [reflexivity|].
  destruct line as [|a line]; [exact I|].
  apply Forall_cons in Hw as [Ha _]. apply not_ws_hash, Ha.
Qed.

Lemma checkbox_blank (line : jsstring) : all_ws line -> exec re_checkbox line = None.
Proof.
  intros Hw. unfold re_checkbox. cbn [cat].
  rewrite exec_anchored. unfold match_here.
  rewrite m_cat, m_bol by reflexivity. rewrite m_cat. unfold star at 1, ws at 1. rewrite m_rep.
  rewrite (rep_loop_cls_none _ _ _ all_ws); [reflexivity | apply all_ws_tail | | exact Hw].
  intros s c Hs. rewrite m_cat. destruct s as [|a s]; [reflexivity|].
  cbn [m]. apply Forall_cons in Hs as [Ha _]. rewrite (not_ws_dash _ Ha). reflexivity.
Qed.

Lemma bullet_blank (line : jsstring) : all_ws line -> exec re_bullet line = None.
Proof.
  intros Hw. unfold re_bullet. cbn [cat].
  rewrite exec_anchored. unfold match_here.
  rewrite m_cat, m_bol by reflexivity. rewrite m_cat. unfold star at 1, ws at 1. rewrite m_rep.
  rewrite (rep_loop_cls_none _ _ _ all_ws); [reflexivity | apply all_ws_tail | | exact Hw].
  intros s c Hs. rewrite m_cat. destruct s as [|a s]; [reflexivity|].
  cbn [m]. apply Forall_cons in Hs as [Ha _]. rewrite (not_ws_dash _ Ha). reflexivity.
Qed.

(** The part of a text before its first line terminator. *)
Lemma span_line (s : jsstring) :
  exists s1 s2, s = s1 ++ s2
    /\ Forall (fun c => is_line_terminator c = false) s1
    /\ stops (fun c => negb (is_line_terminator c)) s2.
Proof.
  induction s as [|a s (s1 & s2 & -> & H1 & H2)].
  - exists [], []. repeat split. constructor.
  - destruct (is_line_terminator a) eqn:Ea.
    + exists [], (a :: s1 ++ s2). repeat split; [constructor|]. simpl. rewrite Ea. reflexivity.
    + exists (a :: s1), s2. repeat split; [constructor; assumption | exact H2].
Qed.

Lemma trimEnd_app_ws (s w : jsstring) : all_ws w -> trimEnd (s ++ w) = trimEnd s.
Proof.
  intros Hw. induction w as [|a w IH] using rev_ind; [rewrite app_nil_r; reflexivity|].
  apply Forall_app in Hw as [Hw Ha]. apply Forall_cons in Ha as [Ha _].
  rewrite app_assoc, trimEnd_snoc_ws by exact Ha. apply IH, Hw.
Qed.

Lemma heading_not_indented_item (lead trail : jsstring) (c : AcceptanceCriterion) :
  all_ws lead -> ends_section (lead ++ render_item c ++ trail) = false.
Proof.
  intros Hw. unfold ends_section. rewrite heading_needs_hash; [reflexivity|].
  destruct lead as [|a lead].
  - rewrite render_item_chars. reflexivity.
  - apply Forall_cons in Hw as [Ha _]. apply not_ws_hash, Ha.
Qed.

Lemma checkbox_indented_item (lead trail : jsstring) (c : AcceptanceCriterion) :
  all_ws lead -> all_ws trail -> clean_text (text c) ->
  exists x, exec re_checkbox (lead ++ render_item c ++ trail) = Some x
    /\ criterion_of_checkbox x = canonical c.
Proof.
  intros Hlead Htrail Hclean.
  pose proof Hclean as ((a & t1 & Ht & Ha) & _ & Hl).
  destruct (span_line trail) as (w1 & w2 & -> & Hw1 & Hw2).
  apply all_ws_app in Htrail as [Hws1 Hws2].
  rewrite render_item_chars. unfold re_checkbox. cbn [cat].
  rewrite exec_anchored. unfold match_here.
  set (b := if completed c then "x"%char else " "%char).
  assert (Hb : (Ascii.eqb b " " || Ascii.eqb b "x" || Ascii.eqb b "X") = true).
  { subst b. destruct (completed c); reflexivity. }
  set (line := lead ++ _).
  set (n0 := length line).
  assert (Hm : exists c',
    m n0 (Cat Bol (Cat (star ws) (Cat (Cls (fun c => Ascii.eqb c "-" || Ascii.eqb c "*"))
       (Cat (star ws) (Cat (chr "[") (Cat (Grp 1 (Cls (fun c => Ascii.eqb c " " || Ascii.eqb c "x" || Ascii.eqb c "X")))
          (Cat (chr "]") (Cat (star ws) (Grp 2 (plus dot))))))))))
      line nocaps (fun s' c' => Some (s', c')) = Some (w2, c')
    /\ c' 1 = Some [b] /\ c' 2 = Some (text c ++ w1)).
  { rewrite m_cat, m_bol by reflexivity.
    rewrite m_cat. unfold star at 1. rewrite m_rep.
    eexists. split.
    - subst line.
      eapply (rep_loop_cls_greedy n0 is_ws _ lead);
        [exact Hlead | reflexivity | simpl; lia | rewrite length_app; simpl; lia |].
      cbn [app]. rewrite m_cat, m_cls_ok by reflexivity.
      rewrite m_cat. unfold star at 1. rewrite m_rep.
      eapply (rep_loop_cls_greedy n0 is_ws _ [" "%char]);
        [repeat constructor | reflexivity | simpl; lia | simpl; lia |].
      rewrite m_cat. unfold chr at 1. rewrite m_cls_ok by reflexivity.
      rewrite m_cat, m_grp, m_cls_ok by exact Hb.
      rewrite m_cat. unfold chr at 1. rewrite m_cls_ok by reflexivity.
      rewrite m_cat. unfold star at 1. rewrite m_rep.
      eapply (rep_loop_cls_greedy n0 is_ws _ [" "%char]);
        [repeat constructor | rewrite Ht; exact Ha | simpl; lia | simpl; lia |].
      rewrite m_grp. unfold plus. rewrite m_rep.
      rewrite (app_assoc (text c) w1 w2).
      eapply (rep_loop_cls_greedy n0 _ _ (text c ++ w1) _ _ w2).
      + unfold dot. apply Forall_app. split.
        * eapply Forall_impl; [exact Hl|]. simpl. intros x ->. reflexivity.
        * eapply Forall_impl; [exact Hw1|]. simpl. intros x ->. reflexivity.
      + exact Hw2.
      + rewrite Ht. simpl. lia.
      + rewrite !length_app. lia.
      + reflexivity.
    - unfold setcap. cbn [Nat.eqb]. split.
      + match goal with |- context [take ?n _] =>
          replace n with 1 by (simpl; lia) end.
        reflexivity.
      + rewrite length_app.
        replace (length (text c ++ w1) + length w2 - length w2)
          with (length (text c ++ w1)) by lia.
        rewrite take_app_length. reflexivity. }
  destruct Hm as (c' & -> & H1 & H2).
  eexists. split; [reflexivity|].
  unfold criterion_of_checkbox, canonical, group. cbn [m_group]. rewrite H1, H2. simpl.
  assert (Htrim : trim (text c ++ w1) = text c).
  { unfold trim. rewrite Ht. simpl. rewrite Ha.
    change (a :: t1 ++ w1) with ((a :: t1) ++ w1). rewrite <- Ht.
    rewrite trimEnd_app_ws by exact Hws1.
    rewrite <- (clean_text_trim _ Hclean) at 2. unfold trim. rewrite Ht. simpl.
    rewrite Ha. reflexivity. }
  rewrite Htrim. subst b. destruct (completed c); reflexivity.
Qed.

(* ===================================================================== *)
(** ** What the newline normalisation and white space do not change *)
(* ===================================================================== *)

(** A successful run of a class has consumed characters of the class. *)
Lemma rep_loop_cls_inv n0 (p : ascii -> bool) k :
  forall fuel lo hi s c r,
    rep_loop (m n0 (Cls p)) k fuel lo hi s c = Some r ->
    exists pre s', s = pre ++ s' /\ Forall (fun a => p a = true) pre /\ k s' c = Some r.
Proof.
  induction fuel as [|fuel IH]; intros lo hi s c r H; [discriminate|].
  cbn [rep_loop] in H.
  assert (Hround : forall r',
    m n0 (Cls p) s c
      (fun s' c' =>
         if (lo =? 0) && (length s' =? length s) then None
         else rep_loop (m n0 (Cls p)) k fuel (pred lo) (pred <$> hi) s' c') = Some r' ->
    exists pre s', s = pre ++ s' /\ Forall (fun a => p a = true) pre /\ k s' c = Some r').
  { intros r' Hr. destruct s as [|a s]; cbn [m] in Hr; [discriminate|].
    destruct (p a) eqn:Ea; [|discriminate].
    destruct ((lo =? 0) && (length s =? length (a :: s))); [discriminate|].
    apply IH in Hr as (pre & s' & -> & Hpre & Hk).
    exists (a :: pre), s'. split; [reflexivity|]. split; [constructor; assumption | exact Hk]. }
  assert (Hstay : k s c = Some r ->
    exists pre s', s = pre ++ s' /\ Forall (fun a => p a = true) pre /\ k s' c = Some r).
  { intros Hk. exists [], s. split; [reflexivity|]. split; [constructor | exact Hk]. }
  destruct hi as [[|h]|]; [auto | |];
    (destruct lo; [|auto];
     match type of H with
     | match ?round with _ => _ end = _ => destruct round eqn:E; [injection H as ->; eauto | auto]
     end).
Qed.

Lemma strip_ws_app (a b : jsstring) : strip_ws (a ++ b) = strip_ws a ++ strip_ws b.
Proof. apply List.filter_app. Qed.

Lemma strip_ws_all_ws (w : jsstring) : all_ws w -> strip_ws w = [].
Proof.
  intros Hw. induction Hw as [|a w Ha _ IH]; [reflexivity|].
  unfold strip_ws in *. simpl. rewrite Ha. exact IH.
Qed.

Lemma strip_ws_join (ls : list jsstring) :
  strip_ws (join [LF] ls) = concat (map strip_ws ls).
Proof.
  induction ls as [|l ls IH]; [reflexivity|].
  destruct ls as [|l' ls'].
  - simpl. rewrite app_nil_r. reflexivity.
  - change (join [LF] (l :: l' :: ls')) with (l ++ [LF] ++ join [LF] (l' :: ls')).
    rewrite !strip_ws_app, IH. reflexivity.
Qed.

Lemma trimStart_split (s : jsstring) : exists w, s = w ++ trimStart s /\ all_ws w.
Proof.
  induction s as [|c s (w & Hs & Hw)]; simpl.
  - exists []. split; [reflexivity | constructor].
  - destruct (is_ws c) eqn:Ec.
    + exists (c :: w). split; [simpl; rewrite <- Hs; reflexivity | constructor; assumption].
    + exists []. split; [reflexivity | constructor].
Qed.

Lemma strip_ws_trimEnd (t : jsstring) : strip_ws (trimEnd t) = strip_ws t.
Proof.
  unfold trimEnd.
  destruct (trimStart_split (rev t)) as (w & Ht & Hw).
  apply (f_equal (@rev ascii)) in Ht. rewrite rev_involutive, rev_app_distr in Ht.
  remember (rev (trimStart (rev t))) as u eqn:Hu. clear Hu.
  rewrite Ht, strip_ws_app, (strip_ws_all_ws (rev w)), app_nil_r; [reflexivity|].
  apply Forall_rev, Hw.
Qed.

Lemma strip_ws_trim (s : jsstring) : strip_ws (trim s) = strip_ws s.
Proof.
  unfold trim. rewrite strip_ws_trimEnd.
  destruct (trimStart_split s) as (w & Hs & Hw).
  remember (trimStart s) as u eqn:Hu. clear Hu.
  rewrite Hs, strip_ws_app, (strip_ws_all_ws w) by assumption. reflexivity.
Qed.

Lemma match_blank_run (n0 : nat) (s : jsstring) (x : rmatch) :
  match_here re_blank_run n0 s = Some x ->
  exists pre, s = pre ++ m_rest x /\ all_ws pre.
Proof.
  unfold match_here, re_blank_run, chr. rewrite m_rep. intros H.
  destruct (rep_loop _ _ _ _ _ _ _) as [[s' c']|] eqn:E; [|discriminate].
  injection H as <-. simpl.
  apply rep_loop_cls_inv in E as (pre & s'' & -> & Hpre & Hk).
  injection Hk as -> _. exists pre. split; [reflexivity|].
  eapply Forall_impl; [exact Hpre|]. intros a Ha. cbv beta in Ha.
  apply Ascii.eqb_eq in Ha. subst a. reflexivity.
Qed.

(** Collapsing runs of newlines changes white space only. *)
Lemma strip_ws_collapse (s : jsstring) :
  strip_ws (replace_all re_blank_run [LF; LF] s) = strip_ws s.
Proof.
  unfold replace_all. generalize (S (length s)) as fuel. generalize (length s) as n0.
  intros n0 fuel. revert s.
  induction fuel as [|fuel IH]; intros s; [reflexivity|].
  cbn [replace_all_from].
  destruct (match_here re_blank_run n0 s) as [x|] eqn:E.
  - destruct (length (m_rest x) <? length s); [|reflexivity].
    apply match_blank_run in E as (pre & Hs & Hpre).
    rewrite strip_ws_app, IH. rewrite Hs at 1.
    rewrite strip_ws_app, (strip_ws_all_ws pre) by assumption. reflexivity.
  - destruct s as [|a s]; [reflexivity|].
    unfold strip_ws in *. simpl. rewrite IH. reflexivity.
Qed.

(* ===================================================================== *)
(** ** C2: rendering what was parsed *)
(* ===================================================================== *)

Lemma section_lines_clean (lines : list jsstring) (cs : list AcceptanceCriterion) :
  section_lines lines cs -> Forall (fun c => clean_text (text c)) cs.
Proof. induction 1; [constructor | assumption | constructor; assumption]. Qed.

Lemma strip_ws_section (lines : list jsstring) (cs : list AcceptanceCriterion) :
  section_lines lines cs ->
  concat (map strip_ws lines) = concat (map strip_ws (map render_item cs)).
Proof.
  induction 1 as [|line lines cs Hw _ IH | lead trail c lines cs Hl Ht _ _ IH]; cbn [map concat].
  - reflexivity.
  - rewrite (strip_ws_all_ws line) by assumption. exact IH.
  - rewrite !strip_ws_app, (strip_ws_all_ws lead), (strip_ws_all_ws trail) by assumption.
    rewrite app_nil_r, IH. reflexivity.
Qed.

Lemma parse_section_lines (lines : list jsstring) (cs : list AcceptanceCriterion)
    (after : list jsstring) :
  section_lines lines cs -> closes_section after ->
  forall criteria,
    parse_section true (lines ++ after) criteria = criteria ++ map canonical cs.
Proof.
  intros Hs Hafter.
  induction Hs as [|line lines cs Hw _ IH | lead trail c lines cs Hl Ht Hc _ IH];
    intros criteria.
  - simpl. rewrite app_nil_r. destruct after as [|l after]; simpl in *; [reflexivity|].
    rewrite Hafter. reflexivity.
  - cbn [app parse_section negb].
    rewrite ends_section_blank, checkbox_blank, bullet_blank by assumption. apply IH.
  - cbn [app parse_section negb map].
    rewrite heading_not_indented_item by assumption.
    destruct (checkbox_indented_item lead trail c Hl Ht Hc) as (x & -> & ->).
    rewrite IH, <- app_assoc. reflexivity.
Qed.

Lemma find_end_section (lines : list jsstring) (cs : list AcceptanceCriterion)
    (after : list jsstring) :
  section_lines lines cs -> closes_section after ->
  forall i, find_end i (lines ++ after) = i + length lines.
Proof.
  intros Hs Hafter.
  induction Hs as [|line lines cs Hw _ IH | lead trail c lines cs Hl Ht Hc _ IH]; intros i.
  - simpl. rewrite Nat.add_0_r. destruct after as [|l after]; simpl in *; [reflexivity|].
    rewrite Hafter. reflexivity.
  - cbn [app find_end]. rewrite ends_section_blank, IH by assumption. simpl. lia.
  - cbn [app find_end]. rewrite heading_not_indented_item, IH by assumption. simpl. lia.
Qed.

Lemma is_section_header_trimmed (h : jsstring) :
  trim h = header_line -> is_section_header h = true.
Proof. intros H. unfold is_section_header. rewrite H. vm_compute. reflexivity. Qed.

Lemma parse_section_to_header (before rest : list jsstring) (h : jsstring) :
  Forall (fun l => is_section_header l = false) before ->
  trim h = header_line ->
  forall criteria,
    parse_section false (before ++ h :: rest) criteria = parse_section true rest criteria.
Proof.
  intros Hb Hh. induction Hb as [|l before Hl _ IH]; intros criteria.
  - cbn [app parse_section negb]. rewrite is_section_header_trimmed by assumption. reflexivity.
  - cbn [app parse_section negb]. rewrite Hl. apply IH.
Qed.

Lemma find_start_to_header (before rest : list jsstring) (h : jsstring) :
  Forall (fun l => is_section_header l = false) before ->
  trim h = header_line ->
  forall i, find_start i (before ++ h :: rest) = Some (i + length before).
Proof.
  intros Hb Hh. induction Hb as [|l before Hl _ IH]; intros i.
  - cbn [app find_start]. rewrite is_section_header_trimmed, Nat.add_0_r by assumption.
    reflexivity.
  - cbn [app find_start]. rewrite Hl, IH. simpl. f_equal. lia.
Qed.

(** The body [applyAcceptanceCriteriaToIssueBody] makes of a body with such
    a section and the criteria parsed from it. *)
Lemma apply_parsed (body h : jsstring) (before section after : list jsstring)
    (cs : list AcceptanceCriterion) :
  split LF body = before ++ h :: section ++ after ->
  trim h = header_line ->
  section_lines section cs ->
  cs <> [] ->
  Forall (fun l => is_section_header l = false) before ->
  closes_section after ->
  parseAcceptanceCriteria body = map canonical cs
  /\ applyAcceptanceCriteriaToIssueBody body (map canonical cs)
     = replace_all re_blank_run [LF; LF]
         (join [LF] (before ++ header_line :: map render_item cs ++ after)).
Proof.
  intros Hsplit Hh Hsec Hne Hbefore Hafter.
  pose proof (section_lines_clean _ _ Hsec) as Hcs.
  split.
  { unfold parseAcceptanceCriteria. rewrite Hsplit.
    rewrite parse_section_to_header by assumption.
    rewrite (parse_section_lines _ _ _ Hsec Hafter).
    destruct cs; [congruence | reflexivity]. }
  unfold applyAcceptanceCriteriaToIssueBody. rewrite Hsplit.
  rewrite find_start_to_header by assumption. cbn [Nat.add].
  assert (Hdrop : drop (S (length before)) (before ++ h :: section ++ after)
                  = section ++ after).
  { change (h :: section ++ after) with ([h] ++ (section ++ after)).
    rewrite app_assoc. apply drop_app_length'. rewrite length_app. simpl. lia. }
  rewrite Hdrop, (find_end_section _ _ _ Hsec Hafter).
  assert (Hsection : split LF (renderAcceptanceCriteriaSection (map canonical cs))
                     = header_line :: map render_item cs).
  { unfold renderAcceptanceCriteriaSection. rewrite map_map.
    rewrite (map_ext _ render_item) by apply render_item_canonical.
    apply split_join; [discriminate|].
    constructor; [apply no_LF_decide; reflexivity|].
    apply Forall_forall. intros l Hl. apply list_elem_of_fmap in Hl as (c & -> & Hc).
    rewrite Forall_forall in Hcs. apply render_item_no_LF, Hcs, Hc. }
  rewrite Hsection, take_app_length.
  assert (Hafter' : drop (S (length before) + length section)
                      (before ++ h :: section ++ after) = after).
  { change (h :: section ++ after) with ((h :: section) ++ after).
    rewrite app_assoc. apply drop_app_length'.
    rewrite length_app. simpl. lia. }
  rewrite Hafter'. reflexivity.
Qed.

(** C2, as the code has it.  Take a body whose first criteria header is the
    line [## Acceptance Criteria] (white space around it aside), whose
    section has only blank lines and one or more items [- [ ] text] or
    [- [x] text] with a clean text (possibly indented, possibly followed by
    white space), and ends with the body or at the heading of another
    section.  Parsing it gives the criteria of the items, and rendering
    these back into the body gives the body again up to white space; when
    the header and the items stand exactly as the renderer writes them, it
    gives the body with every run of three or more newlines collapsed to
    two, the normalisation [applyAcceptanceCriteriaToIssueBody] applies. *)
Theorem C2_roundtrip_up_to_white_space
    (body h : jsstring) (before section after : list jsstring)
    (cs : list AcceptanceCriterion) :
  split LF body = before ++ h :: section ++ after ->
  trim h = header_line ->
  section_lines section cs ->
  cs <> [] ->
  Forall (fun l => is_section_header l = false) before ->
  closes_section after ->
  parseAcceptanceCriteria body = map canonical cs
  /\ strip_ws (applyAcceptanceCriteriaToIssueBody body (parseAcceptanceCriteria body))
     = strip_ws body
  /\ (h = header_line -> section = map render_item cs ->
      applyAcceptanceCriteriaToIssueBody body (parseAcceptanceCriteria body)
      = replace_all re_blank_run [LF; LF] body).
Proof.
  intros Hsplit Hh Hsec Hne Hbefore Hafter.
  destruct (apply_parsed _ _ _ _ _ _ Hsplit Hh Hsec Hne Hbefore Hafter) as [Hparse Happly].
  rewrite Hparse, Happly. split_and!.
  - reflexivity.
  - rewrite strip_ws_collapse, strip_ws_join.
    rewrite <- (join_split body) at 1. rewrite Hsplit, strip_ws_join.
    rewrite !map_app, !concat_app. cbn [map concat].
    rewrite !map_app, !concat_app.
    rewrite (strip_ws_section _ _ Hsec).
    rewrite <- (strip_ws_trim h), Hh. reflexivity.
  - intros -> ->. rewrite <- Hsplit, join_split. reflexivity.
Qed.

(* ===================================================================== *)
(** ** The theorems at concrete inputs *)
(* ===================================================================== *)

(** C1.  With criteria A (completed), B and C, the resume prompt lists B
    and C as "1." and "2.", while they are the criteria 2 and 3 of the
    loop's list, the numbers [<criterion-complete>N</criterion-complete>]
    refers to. *)
Theorem C1_resume_prompt_renumbers :
  Claude.remainingCriteria Ex.criteria = [str "B"; str "C"]
  /\ Claude.criteriaList (Claude.remainingCriteria Ex.criteria)
     = str "1. B" ++ [LF] ++ str "2. C"
  /\ map text Ex.criteria = [str "A"; str "B"; str "C"]
  /\ Claude.buildResumePrompt (str "Iterations completed: 3")
       (Claude.remainingCriteria Ex.criteria)
     = str "RESUMING FROM PAUSE (previous session)" ++ [LF; LF] ++
       str "## Summary of work done so far:" ++ [LF] ++
       str "Iterations completed: 3" ++ [LF; LF] ++
       str "## Remaining acceptance criteria:" ++ [LF] ++
       str "1. B" ++ [LF] ++ str "2. C" ++ [LF; LF] ++
       str "Please continue working on this task. Review the summary above and pick up where you left off. When each criterion is complete, emit <criterion-complete>N</criterion-complete>. When all criteria are done, emit <promise>TASK COMPLETE</promise>.".
Proof. vm_compute. repeat split. Qed.

(** The initial prompt lists every criterion, completed or not, in the
    stored order, so that position and number agree there. *)
Example initial_prompt_lists_all :
  includes (str "- [x] A" ++ [LF] ++ str "- [ ] B" ++ [LF] ++ str "- [ ] C" ++ [LF])
    (buildPromptFromIssue Ex.the_issue) = true.
Proof. vm_compute. reflexivity. Qed.

(** C2 fails on a section under another header: the header is rewritten,
    the prose line is dropped and the items are normalised, so the two
    texts differ in more than white space. *)
Lemma C2_counterexample_done_when :
  applyAcceptanceCriteriaToIssueBody Ex.body_done_when
    (parseAcceptanceCriteria Ex.body_done_when)
  = join [LF] [str "## Acceptance Criteria"; str "- [x] ship it"; str "- [ ] plain bullet"]
  /\ streq (strip_ws (applyAcceptanceCriteriaToIssueBody Ex.body_done_when
                        (parseAcceptanceCriteria Ex.body_done_when)))
           (strip_ws Ex.body_done_when) = false.
Proof. vm_compute. split; reflexivity. Qed.

Lemma C2_witness :
  parseAcceptanceCriteria Ex.body_crlf = [canonical Ex.item_a; canonical Ex.item_bee]
  /\ strip_ws (applyAcceptanceCriteriaToIssueBody Ex.body_crlf
                 (parseAcceptanceCriteria Ex.body_crlf))
     = strip_ws Ex.body_crlf.
Proof.
  destruct (C2_roundtrip_up_to_white_space Ex.body_crlf
              (str "## Acceptance Criteria" ++ [CR])
              [str "Intro" ++ [CR]]
              [[CR]; [] ++ render_item Ex.item_a ++ [CR];
               str "  " ++ render_item Ex.item_bee ++ [CR]]
              [str "## Next" ++ [CR]; str "text"]
              [Ex.item_a; Ex.item_bee]) as (Hparse & Hstrip & _).
  - vm_compute. reflexivity.
  - vm_compute. reflexivity.
  - apply section_blank; [repeat constructor|].
    apply section_item; [constructor | repeat constructor | |].
    { split_and!; [exists "a"%char, []; split; reflexivity
                  | exists [], "a"%char; split; reflexivity
                  | repeat constructor]. }
    apply section_item; [repeat constructor | repeat constructor | |].
    { split_and!; [exists "b"%char, (str "ee"); split; reflexivity
                  | exists (str "be"), "e"%char; split; reflexivity
                  | repeat constructor]. }
    constructor.
  - discriminate.
  - repeat constructor.
  - vm_compute. reflexivity.
  - split; [exact Hparse | exact Hstrip].
Defined.

(** The body of a section as the renderer writes it comes back as it is. *)
Example roundtrip_rendered_body :
  applyAcceptanceCriteriaToIssueBody Ex.body_rendered
    (parseAcceptanceCriteria Ex.body_rendered) = Ex.body_rendered.
Proof. vm_compute. reflexivity. Qed.

Lemma C3_witness :
  exists loop',
    find (fun l => bool_decide (App.id l = Ex.loop1))
      (App.loops (App.state_json
         (App.toggleCriterion Ex.getLoopDir MiniJson.stringify
            (str "2026-01-05T11:00:00.000Z") (str "2026-01-05T11:00:00.001Z")
            Ex.loop1 1 Ex.world))) = Some loop'
    /\ map completed (acceptanceCriteria (App.issue loop')) = [true; true; false]
    /\ map completedBy (acceptanceCriteria (App.issue loop'))
       = [Some Agent; Some Operator; None]
    /\ App.status loop' = LoopStatus.running
    /\ App.endedAt loop' = None.
Proof.
  destruct (C3_operator_completes_criterion Ex.getLoopDir MiniJson.stringify
              (str "2026-01-05T11:00:00.000Z") (str "2026-01-05T11:00:00.001Z")
              Ex.loop1 1 Ex.world Ex.the_loop Ex.B)
    as (loop' & Hfind & Hcs & _ & _ & _ & Hst & Hend & _).
  - reflexivity.
  - lia.
  - reflexivity.
  - reflexivity.
  - exists loop'. rewrite Hcs, Hst, Hend. split; [exact Hfind|]. repeat split.
Defined.

(** Without a header the parser falls back to the checkboxes of the whole
    body; it does so too when there is a header with nothing under it. *)
Example fallback_collects_checkboxes :
  parseAcceptanceCriteria
    (join [LF] [str "Steps"; str "- [x] one"; str "text"; str "* [ ] two"])
  = [ {| text := str "one"; completed := true;
         completedBy := Some Operator; completedAt := None |};
      {| text := str "two"; completed := false;
         completedBy := None; completedAt := None |} ].
Proof. vm_compute. reflexivity. Qed.

Example fallback_on_empty_section :
  map text (parseAcceptanceCriteria
              (join [LF] [str "- [ ] stray"; str "## Requirements"; str "## Notes"]))
  = [str "stray"].
Proof. vm_compute. reflexivity. Qed.

(** [\s*] gives back the one blank a checkbox line ends with, so that
    [(.+)] has a character: the criterion's text is empty. *)
Example checkbox_with_blank_text :
  map text (parseAcceptanceCriteria (join [LF] [str "## Done when"; str "- [x] "]))
  = [[]].
Proof. vm_compute. reflexivity. Qed.

(** C6 fails without a log (the fixed sentence has 24 characters, whatever
    the bound) and for a bound below 3 (the ellipsis alone has 3). *)
Lemma C6_counterexample_small_bounds :
  generateResumeSummary Ex.getLoopDir MiniJson.parse no_files Ex.loop1 10
  = str "No previous work logged."
  /\ (10 < Z.of_nat (length
        (generateResumeSummary Ex.getLoopDir MiniJson.parse no_files Ex.loop1 10)))%Z
  /\ (2 < Z.of_nat (length
        (generateResumeSummary Ex.getLoopDir MiniJson.parse Ex.journal Ex.loop1 2)))%Z.
Proof. vm_compute. repeat split. Qed.

Lemma C6_witness :
  generateResumeSummary Ex.getLoopDir MiniJson.parse Ex.journal Ex.loop1 30
  = str "Iterations completed: 3" ++ [LF; LF] ++ str "Fi..."
  /\ (Z.of_nat (length
        (generateResumeSummary Ex.getLoopDir MiniJson.parse Ex.journal Ex.loop1 30)) <= 30)%Z.
Proof.
  destruct (C6_summary_within_bound Ex.getLoopDir MiniJson.parse Ex.journal Ex.loop1 30)
    as (Hlen & _ & _).
  - lia.
  - intros H. vm_compute in H. discriminate H.
  - split; [vm_compute; reflexivity | exact Hlen].
Defined.

(** C7 fails on a log file that ends in the middle of a line: the record
    is appended to that line, and no line of the file parses. *)
Lemma C7_counterexample_unfinished_line :
  files Faults.open_journal !! getLogPath Ex.getLoopDir Ex.loop1 = Some Ex.torn
  /\ readLogs Ex.getLoopDir MiniJson.parse
       (appendLog Ex.getLoopDir MiniJson.stringify (timestamp Ex.entry2) Ex.loop1
          {| in_type := TAgent; in_content := content Ex.entry2 |} Faults.open_journal)
       Ex.loop1
     = [].
Proof. vm_compute. split; reflexivity. Qed.

(** Once a newline closes that line, the appended entry is read back. *)
Lemma C7_witness :
  Ex.entry2
  ∈ readLogs Ex.getLoopDir MiniJson.parse
      (appendLog Ex.getLoopDir MiniJson.stringify (timestamp Ex.entry2) Ex.loop1
         {| in_type := TAgent; in_content := content Ex.entry2 |}
         (appendFileSync (getLogPath Ex.getLoopDir Ex.loop1) [LF] Faults.open_journal))
      Ex.loop1.
Proof.
  apply (C7_append_then_readLogs Ex.getLoopDir MiniJson.stringify MiniJson.parse
           (timestamp Ex.entry2) Ex.loop1
           {| in_type := TAgent; in_content := content Ex.entry2 |}
           (appendFileSync (getLogPath Ex.getLoopDir Ex.loop1) [LF] Faults.open_journal)
           MiniJson_codec).
  intros content H. vm_compute in H. injection H as <-.
  right. exists Ex.torn. vm_compute. reflexivity.
Defined.

(** [gh] says so when the issue is closed already, and fails otherwise. *)
Example closeIssue_already_closed :
  closeIssue (fun _ => Some {| err_code := None;
                               err_stderr := str "! Issue o/r#7 (Do it) is already closed";
                               err_stdout := []; err_message := str "Command failed" |})
    (url Ex.the_issue) None = Return already_closed.
Proof. vm_compute. reflexivity. Qed.

Example closeIssue_other_failure :
  closeIssue (fun _ => Some {| err_code := None;
                               err_stderr := str "GraphQL: Could not resolve to an Issue";
                               err_stdout := []; err_message := str "Command failed" |})
    (url Ex.the_issue) None
  = Throw (str "Failed to close issue: GraphQL: Could not resolve to an Issue").
Proof. vm_compute. reflexivity. Qed.

Lemma C10_witness :
  files (fst (tailLog_start Ex.getLoopDir Ex.loop1 no_files))
    !! getLogPath Ex.getLoopDir Ex.loop1 = Some []
  /\ Ex.getLoopDir Ex.loop1 ∈ dirs (fst (tailLog_start Ex.getLoopDir Ex.loop1 no_files)).
Proof.
  destruct (C10_tailLog_creates_empty_log Ex.getLoopDir MiniJson.parse Ex.loop1 no_files)
    as (Hfile & Hdir & _).
  - reflexivity.
  - split; [exact Hfile | exact Hdir].
Defined.

(* ===================================================================== *)
(** ** The journal, line by line *)
(* ===================================================================== *)

Lemma closed_text_app (a b : list jsstring) :
  closed_text (a ++ b) = closed_text a ++ closed_text b.
Proof. unfold closed_text. rewrite map_app, concat_app. reflexivity. Qed.

Lemma closed_text_cons (l : jsstring) (ls : list jsstring) :
  closed_text (l :: ls) = l ++ LF :: closed_text ls.
Proof. unfold closed_text. simpl. rewrite <- app_assoc. reflexivity. Qed.

Lemma solid_lines_one_line (lines : list jsstring) :
  Forall solid_line lines -> Forall (fun l => LF ∉ l) lines.
Proof. apply List.Forall_impl. intros l (H & _). exact H. Qed.

Lemma solid_lines_nonempty (lines : list jsstring) :
  Forall solid_line lines -> List.filter nonempty lines = lines.
Proof.
  induction 1 as [|l ls (_ & (a & s & -> & _) & _) _ IH]; simpl; [reflexivity|].
  rewrite IH. reflexivity.
Qed.

Lemma split_closed_text (lines : list jsstring) (rest : jsstring) :
  Forall (fun l => LF ∉ l) lines -> LF ∉ rest ->
  split LF (closed_text lines ++ rest) = lines ++ [rest].
Proof.
  intros Hl Hr.
  destruct (complete_lines_records lines rest Hl Hr) as [Hc Hp].
  rewrite (app_removelast_last [] (split_not_nil LF (closed_text lines ++ rest))).
  unfold complete_lines, partial_line, closed_text in *. rewrite Hc, Hp. reflexivity.
Qed.

(** The text of solid lines, trimmed: only the last newline goes. *)
Lemma trim_closed_text (lines : list jsstring) (line : jsstring) :
  Forall solid_line lines -> solid_line line ->
  trim (closed_text (lines ++ [line])) = closed_text lines ++ line.
Proof.
  intros Hl (_ & (a & r & Hfirst & Ha) & (s & z & Hlast & Hz)).
  rewrite closed_text_app. unfold closed_text at 2. simpl. rewrite app_nil_r.
  unfold trim.
  assert (Hstart : trimStart (closed_text lines ++ line ++ [LF])
                   = closed_text lines ++ line ++ [LF]).
  { destruct Hl as [|l ls (_ & (b & u & -> & Hb) & _) _].
    - rewrite Hfirst. simpl. rewrite Ha. reflexivity.
    - rewrite closed_text_cons. simpl. rewrite Hb. reflexivity. }
  rewrite Hstart, !app_assoc, trimEnd_snoc_ws by reflexivity.
  rewrite Hlast, !app_assoc. apply trimEnd_snoc_nonws, Hz.
Qed.

(** The non-empty lines [readLogs] parses, for a file of solid lines. *)
Lemma lines_of_closed_text (lines : list jsstring) :
  Forall solid_line lines ->
  List.filter nonempty (split LF (trim (closed_text lines))) = lines.
Proof.
  intros Hl. destruct lines as [|l ls _] using rev_ind; [reflexivity|].
  apply Forall_app in Hl as [Hls Hl]. apply Forall_cons in Hl as [Hl _].
  rewrite trim_closed_text by assumption.
  rewrite split_closed_text; [| apply solid_lines_one_line, Hls | apply Hl].
  apply solid_lines_nonempty, Forall_app. split; [assumption|].
  constructor; [assumption | constructor].
Qed.

Lemma readLogs_lines
    (getLoopDir : jsstring -> jsstring) (parse : jsstring -> option LogEntry)
    (fs : filesystem) (loopId : jsstring) (lines : list jsstring) :
  Forall solid_line lines ->
  files fs !! getLogPath getLoopDir loopId = Some (closed_text lines) ->
  readLogs getLoopDir parse fs loopId = omap parse lines.
Proof.
  intros Hl Hf. unfold readLogs. rewrite Hf. cbv zeta.
  rewrite lines_of_closed_text by assumption. reflexivity.
Qed.

(** X2.  [readLogs] reads a journal line by line: each line is parsed on its
    own, a line that does not parse is left out, and the others come in
    file order. *)
Theorem X2_readLogs_line_by_line
    (getLoopDir : jsstring -> jsstring) (parse : jsstring -> option LogEntry)
    (fs : filesystem) (loopId : jsstring) (lines : list jsstring) :
  Forall solid_line lines ->
  files fs !! getLogPath getLoopDir loopId = Some (closed_text lines) ->
  readLogs getLoopDir parse fs loopId = omap parse lines.
Proof. apply readLogs_lines. Qed.

(* ===================================================================== *)
(** ** The journal the operations write *)
(* ===================================================================== *)

Section JournalFacts.

Variable getLoopDir : jsstring -> jsstring.
Variable stringify : LogEntry -> jsstring.
Variable parse : jsstring -> option LogEntry.
Hypothesis codec : JsonCodec stringify parse.

Lemma codec_solid (e : LogEntry) : solid_line (stringify e).
Proof.
  split_and!.
  - apply (codec_one_line _ _ codec).
  - apply (codec_first _ _ codec).
  - apply (codec_last _ _ codec).
Qed.

Lemma codec_solid_lines (es : list LogEntry) : Forall solid_line (map stringify es).
Proof. apply Forall_map, Forall_forall. intros e _. apply codec_solid. Qed.

Lemma codec_parse_lines (es : list LogEntry) : omap parse (map stringify es) = es.
Proof.
  induction es as [|e es IH]; simpl; [reflexivity|].
  rewrite (codec_roundtrip _ _ codec). f_equal. exact IH.
Qed.

Lemma entries_for_app path (a b : list journal_op) :
  entries_for getLoopDir path (a ++ b)
  = entries_for getLoopDir path a ++ entries_for getLoopDir path b.
Proof.
  induction a as [|[now lid e|lid] a IH]; simpl; [reflexivity| |exact IH].
  destruct (bool_decide _); simpl; rewrite IH; reflexivity.
Qed.

(** What one operation does to the text of a file. *)
Lemma run_op_file (op : journal_op) (fs : filesystem) (path : jsstring) :
  default [] (files (run_op getLoopDir stringify op fs) !! path)
  = default [] (files fs !! path)
    ++ closed_text (map stringify (entries_for getLoopDir path [op])).
Proof.
  destruct op as [now lid e|lid]; simpl.
  - unfold appendLog, appendFileSync. simpl.
    destruct (bool_decide_reflect (getLogPath getLoopDir lid = path)) as [<-|Hne].
    + rewrite lookup_insert_eq. unfold closed_text. simpl. rewrite app_nil_r. reflexivity.
    + rewrite lookup_insert_ne by assumption. rewrite app_nil_r. reflexivity.
  - rewrite app_nil_r. unfold tailLog_start. simpl.
    destruct (files fs !! getLogPath getLoopDir lid) eqn:E; simpl; [reflexivity|].
    destruct (decide (getLogPath getLoopDir lid = path)) as [<-|Hne].
    + rewrite lookup_insert_eq, E. reflexivity.
    + rewrite lookup_insert_ne by assumption. reflexivity.
Qed.

Lemma run_ops_file (ops : list journal_op) : forall (fs : filesystem) (path : jsstring),
  default [] (files (run_ops getLoopDir stringify ops fs) !! path)
  = default [] (files fs !! path)
    ++ closed_text (map stringify (entries_for getLoopDir path ops)).
Proof.
  induction ops as [|op ops IH]; intros fs path.
  - simpl. rewrite app_nil_r. reflexivity.
  - change (op :: ops) with ([op] ++ ops). rewrite entries_for_app, map_app, closed_text_app.
    simpl. unfold run_ops in IH |- *. simpl. rewrite IH, run_op_file, <- app_assoc. reflexivity.
Qed.

Lemma readLogs_text (fs : filesystem) (loopId : jsstring) (lines : list jsstring) :
  Forall solid_line lines ->
  default [] (files fs !! getLogPath getLoopDir loopId) = closed_text lines ->
  readLogs getLoopDir parse fs loopId = omap parse lines.
Proof.
  intros Hl Hf. unfold readLogs.
  destruct (files fs !! getLogPath getLoopDir loopId) as [content|] eqn:E; simpl in Hf.
  - subst content. cbv zeta. rewrite lines_of_closed_text by assumption. reflexivity.
  - destruct lines as [|l ls]; [reflexivity|].
    rewrite closed_text_cons in Hf. destruct l; discriminate.
Qed.

Lemma journal_file (ops : list journal_op) (path : jsstring) :
  default [] (files (run_ops getLoopDir stringify ops no_files) !! path)
  = closed_text (map stringify (entries_for getLoopDir path ops)).
Proof. rewrite run_ops_file. simpl. rewrite lookup_empty. reflexivity. Qed.

(** X1.  In a journal that [appendLog] and [tailLog] have written from nothing,
    [readLogs(loopId)] returns exactly the entries appended to the loop's
    file, each with its time stamp and loop id, in the order of the
    appends, whatever was appended to other files in between. *)
Theorem X1_readLogs_returns_the_appended_entries
    (ops : list journal_op) (loopId : jsstring) :
  readLogs getLoopDir parse (run_ops getLoopDir stringify ops no_files) loopId
  = entries_for getLoopDir (getLogPath getLoopDir loopId) ops.
Proof.
  rewrite (readLogs_text _ _ (map stringify (entries_for getLoopDir (getLogPath getLoopDir loopId) ops))).
  - apply codec_parse_lines.
  - apply codec_solid_lines.
  - rewrite run_ops_file. simpl. rewrite lookup_empty. reflexivity.
Qed.

End JournalFacts.

(* ===================================================================== *)
(** ** The recent entries of a journal of short records *)
(* ===================================================================== *)

Lemma take_last_app_exact {A} (n : nat) (a b : list A) :
  length b = n -> take_last n (a ++ b) = b.
Proof.
  intros <-. unfold take_last. rewrite length_app.
  replace (length a + length b - length b) with (length a) by lia.
  apply drop_app_length.
Qed.

Lemma closed_text_length (lines : list jsstring) :
  Forall (fun l => length l < 500) lines ->
  length (closed_text lines) <= 500 * length lines.
Proof.
  induction 1 as [|l ls Hl _ IH]; [simpl; lia|].
  rewrite closed_text_cons, length_app. simpl. lia.
Qed.

Lemma closed_text_shape (lines : list jsstring) :
  closed_text lines = [] \/ exists c, closed_text lines = c ++ [LF].
Proof.
  induction lines as [|l ls IH]; [left; reflexivity|]. right.
  rewrite closed_text_cons. destruct IH as [->|[c ->]].
  - exists l. reflexivity.
  - exists (l ++ LF :: c). rewrite <- app_assoc. reflexivity.
Qed.

Lemma drop_closed_text (d : nat) (lines : list jsstring) :
  drop d (closed_text lines) = [] \/ exists q, drop d (closed_text lines) = q ++ [LF].
Proof.
  destruct (closed_text_shape lines) as [->|[c ->]].
  - left. apply drop_nil.
  - destruct (decide (d <= length c)) as [Hd|Hd].
    + right. exists (drop d c). rewrite drop_app_le by assumption. reflexivity.
    + left. apply drop_ge. rewrite length_app. simpl. lia.
Qed.

Lemma omap_all_parse {A B} (f : A -> option B) (l : list A) :
  Forall (fun x => is_Some (f x)) l -> length (omap f l) = length l.
Proof.
  induction 1 as [|x xs [y Hy] _ IH]; [reflexivity|].
  simpl. rewrite Hy. simpl. f_equal. exact IH.
Qed.

Lemma filter_nonempty_app (a b : list jsstring) :
  List.filter nonempty (a ++ b) = List.filter nonempty a ++ List.filter nonempty b.
Proof. apply List.filter_app. Qed.

Lemma readRecentLogs_text
    (getLoopDir : jsstring -> jsstring) (parse : jsstring -> option LogEntry)
    (fs : filesystem) (loopId : jsstring) (lines : list jsstring) (count : nat) :
  Forall solid_line lines ->
  Forall (fun l => is_Some (parse l)) lines ->
  Forall (fun l => length l < 500) lines ->
  default [] (files fs !! getLogPath getLoopDir loopId) = closed_text lines ->
  readRecentLogs getLoopDir parse fs loopId count
  = take_last count (omap parse lines).
Proof.
  intros Hsolid Hparse Hshort Hf.
  unfold readRecentLogs.
  destruct (files fs !! getLogPath getLoopDir loopId) as [content|] eqn:Efile;
    simpl in Hf.
  2: { destruct lines as [|l ls]; [reflexivity|].
       apply Forall_cons in Hsolid as [(_ & (a & s & -> & _) & _) _].
       rewrite closed_text_cons in Hf. discriminate. }
  subst content.
  destruct (length (closed_text lines) =? 0) eqn:E0.
  { apply Nat.eqb_eq in E0. destruct lines as [|l ls]; [reflexivity|].
    apply Forall_cons in Hsolid as [(_ & (a & s & -> & _) & _) _].
    rewrite closed_text_cons in E0. discriminate. }
  clear E0. cbv zeta. rewrite recent_chunk_drop.
  assert (Hsplit : exists A B, lines = A ++ B /\ length B <= count
                               /\ (A = [] \/ length B = count)).
  { exists (take (length lines - count) lines), (drop (length lines - count) lines).
    split; [symmetry; apply take_drop|]. rewrite length_drop. split; [lia|].
    destruct (decide (length lines <= count)) as [Hle|Hgt]; [left | right; lia].
    replace (length lines - count) with 0 by lia. reflexivity. }
  destruct Hsplit as (A & B & -> & HB & Hcases).
  apply Forall_app in Hsolid as [_ HsB].
  apply Forall_app in Hparse as [_ HpB].
  apply Forall_app in Hshort as [_ HlB]. apply closed_text_length in HlB.
  rewrite closed_text_app, length_app.
  set (d := length (closed_text A) + length (closed_text B)
            - Nat.min (length (closed_text A) + length (closed_text B)) (count * 500)).
  assert (Hd : d <= length (closed_text A)) by (subst d; lia).
  rewrite drop_app_le by assumption.
  rewrite recent_loop_spec by (simpl; lia). rewrite rev_involutive, app_nil_r, Nat.sub_0_r.
  rewrite omap_app.
  assert (Hlines : exists F, List.filter nonempty (split LF (drop d (closed_text A) ++ closed_text B))
                   = F ++ B /\ (A = [] -> F = [])).
  { destruct (drop_closed_text d A) as [->|[q Hq]].
    - exists []. split; [|reflexivity]. simpl.
      rewrite <- (app_nil_r (closed_text B)).
      rewrite split_closed_text; [| apply solid_lines_one_line, HsB | apply not_elem_of_nil].
      rewrite filter_nonempty_app. simpl. rewrite app_nil_r.
      apply solid_lines_nonempty, HsB.
    - exists (List.filter nonempty (split LF q)). split.
      + rewrite Hq, <- app_assoc. simpl. rewrite split_app_sep, filter_nonempty_app. f_equal.
        rewrite <- (app_nil_r (closed_text B)).
        rewrite split_closed_text; [| apply solid_lines_one_line, HsB | apply not_elem_of_nil].
        rewrite filter_nonempty_app. simpl. rewrite app_nil_r.
        apply solid_lines_nonempty, HsB.
      + intros HA. rewrite HA in Hq. change (closed_text []) with (@nil ascii) in Hq.
        rewrite drop_nil in Hq. destruct q; discriminate. }
  destruct Hlines as (F & -> & HF). rewrite omap_app.
  destruct Hcases as [HA|Hlen].
  - rewrite HA, (HF HA). reflexivity.
  - rewrite !take_last_app_exact; [reflexivity| |]; rewrite omap_all_parse; assumption.
Qed.

(** X3.  [readRecentLogs] against [readLogs]: in a journal whose lines all parse
    and are shorter than 500 characters, so that a record with its newline
    fits the 500 bytes the code allows for one (a character counts as one
    byte, as in ASCII text), [readRecentLogs(loopId, N)] is the last [N]
    entries of [readLogs(loopId)]. *)
Theorem X3_readRecentLogs_is_the_end_of_readLogs
    (getLoopDir : jsstring -> jsstring) (parse : jsstring -> option LogEntry)
    (fs : filesystem) (loopId : jsstring) (lines : list jsstring) (count : nat) :
  Forall solid_line lines ->
  Forall (fun l => is_Some (parse l)) lines ->
  Forall (fun l => length l < 500) lines ->
  files fs !! getLogPath getLoopDir loopId = Some (closed_text lines) ->
  readRecentLogs getLoopDir parse fs loopId count
  = take_last count (readLogs getLoopDir parse fs loopId).
Proof.
  intros Hsolid Hparse Hshort Hf.
  rewrite (readLogs_lines _ _ _ _ lines) by assumption.
  apply readRecentLogs_text; try assumption. rewrite Hf. reflexivity.
Qed.

(* ===================================================================== *)
(** ** A tailer beside the journal's writers *)
(* ===================================================================== *)

Section TailSteps.

Variable getLoopDir : jsstring -> jsstring.
Variable stringify : LogEntry -> jsstring.
Variable parse : jsstring -> option LogEntry.
Hypothesis codec : JsonCodec stringify parse.

Lemma run_op_watching loopId pre consumed pending fs t op :
  watching getLoopDir loopId pre consumed pending fs t ->
  watching getLoopDir loopId pre consumed
    (pending ++ closed_text (map stringify
       (entries_for getLoopDir (getLogPath getLoopDir loopId) [op])))
    (run_op getLoopDir stringify op fs) t.
Proof.
  intros (Hf & Hp & Hb & Ha). unfold watching. split_and!; try assumption.
  pose proof (run_op_file getLoopDir stringify op fs (getLogPath getLoopDir loopId)) as H.
  rewrite Hf in H. simpl default in H.
  destruct (files (run_op getLoopDir stringify op fs) !! getLogPath getLoopDir loopId)
    as [c|] eqn:E; simpl in H.
  - rewrite H, <- !app_assoc. reflexivity.
  - exfalso. destruct op as [now lid e|lid]; simpl in E.
    + unfold appendLog, appendFileSync in E. simpl in E.
      destruct (decide (getLogPath getLoopDir lid = getLogPath getLoopDir loopId)) as [Heq|Hne].
      * rewrite Heq, lookup_insert_eq in E. discriminate.
      * rewrite lookup_insert_ne in E by assumption. congruence.
    + unfold tailLog_start in E. simpl in E.
      destruct (files fs !! getLogPath getLoopDir lid) eqn:E'; simpl in E; [congruence|].
      destruct (decide (getLogPath getLoopDir lid = getLogPath getLoopDir loopId)) as [Heq|Hne].
      * rewrite Heq, lookup_insert_eq in E. discriminate.
      * rewrite lookup_insert_ne in E by assumption. congruence.
Qed.

Lemma run_steps_watching loopId pre steps : forall fs t consumed pending,
  watching getLoopDir loopId pre consumed pending fs t ->
  exists consumed' pending',
    consumed ++ pending
      ++ closed_text (map stringify
           (entries_for getLoopDir (getLogPath getLoopDir loopId) (ops_of steps)))
    = consumed' ++ pending'
    /\ watching getLoopDir loopId pre consumed' pending'
         (fst (fst (run_steps getLoopDir stringify parse loopId steps fs t)))
         (snd (fst (run_steps getLoopDir stringify parse loopId steps fs t)))
    /\ deliver parse (complete_lines consumed')
       = deliver parse (complete_lines consumed)
         ++ snd (run_steps getLoopDir stringify parse loopId steps fs t).
Proof.
  induction steps as [|st steps IH]; intros fs t consumed pending Hw.
  - exists consumed, pending. simpl. rewrite !app_nil_r. auto.
  - destruct st as [op|].
    + change (ops_of (Step_op op :: steps)) with ([op] ++ ops_of steps).
      rewrite entries_for_app, map_app, closed_text_app. simpl run_steps.
      destruct (IH _ _ _ _ (run_op_watching _ _ _ _ _ _ op Hw))
        as (c' & p' & Heq & Hw' & Hd).
      exists c', p'. rewrite <- app_assoc in Heq. auto.
    + change (ops_of (Step_poll :: steps)) with (ops_of steps). simpl run_steps.
      destruct (poll_watching _ parse _ _ _ _ _ _ Hw) as [Hw1 Hout].
      destruct (poll getLoopDir parse loopId fs t) as [t1 out1]. simpl in Hw1, Hout.
      destruct (IH _ _ _ _ Hw1) as (c' & p' & Heq & Hw' & Hd).
      destruct (run_steps getLoopDir stringify parse loopId steps fs t1) as [[fs2 t2] out2].
      simpl in Hw', Hd |- *.
      exists c', p'. rewrite <- app_assoc in Heq. split; [assumption|]. split; [assumption|].
      rewrite Hd, complete_lines_app, deliver_app, Hout, app_assoc. reflexivity.
Qed.

Lemma codec_json_records (es : list LogEntry) :
  Forall2 (json_record parse) (map stringify es) es.
Proof.
  induction es as [|e es IH]; constructor; [|exact IH].
  apply codec_json_record, codec.
Qed.

Lemma tail_steps_delivered
    (loopId : jsstring) (steps : list step) (fs : filesystem) :
  tail_steps_session getLoopDir stringify parse loopId steps fs
  = entries_for getLoopDir (getLogPath getLoopDir loopId) (ops_of steps).
Proof.
  unfold tail_steps_session, tailLog.
  destruct (tailLog_start_watching getLoopDir loopId fs) as [pre Hw0].
  destruct (tailLog_start getLoopDir loopId fs) as [fs1 t0]. simpl in Hw0.
  destruct (poll_watching _ parse _ _ _ _ _ _ Hw0) as [Hw1 Hout0].
  destruct (poll getLoopDir parse loopId fs1 t0) as [t1 out0]. simpl in Hw1, Hout0.
  destruct (run_steps_watching _ _ steps _ _ _ _ Hw1) as (c & p & Heq & Hw2 & Hd).
  destruct (run_steps getLoopDir stringify parse loopId steps fs1 t1) as [[fs2 t2] out].
  simpl in Hw2, Hd.
  destruct (poll_watching _ parse _ _ _ _ _ _ Hw2) as [_ Hout2].
  simpl in Heq. rewrite Hout0, Hout2. simpl.
  change (complete_lines (partial_line [] ++ [])) with (@nil (list ascii)) in *.
  simpl in Hd. rewrite <- Hd, <- deliver_app, <- complete_lines_app, <- Heq.
  set (es := entries_for getLoopDir (getLogPath getLoopDir loopId) (ops_of steps)).
  rewrite <- (app_nil_r (closed_text _)).
  destruct (complete_lines_records (map stringify es) []) as [Hc _].
  - eapply json_records_one_line, codec_json_records.
  - apply not_elem_of_nil.
  - unfold closed_text. rewrite Hc. apply deliver_json_records, codec_json_records.
Qed.

(** X4.  A tailer beside the writers: from [tailLog(loopId)] on, whatever the
    journal's operations do, on this loop and on others, and wherever the
    polls fall between them, the tailer hands [onEntry] exactly the entries
    that [appendLog] appends to this loop's file after the start, in the
    order of the appends; what the file held at the start and what goes to
    other files is never delivered. *)
Theorem X4_tailLog_follows_appendLog
    (loopId : jsstring) (steps : list step) (fs : filesystem) :
  tail_steps_session getLoopDir stringify parse loopId steps fs
  = entries_for getLoopDir (getLogPath getLoopDir loopId) (ops_of steps).
Proof. apply tail_steps_delivered. Qed.

End TailSteps.

(** The loop of [poll] hands on every entry of the batch, whether or not
    the callback calls the cleanup function on the way. *)
Lemma deliver_calling_spec (parse : jsstring -> option LogEntry)
    (calls_cleanup : LogEntry -> bool) (lines : list jsstring) : forall a,
  deliver_calling parse calls_cleanup lines a
  = (a && forallb (fun e => negb (calls_cleanup e)) (deliver parse lines),
     deliver parse lines).
Proof.
  induction lines as [|line rest IH]; intros a; simpl.
  - rewrite andb_true_r. reflexivity.
  - unfold deliver in *. simpl. destruct (nonempty (trim line)); [|apply IH].
    destruct (parse line) as [e|]; [|apply IH].
    rewrite IH. simpl. destruct (calls_cleanup e), a; reflexivity.
Qed.

(** X5.  The cleanup function that [tailLog] returns stops the tailer between
    two polls, not inside one.  Once it has been called, the tailer hands
    nothing to [onEntry] any more, whatever is appended and however often
    the timer fires, and its state stays as it was.  When [onEntry] calls it
    in the loop of a poll, that poll goes on as it would have without:
    it hands on the rest of its batch and moves to the end of the file;
    the tailer is silent from the next poll on. *)
Theorem X5_cancelled_tailer_is_silent
    (getLoopDir : jsstring -> jsstring) (stringify : LogEntry -> jsstring)
    (parse : jsstring -> option LogEntry) (calls_cleanup : LogEntry -> bool)
    (loopId : jsstring) (steps : list step) (fs fs' : filesystem) (t : Tailer) :
  run_calling getLoopDir stringify parse calls_cleanup loopId steps fs (cancel t)
  = (run_ops getLoopDir stringify (ops_of steps) fs, cancel t, [])
  /\ (let (t1, out) := poll_calling getLoopDir parse calls_cleanup loopId fs t in
      let (t0, out0) := poll getLoopDir parse loopId fs t in
      out = out0
      /\ position t1 = position t0
      /\ lineBuffer t1 = lineBuffer t0
      /\ active t1 = active t0 && forallb (fun e => negb (calls_cleanup e)) out0
      /\ ((exists e, e ∈ out /\ calls_cleanup e = true) ->
          run_calling getLoopDir stringify parse calls_cleanup loopId steps fs' t1
          = (run_ops getLoopDir stringify (ops_of steps) fs', t1, []))).
Proof.
  assert (Hsilent : forall fs t, active t = false ->
            run_calling getLoopDir stringify parse calls_cleanup loopId steps fs t
            = (run_ops getLoopDir stringify (ops_of steps) fs, t, [])).
  { clear. induction steps as [|[op|] steps IH]; intros fs t Ht; simpl.
    - reflexivity.
    - apply IH, Ht.
    - unfold poll_calling. rewrite Ht. simpl. rewrite IH by exact Ht. reflexivity. }
  split; [apply Hsilent; reflexivity|].
  assert (Hpoll : poll_calling getLoopDir parse calls_cleanup loopId fs t
                  = let (t0, out0) := poll getLoopDir parse loopId fs t in
                    ({| position := position t0;
                        active := active t0 && forallb (fun e => negb (calls_cleanup e)) out0;
                        lineBuffer := lineBuffer t0 |}, out0)).
  { unfold poll_calling, poll. destruct t as [pos act buf]. simpl.
    destruct act; simpl; [|reflexivity].
    destruct (files fs !! getLogPath getLoopDir loopId) as [content|]; [|reflexivity].
    destruct (pos <? length content).
    - rewrite deliver_calling_spec. reflexivity.
    - destruct (length content <? pos); reflexivity. }
  rewrite Hpoll. destruct (poll getLoopDir parse loopId fs t) as [t0 out0].
  cbn [position active lineBuffer]. split_and!; try reflexivity.
  intros (e & He & Hc). apply Hsilent. cbn [active].
  apply andb_false_iff. right. apply not_true_is_false. intros Hall.
  rewrite forallb_forall in Hall. apply list_elem_of_In in He.
  specialize (Hall e He). rewrite Hc in Hall. discriminate.
Qed.


(* ===================================================================== *)
(** ** The log pane *)
(* ===================================================================== *)

Lemma log_lines_app (a b : list LogEntry) :
  Ui.log_lines (a ++ b) = Ui.log_lines a ++ Ui.log_lines b.
Proof. unfold Ui.log_lines. rewrite List.filter_app, map_app. reflexivity. Qed.

Section LogPaneFacts.

Variable getLoopDir : jsstring -> jsstring.
Variable stringify : LogEntry -> jsstring.
Variable parse : jsstring -> option LogEntry.
Hypothesis codec : JsonCodec stringify parse.

Lemma log_pane_parts (loopId : jsstring) (steps : list step) (fs : filesystem) :
  Ui.log_pane getLoopDir stringify parse loopId steps fs
  = Ui.log_lines (readRecentLogs getLoopDir parse fs loopId 50)
    ++ Ui.log_lines (tail_steps_session getLoopDir stringify parse loopId steps fs).
Proof.
  unfold Ui.log_pane, Ui.loadLogsForLoop, tail_steps_session.
  destruct (tailLog getLoopDir parse loopId fs) as [[fs1 t1] out0].
  destruct (run_steps getLoopDir stringify parse loopId steps fs1 t1) as [[fs2 t2] out].
  rewrite !log_lines_app, <- !app_assoc. reflexivity.
Qed.

(** X7.  The log pane of a loop shows every entry once: after
    [loadLogsForLoop(loopId)] on a journal that [appendLog] and [tailLog] have
    written, with records shorter than 500 characters (of one byte each,
    as in ASCII text), and whatever the
    journal's operations and the polls do afterwards, the pane holds, in
    order and formatted, the last 50 entries the loop's file had, then every
    entry appended to it since; only entries with a blank content are left
    out. *)
Theorem X7_log_pane_shows_each_entry_once
    (ops : list journal_op) (loopId : jsstring) (steps : list step) :
  Forall (fun e => length (stringify e) < 500)
    (entries_for getLoopDir (getLogPath getLoopDir loopId) ops) ->
  Ui.log_pane getLoopDir stringify parse loopId steps
    (run_ops getLoopDir stringify ops no_files)
  = Ui.log_lines
      (take_last 50 (entries_for getLoopDir (getLogPath getLoopDir loopId) ops)
       ++ entries_for getLoopDir (getLogPath getLoopDir loopId) (ops_of steps)).
Proof.
  intros Hshort. rewrite log_pane_parts, log_lines_app.
  rewrite (tail_steps_delivered _ _ _ codec).
  rewrite (readRecentLogs_text _ _ _ _
             (map stringify (entries_for getLoopDir (getLogPath getLoopDir loopId) ops))).
  - rewrite (codec_parse_lines _ _ codec). reflexivity.
  - apply (codec_solid_lines _ _ codec).
  - apply Forall_map, Forall_forall. intros e _. simpl.
    rewrite (codec_roundtrip _ _ codec). eauto.
  - apply Forall_map. exact Hshort.
  - apply journal_file.
Qed.

End LogPaneFacts.

(* ===================================================================== *)
(** ** Literals, decimal numbers and the leftmost match *)
(* ===================================================================== *)

Lemma startsWith_app (p s : jsstring) : startsWith p (p ++ s) = true.
Proof. induction p as [|a p IH]; simpl; [reflexivity|]. rewrite Ascii.eqb_refl. exact IH. Qed.

Lemma startsWith_true (p s : jsstring) :
  startsWith p s = true -> s = p ++ drop (length p) s.
Proof.
  revert s. induction p as [|a p IH]; intros s H; [reflexivity|].
  destruct s as [|b s]; [discriminate|]. simpl in H.
  apply andb_true_iff in H as [Hab H]. apply Ascii.eqb_eq in Hab. subst b.
  simpl. f_equal. apply IH, H.
Qed.

Lemma find_sub_spec (p s pre post : jsstring) :
  find_sub p s = Some (pre, post) -> s = pre ++ p ++ post.
Proof.
  revert pre. induction s as [|a s IH]; intros pre H.
  - simpl in H. destruct (startsWith p []) eqn:E; [|discriminate].
    injection H as <- <-. apply startsWith_true, E.
  - cbn [find_sub] in H. destruct (startsWith p (a :: s)) eqn:E.
    + injection H as <- <-. apply startsWith_true, E.
    + destruct (find_sub p s) as [[pre' post']|]; [|discriminate].
      injection H as <- <-. simpl. f_equal. apply IH. reflexivity.
Qed.

Lemma find_sub_app (p pre post : jsstring) : includes p (pre ++ p ++ post) = true.
Proof.
  unfold includes. induction pre as [|a pre IH].
  - simpl app. destruct (p ++ post) eqn:E; cbn [find_sub]; rewrite <- E, startsWith_app; reflexivity.
  - cbn [app find_sub]. destruct (startsWith p (a :: pre ++ p ++ post)); [reflexivity|].
    destruct (find_sub p (pre ++ p ++ post)) as [[? ?]|]; [reflexivity | discriminate].
Qed.

(** A literal matches what starts with it, and nothing else. *)
Lemma m_lits n0 (p : jsstring) : forall s c k,
  m n0 (cat (map chr p)) s c k
  = if startsWith p s then k (drop (length p) s) c else None.
Proof.
  induction p as [|a p IH]; intros s c k; [reflexivity|].
  assert (Hone : m n0 (chr a) s c (fun s' c' => m n0 (cat (map chr p)) s' c' k)
                 = if startsWith (a :: p) s then k (drop (length (a :: p)) s) c else None).
  { destruct s as [|b s]; [reflexivity|]. cbn [m chr startsWith].
    destruct (Ascii.eqb a b); [|reflexivity]. rewrite IH. reflexivity. }
  destruct p as [|a' p]; [|exact Hone].
  rewrite <- Hone. destruct s as [|b s]; [reflexivity|]. cbn [m chr map cat].
  destruct (Ascii.eqb a b); reflexivity.
Qed.

Lemma m_lit n0 (p : string) s c k :
  m n0 (lit p) s c k
  = if startsWith (str p) s then k (drop (length (str p)) s) c else None.
Proof. apply m_lits. Qed.

(** The search goes on to the first place where the pattern's leading
    literal stands. *)
Lemma search_skip (r : regex) (n0 : nat) (p : jsstring) :
  (forall s, startsWith p s = false -> match_here r n0 s = None) ->
  forall s pre post,
    find_sub p s = Some (pre, post) -> search r n0 s = search r n0 (p ++ post).
Proof.
  intros Hfail. induction s as [|a s IH]; intros pre post H.
  - simpl in H. destruct (startsWith p []) eqn:E; [|discriminate].
    injection H as <- <-. rewrite <- (startsWith_true _ _ E). reflexivity.
  - cbn [find_sub] in H. destruct (startsWith p (a :: s)) eqn:E.
    + injection H as <- <-. rewrite <- (startsWith_true _ _ E). reflexivity.
    + destruct (find_sub p s) as [[pre' post']|] eqn:E'; [|discriminate].
      injection H as <- <-. cbn [search]. rewrite (Hfail _ E). eapply IH. reflexivity.
Qed.

Lemma search_none (r : regex) (n0 : nat) (p : jsstring) :
  (forall s, startsWith p s = false -> match_here r n0 s = None) ->
  forall s, includes p s = false -> search r n0 s = None.
Proof.
  intros Hfail. unfold includes. induction s as [|a s IH]; intros H.
  - simpl in H |- *. destruct (startsWith p []) eqn:E; [discriminate|].
    rewrite (Hfail _ E). reflexivity.
  - cbn [find_sub] in H. destruct (startsWith p (a :: s)) eqn:E; [discriminate|].
    cbn [search]. rewrite (Hfail _ E). apply IH.
    destruct (find_sub p s) as [[? ?]|]; [discriminate | reflexivity].
Qed.

(** *** Decimal numbers *)

Lemma parseInt_digits (d : Decimal.uint) : forall acc,
  fold_left (fun acc c => 10 * acc + (nat_of_ascii c - 48))
    (str (NilEmpty.string_of_uint d)) acc
  = Nat.of_uint_acc d acc.
Proof.
  induction d; intros acc; cbn [NilEmpty.string_of_uint str list_ascii_of_string fold_left Nat.of_uint_acc];
    try reflexivity; rewrite IHd, Nat.tail_mul_spec; f_equal; simpl; lia.
Qed.

Lemma num_digits_of (n : nat) :
  num n = str (NilEmpty.string_of_uint (Nat.to_uint n))
  \/ (Nat.to_uint n = Decimal.Nil /\ num n = str "0").
Proof.
  unfold num, NilZero.string_of_uint.
  destruct (Nat.to_uint n); auto.
Qed.

Lemma parseInt_num (n : nat) : parseInt (num n) = n.
Proof.
  unfold parseInt. destruct (num_digits_of n) as [->|[Hn ->]].
  - rewrite parseInt_digits. apply DecimalNat.Unsigned.of_to.
  - rewrite <- (DecimalNat.Unsigned.of_to n), Hn. reflexivity.
Qed.

Lemma digits_of_uint (d : Decimal.uint) :
  Forall (fun a => is_digit a = true) (str (NilEmpty.string_of_uint d)).
Proof. induction d; simpl; constructor; try assumption; reflexivity. Qed.

Lemma num_digits (n : nat) : Forall (fun a => is_digit a = true) (num n).
Proof.
  destruct (num_digits_of n) as [->|[_ ->]]; [apply digits_of_uint|].
  repeat constructor.
Qed.

Lemma num_not_empty (n : nat) : 1 <= length (num n).
Proof.
  unfold num, NilZero.string_of_uint.
  destruct (Nat.to_uint n); simpl; lia.
Qed.

(* ===================================================================== *)
(** ** What the resume summary counts *)
(* ===================================================================== *)

Lemma iteration_needs_word n0 (s : jsstring) :
  startsWith (str "Iteration ") s = false -> match_here re_iteration n0 s = None.
Proof.
  intros H. unfold match_here, re_iteration. cbn [cat]. rewrite m_cat, m_lit, H. reflexivity.
Qed.

(** The number [generateResumeSummary] reads from an iteration marker. *)
Lemma iteration_of_marker (k : nat) (tail : jsstring) :
  stops is_digit tail ->
  match exec re_iteration (str "--- Iteration " ++ num k ++ tail) with
  | Some x => parseInt (default [] (m_group x 1))
  | None => 0
  end = k.
Proof.
  intros Htail. unfold exec.
  set (n0 := length _).
  rewrite (search_skip _ n0 (str "Iteration ") (iteration_needs_word n0) _
             (str "--- ") (num k ++ tail)).
  2: reflexivity.
  assert (Hm : exists c',
    m n0 re_iteration (str "Iteration " ++ num k ++ tail) nocaps (fun s' c' => Some (s', c'))
    = Some (tail, c') /\ c' 1 = Some (num k)).
  { unfold re_iteration. cbn [cat].
    rewrite m_cat, m_lit, startsWith_app, drop_app_length.
    rewrite m_grp. unfold plus, digit. rewrite m_rep. eexists. split.
    - eapply (rep_loop_cls_greedy n0 is_digit _ (num k));
        [apply num_digits | exact Htail | apply num_not_empty
        | rewrite length_app; simpl; lia |].
      reflexivity.
    - unfold setcap. cbn [Nat.eqb]. f_equal.
      match goal with |- take ?j _ = _ =>
        replace j with (length (num k)) by (rewrite !length_app; lia) end.
      apply take_app_length. }
  destruct Hm as (c' & Hm & H1).
  assert (Hs : exists x, search re_iteration n0 (str "Iteration " ++ num k ++ tail) = Some x
                         /\ m_group x 1 = Some (num k)).
  { eexists. split.
    - destruct (str "Iteration " ++ _) eqn:E in |- *; cbn [search]; unfold match_here;
        rewrite <- ?E, Hm; reflexivity.
    - exact H1. }
  destruct Hs as (x & -> & ->). apply parseInt_num.
Qed.

Lemma summary_first_part (logs : list LogEntry) :
  hd [] (summary_parts logs)
  = str "Iterations completed: "
    ++ num (max0
         (map (fun l => match exec re_iteration (content l) with
                        | Some x => parseInt (default [] (m_group x 1))
                        | None => 0
                        end)
            (List.filter (fun l => includes (str "--- Iteration") (content l))
               (List.filter (is_type TSystem) logs)))).
Proof.
  unfold summary_parts. cbv zeta.
  repeat match goal with
         | |- context [if ?b then _ else _] => destruct b
         end; reflexivity.
Qed.

(** X8.  The summary's first section reports the highest iteration: when the
    system entries that contain [--- Iteration] are markers
    [--- Iteration N] followed by something that is not a digit, with
    every [N] at most 2^53 (up to there a JavaScript number holds the
    integer that [parseInt] reads), the first section is
    [Iterations completed: ] and the largest [N], or 0 without a marker. *)
Theorem X8_summary_reports_the_highest_iteration
    (logs : list LogEntry) (marks : list (nat * jsstring)) :
  map content
    (List.filter (fun l => includes (str "--- Iteration") (content l))
       (List.filter (is_type TSystem) logs))
  = map (fun mark => str "--- Iteration " ++ num (fst mark) ++ snd mark) marks ->
  Forall (fun mark => stops is_digit (snd mark)) marks ->
  Forall (fun mark => (Z.of_nat (fst mark) <= 2 ^ 53)%Z) marks ->
  hd [] (summary_parts logs)
  = str "Iterations completed: " ++ num (max0 (map fst marks)).
Proof.
  intros Hmarks Htails _. rewrite summary_first_part. do 2 f_equal.
  rewrite <- (map_map content
    (fun c => match exec re_iteration c with
              | Some x => parseInt (default [] (m_group x 1))
              | None => 0
              end)).
  rewrite Hmarks, map_map. f_equal. apply map_ext_Forall.
  eapply Forall_impl; [exact Htails|]. intros [k tail] Ht. cbn [fst snd] in *.
  apply iteration_of_marker, Ht.
Qed.

Lemma includes_needs_first (a : ascii) (p s : jsstring) :
  a ∉ s -> includes (a :: p) s = false.
Proof.
  unfold includes. induction s as [|b s IH]; intros Hs; [reflexivity|].
  apply not_elem_of_cons in Hs as [Hab Hs]. cbn [find_sub startsWith].
  destruct (Ascii.eqb_spec a b) as [->|_]; [congruence|]. cbn [andb].
  specialize (IH Hs). destruct (find_sub (a :: p) s) as [[? ?]|]; [discriminate | reflexivity].
Qed.

Lemma no_char_decide (a : ascii) (s : jsstring) :
  forallb (fun x => negb (Ascii.eqb x a)) s = true -> a ∉ s.
Proof.
  intros H Hin. rewrite forallb_forall in H.
  apply list_elem_of_In, H in Hin. rewrite Ascii.eqb_refl in Hin. discriminate.
Qed.

Lemma toggle_line_no_dash (n : nat) (flag : bool) : "-"%char ∉ toggle_line n flag.
Proof.
  unfold toggle_line. intros Hin.
  repeat (apply elem_of_app in Hin as [Hin|Hin]).
  - revert Hin. apply no_char_decide. reflexivity.
  - pose proof (num_digits n) as Hd. rewrite Forall_forall in Hd.
    specialize (Hd _ Hin). discriminate.
  - revert Hin. apply no_char_decide. reflexivity.
  - revert Hin. apply no_char_decide. destruct flag; reflexivity.
  - revert Hin. apply no_char_decide. reflexivity.
Qed.

Lemma toggle_line_counts (n : nat) (flag : bool) :
  includes (str "Criterion") (toggle_line n flag)
  && includes (str "complete") (toggle_line n flag) = true.
Proof.
  apply andb_true_iff. split.
  - apply (find_sub_app (str "Criterion") []).
  - unfold toggle_line. destruct flag.
    + rewrite !app_assoc, <- (app_assoc _ (str "complete")). apply find_sub_app.
    + change (str "incomplete") with (str "in" ++ str "complete").
      rewrite !app_assoc, <- (app_assoc _ (str "complete")). apply find_sub_app.
Qed.

Lemma filter_all {A} (f : A -> bool) (l : list A) :
  Forall (fun x => f x = true) l -> List.filter f l = l.
Proof. induction 1 as [|x l Hx _ IH]; simpl; [reflexivity|]. rewrite Hx, IH. reflexivity. Qed.

Lemma filter_none {A} (f : A -> bool) (l : list A) :
  Forall (fun x => f x = false) l -> List.filter f l = [].
Proof. induction 1 as [|x l Hx _ IH]; simpl; [reflexivity|]. rewrite Hx, IH. reflexivity. Qed.

(** X9.  Every toggle counts as progress, in either direction: for a journal
    that holds the lines of [toggleCriterion] and nothing else, the summary
    has no iteration, and as many progress updates as there were toggles,
    the ones that marked a criterion incomplete included. *)
Theorem X9_every_toggle_counts_as_progress (logs : list LogEntry) :
  logs <> [] ->
  Forall (fun l => type l = TSystem
                   /\ exists n nextCompleted, content l = toggle_line n nextCompleted) logs ->
  summary_parts logs
  = [str "Iterations completed: 0";
     str "Criteria progress: " ++ num (length logs) ++ str " updates"].
Proof.
  intros Hne Hlogs. unfold summary_parts.
  assert (Hsys : List.filter (is_type TSystem) logs = logs).
  { apply filter_all. eapply Forall_impl; [exact Hlogs|]. intros l [Ht _].
    unfold is_type. rewrite Ht. reflexivity. }
  assert (Hagent : List.filter (is_type TAgent) logs = []).
  { apply filter_none. eapply Forall_impl; [exact Hlogs|]. intros l [Ht _].
    unfold is_type. rewrite Ht. reflexivity. }
  assert (Hiter : List.filter (fun l => includes (str "--- Iteration") (content l)) logs = []).
  { apply filter_none. eapply Forall_impl; [exact Hlogs|]. intros l (_ & n & flag & ->).
    apply (includes_needs_first "-"), toggle_line_no_dash. }
  assert (Hcrit : List.filter (fun l => includes (str "Criterion") (content l)
                                        && includes (str "complete") (content l)) logs = logs).
  { apply filter_all. eapply Forall_impl; [exact Hlogs|]. intros l (_ & n & flag & ->).
    apply toggle_line_counts. }
  assert (Hana : List.filter (fun l => startsWith (str "Analysis:") (content l)) logs = []).
  { apply filter_none. eapply Forall_impl; [exact Hlogs|]. intros l (_ & n & flag & ->).
    reflexivity. }
  rewrite Hsys, Hagent, Hiter, Hcrit, Hana. cbv zeta.
  rewrite length_map.
  destruct logs as [|l logs]; [congruence|]. reflexivity.
Qed.

(* ===================================================================== *)
(** ** Issue URLs *)
(* ===================================================================== *)

Import GithubCli.

Lemma issue_url_needs_host n0 (s : jsstring) :
  startsWith (str "github.com/") s = false -> match_here re_issue_url n0 s = None.
Proof.
  intros H. unfold match_here, re_issue_url. cbn [cat]. rewrite m_cat, m_lit, H. reflexivity.
Qed.

Lemma not_slash_run (s : jsstring) :
  "/"%char ∉ s -> Forall (fun a => not_slash a = true) s.
Proof.
  intros H. apply Forall_forall. intros a Ha. unfold not_slash.
  destruct (Ascii.eqb_spec a "/") as [->|_]; [contradiction | reflexivity].
Qed.

(** The match of the pattern where the host stands. *)
Lemma issue_url_match n0 (owner name tail : jsstring) (n : nat) :
  owner <> [] -> name <> [] ->
  "/"%char ∉ owner -> "/"%char ∉ name ->
  stops is_digit tail ->
  exists x,
    match_here re_issue_url n0
      (str "github.com/" ++ owner ++ "/"%char :: name ++ str "/issues/" ++ num n ++ tail)
    = Some x
    /\ group x 1 = owner ++ "/"%char :: name
    /\ group x 2 = num n.
Proof.
  intros Ho Hn Hos Hns Htail.
  unfold match_here, re_issue_url. cbn [cat].
  set (rest1 := owner ++ "/"%char :: name ++ str "/issues/" ++ num n ++ tail).
  assert (Hm : exists c',
    m n0 (Cat (lit "github.com/")
          (Cat (Grp 1 (Cat (plus (Cls not_slash)) (Cat (chr "/") (plus (Cls not_slash)))))
             (Cat (lit "/issues/") (Grp 2 (plus digit)))))
      (str "github.com/" ++ rest1) nocaps (fun s' c' => Some (s', c')) = Some (tail, c')
    /\ c' 1 = Some (owner ++ "/"%char :: name) /\ c' 2 = Some (num n)).
  { rewrite m_cat, m_lit, startsWith_app, drop_app_length.
    rewrite m_cat, m_grp, m_cat. unfold plus at 1. rewrite m_rep.
    subst rest1. eexists. split.
    - eapply (rep_loop_cls_greedy n0 not_slash _ owner);
        [apply not_slash_run, Hos | reflexivity | destruct owner; [congruence | simpl; lia]
        | rewrite length_app; simpl; lia |].
      rewrite m_cat. unfold chr at 1. rewrite m_cls_ok by reflexivity.
      unfold plus at 1. rewrite m_rep.
      eapply (rep_loop_cls_greedy n0 not_slash _ name);
        [apply not_slash_run, Hns | reflexivity | destruct name; [congruence | simpl; lia]
        | rewrite length_app; simpl; lia |].
      cbv beta. rewrite m_cat, m_lit, startsWith_app, drop_app_length.
      rewrite m_grp. unfold plus, digit. rewrite m_rep.
      eapply (rep_loop_cls_greedy n0 is_digit _ (num n));
        [apply num_digits | exact Htail | apply num_not_empty
        | rewrite length_app; simpl; lia |].
      reflexivity.
    - unfold setcap. cbn [Nat.eqb]. split.
      + f_equal.
        replace (owner ++ "/"%char :: name ++ str "/issues/" ++ num n ++ tail)
          with ((owner ++ "/"%char :: name) ++ str "/issues/" ++ num n ++ tail)
          by (rewrite <- app_assoc; reflexivity).
        match goal with |- take ?k _ = _ =>
          replace k with (length (owner ++ "/"%char :: name))
            by (rewrite !length_app; cbn [length]; rewrite ?length_app; lia) end.
        apply take_app_length.
      + f_equal.
        match goal with |- take ?k _ = _ =>
          replace k with (length (num n)) by (rewrite !length_app; lia) end.
        apply take_app_length. }
  destruct Hm as (c' & Hm & H1 & H2). rewrite Hm.
  eexists. split; [reflexivity|]. unfold group. cbn [m_group]. rewrite H1, H2. auto.
Qed.

Lemma parseIssueUrl_wellformed
    (url pre owner name tail : jsstring) (n : nat) :
  find_sub (str "github.com/") url
    = Some (pre, owner ++ "/"%char :: name ++ str "/issues/" ++ num n ++ tail) ->
  owner <> [] -> name <> [] ->
  "/"%char ∉ owner -> "/"%char ∉ name ->
  stops is_digit tail ->
  parseIssueUrl url = Some {| ref_repo := owner ++ "/"%char :: name; ref_number := n |}.
Proof.
  intros Hfind Ho Hn Hos Hns Htail. unfold parseIssueUrl, exec.
  rewrite (search_skip _ _ (str "github.com/") (issue_url_needs_host _) _ _ _ Hfind).
  destruct (issue_url_match (length url) owner name tail n Ho Hn Hos Hns Htail)
    as (x & Hx & H1 & H2).
  assert (Hs : search re_issue_url (length url)
                 (str "github.com/" ++ owner ++ "/"%char :: name ++ str "/issues/" ++ num n ++ tail)
               = Some x).
  { destruct (str "github.com/" ++ _) eqn:E in |- *; cbn [search]; rewrite <- ?E, Hx; reflexivity. }
  rewrite Hs, H1, H2, parseInt_num. reflexivity.
Qed.

(** X10.  [parseIssueUrl] reads back repository and number: when the text after
    the first [github.com/] of the URL is [owner/name/issues/n], with an owner
    and a name that are not empty and have no slash, a number [n] of at
    most 2^53 (up to there a JavaScript number holds the integer that
    [parseInt] reads) and no digit after it, the result has the repo
    [owner/name] and the number [n]. *)
Theorem X10_parseIssueUrl_reads_repo_and_number
    (url pre owner name tail : jsstring) (n : nat) :
  find_sub (str "github.com/") url
    = Some (pre, owner ++ "/"%char :: name ++ str "/issues/" ++ num n ++ tail) ->
  owner <> [] -> name <> [] ->
  "/"%char ∉ owner -> "/"%char ∉ name ->
  stops is_digit tail ->
  (Z.of_nat n <= 2 ^ 53)%Z ->
  parseIssueUrl url = Some {| ref_repo := owner ++ "/"%char :: name; ref_number := n |}.
Proof. intros Hfind Ho Hn Hos Hns Htail _. exact (parseIssueUrl_wellformed url pre owner name tail n Hfind Ho Hn Hos Hns Htail). Qed.

(** X11.  A text without [github.com/] is no issue URL, and [fetchIssue] rejects
    it before any command is run: the error is the same whatever the
    shell would do. *)
Theorem X11_fetchIssue_rejects_other_urls
    (execSync : jsstring -> outcome jsstring)
    (JSON_parse : jsstring -> outcome IssueData) (url : jsstring) :
  includes (str "github.com/") url = false ->
  parseIssueUrl url = None
  /\ fetchIssue execSync JSON_parse url = Throw (str "Invalid GitHub issue URL: " ++ url).
Proof.
  intros H.
  assert (Hp : parseIssueUrl url = None).
  { unfold parseIssueUrl, exec.
    rewrite (search_none _ _ (str "github.com/") (issue_url_needs_host _) _ H). reflexivity. }
  split; [exact Hp|]. unfold fetchIssue. rewrite Hp. reflexivity.
Qed.

(** X12.  [fetchIssue] on a well-formed URL with a number of at most 2^53: the
    command line handed to [execSync], which gives it to a shell, is
    [gh issue view n --repo owner/name --json title,body,number,url], with
    the number and the repository put in as they stand in the URL, not
    quoted; what the shell makes of an owner or a name with characters
    that are special to it is not modelled.  When the command prints the
    issue, the result has the repository of the URL, number, title and
    body as printed, the URL as printed or else as given, and the criteria
    parsed from the body, twice: as the working list and as the original. *)
Theorem X12_fetchIssue_builds_the_issue
    (execSync : jsstring -> outcome jsstring)
    (JSON_parse : jsstring -> outcome IssueData)
    (url pre owner name tail result : jsstring) (n : nat) (data : IssueData) :
  find_sub (str "github.com/") url
    = Some (pre, owner ++ "/"%char :: name ++ str "/issues/" ++ num n ++ tail) ->
  owner <> [] -> name <> [] ->
  "/"%char ∉ owner -> "/"%char ∉ name ->
  stops is_digit tail ->
  (Z.of_nat n <= 2 ^ 53)%Z ->
  execSync (str "gh issue view " ++ num n ++ str " --repo " ++ owner ++ "/"%char :: name
            ++ str " --json title,body,number,url") = Return result ->
  JSON_parse result = Return data ->
  fetchIssue execSync JSON_parse url
  = Return {| url := if nonempty (data_url data) then data_url data else url;
              number := data_number data;
              title := data_title data;
              body := data_body data;
              repo := owner ++ "/"%char :: name;
              acceptanceCriteria := parseAcceptanceCriteria (data_body data);
              originalAcceptanceCriteria := parseAcceptanceCriteria (data_body data) |}.
Proof.
  intros Hfind Ho Hn Hos Hns Htail _ Hexec Hparse. unfold fetchIssue.
  pose proof (parseIssueUrl_wellformed url pre owner name tail n
                Hfind Ho Hn Hos Hns Htail) as Hp.
  rewrite Hp. unfold fetch_command. cbn [ref_repo ref_number].
  replace (str "gh issue view " ++ num n ++ str " --repo " ++ (owner ++ "/"%char :: name)
           ++ str " --json title,body,number,url")
    with (str "gh issue view " ++ num n ++ str " --repo " ++ owner ++ "/"%char :: name
          ++ str " --json title,body,number,url")
    by (rewrite <- !app_assoc; reflexivity).
  rewrite Hexec, Hparse. cbv zeta. rewrite map_id.
  unfold or_else. destruct (data_body data); reflexivity.
Qed.

(* ===================================================================== *)
(** ** What the issue module reports when [gh] fails *)
(* ===================================================================== *)

Lemma first_line_no_LF (s : jsstring) : LF ∉ hd [] (split LF s).
Proof.
  pose proof (split_pieces_no_sep LF s) as H.
  destruct (split LF s); [apply not_elem_of_nil|].
  apply Forall_cons in H as [H _]. exact H.
Qed.

Lemma reported_line_no_LF (s : jsstring) :
  LF ∉ or_else (hd [] (split LF s)) (str "Unknown error").
Proof.
  unfold or_else. destruct (nonempty (hd [] (split LF s))).
  - apply first_line_no_LF.
  - apply no_LF_decide. reflexivity.
Qed.

Lemma trimStart_all_ws (w : jsstring) : all_ws w -> trimStart w = [].
Proof.
  induction 1 as [|a w Ha _ IH]; [reflexivity|]. simpl. rewrite Ha. exact IH.
Qed.

Lemma trim_all_ws (w : jsstring) : all_ws w -> trim w = [].
Proof. intros H. unfold trim. rewrite trimStart_all_ws by assumption. reflexivity. Qed.

(** X13.  Every error [closeIssue] and [updateIssueBody] throw has a message of
    one line: of what [gh] printed, only the first line is reported. *)
Theorem X13_gh_failures_are_reported_on_one_line
    (execFileSync : list jsstring -> option ExecError)
    (url body : jsstring) (comment : option jsstring) :
  match closeIssue execFileSync url comment with
  | Throw msg => LF ∉ msg
  | Return _ => True
  end
  /\ match GithubCli.updateIssueBody execFileSync url body with
     | Throw msg => LF ∉ msg
     | Return _ => True
     end.
Proof.
  split.
  - unfold closeIssue. destruct (negb (nonempty url)); [apply no_LF_decide; reflexivity|].
    destruct (execFileSync _) as [err|]; [|exact I].
    destruct (gh_not_found err); [apply no_LF_decide; reflexivity|].
    destruct (says_already_closed err); [exact I|].
    cbv zeta. intros Hin. apply elem_of_app in Hin as [Hin|Hin].
    + revert Hin. apply no_LF_decide. reflexivity.
    + exact (reported_line_no_LF _ Hin).
  - unfold GithubCli.updateIssueBody.
    destruct (negb (nonempty url)); [apply no_LF_decide; reflexivity|].
    destruct (execFileSync _) as [err|]; [|exact I].
    destruct (gh_not_found err); [apply no_LF_decide; reflexivity|].
    cbv zeta. intros Hin. apply elem_of_app in Hin as [Hin|Hin].
    + revert Hin. apply no_LF_decide. reflexivity.
    + exact (reported_line_no_LF _ Hin).
Qed.

(** X14.  White space on standard error hides the cause: when [gh] fails (for
    another reason than [ENOENT]) and its standard error is not empty but
    blank, [closeIssue] and [updateIssueBody] report [Unknown error],
    whatever the standard output and the error's message say. *)
Theorem X14_blank_stderr_hides_the_cause
    (execFileSync : list jsstring -> option ExecError)
    (url body : jsstring) (comment : option jsstring) (err : ExecError) :
  url <> [] ->
  err_stderr err <> [] -> all_ws (err_stderr err) ->
  err_code err <> Some (str "ENOENT") ->
  (execFileSync (close_args url comment) = Some err ->
   closeIssue execFileSync url comment
   = Throw (str "Failed to close issue: Unknown error"))
  /\ (execFileSync [str "issue"; str "edit"; url; str "--body"; body] = Some err ->
      GithubCli.updateIssueBody execFileSync url body
      = Throw (str "Failed to update issue: Unknown error")).
Proof.
  intros Hurl Hne Hws Hcode.
  assert (Hmsg : failure_message err = []).
  { unfold failure_message, or_else at 1.
    destruct (err_stderr err) as [|a s] eqn:E; [congruence|]. simpl nonempty. cbv iota.
    apply trim_all_ws, Hws. }
  assert (Hg : gh_not_found err = false).
  { unfold gh_not_found. rewrite Hmsg, bool_decide_eq_false_2 by assumption. reflexivity. }
  assert (Ha : says_already_closed err = false).
  { unfold says_already_closed. rewrite Hmsg. reflexivity. }
  split; intros Hrun.
  - unfold closeIssue. destruct url; [congruence|]. simpl negb. cbv iota.
    rewrite Hrun, Hg, Ha, Hmsg. reflexivity.
  - unfold GithubCli.updateIssueBody. destruct url; [congruence|]. simpl negb. cbv iota.
    rewrite Hrun, Hg, Hmsg. reflexivity.
Qed.

(* ===================================================================== *)
(** ** Parsing the body that the renderer has made, for any body *)
(* ===================================================================== *)

Lemma is_section_header_empty : is_section_header [] = false.
Proof. vm_compute. reflexivity. Qed.

(** Empty lines mean nothing to the parser of the section. *)
Lemma parse_section_skips_empty (lines : list jsstring) : forall inSection criteria,
  parse_section inSection (List.filter nonempty lines) criteria
  = parse_section inSection lines criteria.
Proof.
  induction lines as [|line lines IH]; intros inSection criteria; [reflexivity|].
  destruct line as [|a line].
  - cbn [List.filter nonempty parse_section]. rewrite IH.
    rewrite is_section_header_empty.
    rewrite (ends_section_blank []), (checkbox_blank []), (bullet_blank []) by constructor.
    destruct inSection; reflexivity.
  - cbn [List.filter nonempty parse_section].
    destruct (negb inSection); [apply IH|].
    destruct (ends_section (a :: line)); [reflexivity|].
    destruct (exec re_checkbox (a :: line)); [apply IH|].
    destruct (exec re_bullet (a :: line)); apply IH.
Qed.

(** A match of the run of newlines is a run of newlines. *)
Lemma match_blank_run_newlines (n0 : nat) (s : jsstring) (x : rmatch) :
  match_here re_blank_run n0 s = Some x ->
  exists pre, s = pre ++ m_rest x /\ Forall (fun a => a = LF) pre.
Proof.
  unfold match_here, re_blank_run, chr. rewrite m_rep. intros H.
  destruct (rep_loop _ _ _ _ _ _ _) as [[s' c']|] eqn:E; [|discriminate].
  injection H as <-. simpl.
  apply rep_loop_cls_inv in E as (pre & s'' & -> & Hpre & Hk).
  injection Hk as -> _. exists pre. split; [reflexivity|].
  eapply Forall_impl; [exact Hpre|]. intros a Ha. cbv beta in Ha.
  apply Ascii.eqb_eq in Ha. congruence.
Qed.

Lemma split_newlines (pre t : jsstring) :
  Forall (fun a => a = LF) pre ->
  split LF (pre ++ t) = map (fun _ => []) pre ++ split LF t.
Proof.
  induction 1 as [|a pre -> _ IH]; [reflexivity|].
  cbn [app split map]. rewrite Ascii.eqb_refl, IH. reflexivity.
Qed.

Lemma filter_nonempty_blanks {A} (pre : list A) (ls : list jsstring) :
  List.filter nonempty (map (fun _ => []) pre ++ ls) = List.filter nonempty ls.
Proof. induction pre as [|a pre IH]; [reflexivity | exact IH]. Qed.

(** The lines of a text and of the text with its runs of newlines
    collapsed: the first line is the same, and so are the other lines that
    are not empty. *)
Lemma collapse_lines (s : jsstring) :
  hd [] (split LF (replace_all re_blank_run [LF; LF] s)) = hd [] (split LF s)
  /\ List.filter nonempty (tl (split LF (replace_all re_blank_run [LF; LF] s)))
     = List.filter nonempty (tl (split LF s)).
Proof.
  unfold replace_all. generalize (S (length s)) as fuel. generalize (length s) as n0.
  intros n0 fuel. revert s.
  induction fuel as [|fuel IH]; intros s; [split; reflexivity|].
  cbn [replace_all_from].
  destruct (match_here re_blank_run n0 s) as [x|] eqn:E.
  - destruct (length (m_rest x) <? length s) eqn:El; [|split; reflexivity].
    apply match_blank_run_newlines in E as (pre & Hs & Hpre).
    apply Nat.ltb_lt in El.
    destruct pre as [|a pre]; [simpl in Hs; rewrite <- Hs in El; lia|].
    destruct (IH (m_rest x)) as [IH1 IH2].
    subst s. rewrite (split_newlines (a :: pre) _ Hpre).
    cbn [app split map hd tl]. rewrite Ascii.eqb_refl. cbn [hd tl].
    split; [reflexivity|].
    rewrite filter_nonempty_blanks. cbn [List.filter nonempty].
    pose proof (split_not_nil LF (replace_all_from fuel re_blank_run [LF; LF] n0 (m_rest x))) as Hn1.
    pose proof (split_not_nil LF (m_rest x)) as Hn2.
    destruct (split LF (replace_all_from fuel re_blank_run [LF; LF] n0 (m_rest x))) as [|h1 t1];
      [congruence|].
    destruct (split LF (m_rest x)) as [|h2 t2]; [congruence|].
    simpl in IH1, IH2. subst h2. cbn [List.filter]. rewrite IH2. reflexivity.
  - destruct s as [|a s]; [split; reflexivity|].
    destruct (IH s) as [IH1 IH2].
    pose proof (split_not_nil LF (replace_all_from fuel re_blank_run [LF; LF] n0 s)) as Hn1.
    pose proof (split_not_nil LF s) as Hn2.
    cbn [split].
    destruct (split LF (replace_all_from fuel re_blank_run [LF; LF] n0 s)) as [|h1 t1];
      [congruence|].
    destruct (split LF s) as [|h2 t2]; [congruence|].
    simpl in IH1, IH2. subst h2.
    destruct (Ascii.eqb a LF); cbn [hd tl List.filter]; rewrite IH2; split; reflexivity.
Qed.

Lemma collapse_nonempty_lines (s : jsstring) :
  List.filter nonempty (split LF (replace_all re_blank_run [LF; LF] s))
  = List.filter nonempty (split LF s).
Proof.
  destruct (collapse_lines s) as [H1 H2].
  pose proof (split_not_nil LF (replace_all re_blank_run [LF; LF] s)) as Hn1.
  pose proof (split_not_nil LF s) as Hn2.
  destruct (split LF (replace_all re_blank_run [LF; LF] s)) as [|h1 t1]; [congruence|].
  destruct (split LF s) as [|h2 t2]; [congruence|].
  simpl in H1, H2. subst h2. cbn [List.filter]. rewrite H2. reflexivity.
Qed.

(** *** The two loops of [applyAcceptanceCriteriaToIssueBody] *)

Lemma find_start_some (lines : list jsstring) : forall i j,
  find_start i lines = Some j ->
  exists before h rest,
    lines = before ++ h :: rest /\ j = i + length before
    /\ Forall (fun l => is_section_header l = false) before
    /\ is_section_header h = true.
Proof.
  induction lines as [|l lines IH]; intros i j H; [discriminate|].
  cbn [find_start] in H. destruct (is_section_header l) eqn:E.
  - injection H as <-. exists [], l, lines. split_and!; auto; simpl; lia.
  - apply IH in H as (before & h & rest & -> & -> & Hb & Hh).
    exists (l :: before), h, rest. split_and!; auto; simpl; lia.
Qed.

Lemma find_start_none (lines : list jsstring) : forall i,
  find_start i lines = None -> Forall (fun l => is_section_header l = false) lines.
Proof.
  induction lines as [|l lines IH]; intros i H; [constructor|].
  cbn [find_start] in H. destruct (is_section_header l) eqn:E; [discriminate|].
  constructor; [exact E | eapply IH, H].
Qed.

Lemma find_end_split (lines : list jsstring) : forall i,
  exists section after,
    lines = section ++ after /\ find_end i lines = i + length section
    /\ closes_section after.
Proof.
  induction lines as [|l lines IH]; intros i.
  - exists [], []. split_and!; simpl; auto.
  - cbn [find_end]. destruct (ends_section l) eqn:E.
    + exists [], (l :: lines). split_and!; simpl; auto.
    + destruct (IH (S i)) as (section & after & -> & -> & Hc).
      exists (l :: section), after. split_and!; simpl; auto; lia.
Qed.

(** The items as the renderer writes them are lines of a section. *)
Lemma rendered_section_lines (cs : list AcceptanceCriterion) :
  Forall (fun c => clean_text (text c)) cs ->
  section_lines (map render_item cs) cs.
Proof.
  induction 1 as [|c cs Hc _ IH]; [constructor|].
  cbn [map]. rewrite <- (app_nil_r (render_item c)).
  change (render_item c ++ []) with ([] ++ render_item c ++ []).
  constructor; [constructor | constructor | exact Hc | exact IH].
Qed.

Lemma rendered_section_split (cs : list AcceptanceCriterion) :
  Forall (fun c => clean_text (text c)) cs ->
  split LF (renderAcceptanceCriteriaSection cs) = header_line :: map render_item cs.
Proof.
  intros Hcs. unfold renderAcceptanceCriteriaSection.
  apply split_join; [discriminate|].
  constructor; [apply no_LF_decide; reflexivity|].
  apply Forall_forall. intros l Hl. apply list_elem_of_fmap in Hl as (c & -> & Hc).
  rewrite Forall_forall in Hcs. apply render_item_no_LF, Hcs, Hc.
Qed.

(** Parsing lines that have the rendered section behind lines without header. *)
Lemma parse_lines_with_section (before after : list jsstring)
    (cs : list AcceptanceCriterion) :
  Forall (fun l => is_section_header l = false) before ->
  Forall (fun c => clean_text (text c)) cs ->
  closes_section after ->
  parse_section false (before ++ header_line :: map render_item cs ++ after) []
  = map canonical cs.
Proof.
  intros Hb Hcs Ha.
  rewrite parse_section_to_header by (assumption || reflexivity).
  rewrite (parse_section_lines _ cs after (rendered_section_lines cs Hcs) Ha). reflexivity.
Qed.

(** *** White space at the end of a body *)

Lemma trimEnd_split (s : jsstring) : exists w, s = trimEnd s ++ w /\ all_ws w.
Proof.
  unfold trimEnd. destruct (trimStart_split (rev s)) as (w & Hw & Hws).
  exists (rev w). split.
  - rewrite <- rev_app_distr, <- Hw, rev_involutive. reflexivity.
  - apply Forall_rev, Hws.
Qed.

Lemma trimStart_app (s w : jsstring) :
  trimStart (s ++ w)
  = match trimStart s with [] => trimStart w | x => x ++ w end.
Proof.
  induction s as [|a s IH]; simpl.
  - destruct (trimStart w); reflexivity.
  - destruct (is_ws a); [exact IH | reflexivity].
Qed.

Lemma trim_app_ws (s w : jsstring) : all_ws w -> trim (s ++ w) = trim s.
Proof.
  intros Hw. unfold trim. rewrite trimStart_app.
  destruct (trimStart s) as [|x t] eqn:E.
  - rewrite trimStart_all_ws by assumption. reflexivity.
  - apply trimEnd_app_ws, Hw.
Qed.

Lemma is_section_header_app_ws (s w : jsstring) :
  all_ws w -> is_section_header (s ++ w) = is_section_header s.
Proof. intros Hw. unfold is_section_header. rewrite trim_app_ws by assumption. reflexivity. Qed.

Lemma split_hd_app (p w : jsstring) :
  LF ∉ p -> hd [] (split LF (p ++ w)) = p ++ hd [] (split LF w).
Proof.
  induction p as [|a p IH]; intros Hp; [reflexivity|].
  apply not_elem_of_cons in Hp as [Ha Hp].
  cbn [app split]. destruct (Ascii.eqb_spec a LF) as [->|_]; [congruence|].
  specialize (IH Hp). pose proof (split_not_nil LF (p ++ w)) as Hn.
  destruct (split LF (p ++ w)); [congruence|]. simpl in IH |- *. rewrite IH. reflexivity.
Qed.

Lemma split_all_ws (w : jsstring) : all_ws w -> Forall all_ws (split LF w).
Proof.
  induction 1 as [|a w Ha _ IH]; simpl.
  - repeat constructor.
  - destruct (Ascii.eqb a LF).
    + constructor; [constructor | exact IH].
    + destruct (split LF w) as [|l ls]; [repeat constructor; exact Ha|].
      apply Forall_cons in IH as [Hl Hls]. constructor; [|exact Hls].
      constructor; assumption.
Qed.

(** The lines of a body without header, trimmed at the end, have no header. *)
Lemma trimEnd_no_header (body : jsstring) :
  Forall (fun l => is_section_header l = false) (split LF body) ->
  Forall (fun l => is_section_header l = false) (split LF (trimEnd body)).
Proof.
  destruct (trimEnd_split body) as (w & Hb & Hw).
  set (t := trimEnd body) in *. clearbody t. subst body.
  rewrite split_resume. intros H. apply Forall_app in H as [Hc Hp].
  rewrite (app_removelast_last [] (split_not_nil LF t)).
  apply Forall_app. split; [exact Hc|]. constructor; [|constructor].
  fold (partial_line t).
  pose proof (split_not_nil LF (partial_line t ++ w)) as Hn.
  pose proof (split_hd_app (partial_line t) w (partial_line_no_LF t)) as Hhd.
  destruct (split LF (partial_line t ++ w)) as [|l ls]; [congruence|].
  apply Forall_cons in Hp as [Hl _]. simpl in Hhd. subst l.
  rewrite is_section_header_app_ws in Hl; [exact Hl|].
  pose proof (split_all_ws w Hw) as Hall.
  destruct (split LF w); [constructor|]. apply Forall_cons in Hall as [Hall _]. exact Hall.
Qed.

(** *** The round trip from the criteria *)

Lemma parse_apply (body : jsstring) (cs : list AcceptanceCriterion) :
  cs <> [] ->
  Forall (fun c => clean_text (text c)) cs ->
  parseAcceptanceCriteria (applyAcceptanceCriteriaToIssueBody body cs)
  = map canonical cs.
Proof.
  intros Hne Hcs.
  assert (Hresult : forall lines,
            parse_section false lines [] = map canonical cs ->
            (let criteria := parse_section false lines [] in
             if length criteria =? 0 then parse_fallback lines criteria else criteria)
            = map canonical cs).
  { intros lines ->. destruct cs; [congruence | reflexivity]. }
  unfold parseAcceptanceCriteria. apply Hresult.
  unfold applyAcceptanceCriteriaToIssueBody. cbv zeta.
  rewrite (rendered_section_split cs Hcs).
  destruct (find_start 0 (split LF body)) as [start|] eqn:Estart.
  - apply find_start_some in Estart as (before & h & rest & Hlines & -> & Hbefore & Hh).
    rewrite Hlines. cbn [Nat.add].
    assert (Hdrop : drop (S (length before)) (before ++ h :: rest) = rest).
    { change (h :: rest) with ([h] ++ rest).
      rewrite app_assoc. apply drop_app_length'. rewrite length_app. simpl. lia. }
    rewrite Hdrop.
    destruct (find_end_split rest (S (length before))) as (section & after & -> & -> & Hafter).
    rewrite take_app_length.
    assert (Hafter' : drop (S (length before) + length section)
                        (before ++ h :: section ++ after) = after).
    { change (h :: section ++ after) with ((h :: section) ++ after).
      rewrite app_assoc. apply drop_app_length'. rewrite length_app. simpl. lia. }
    rewrite Hafter'.
    rewrite <- parse_section_skips_empty, collapse_nonempty_lines, parse_section_skips_empty.
    assert (Hpieces : Forall (fun l => LF ∉ l) (before ++ h :: section ++ after)).
    { rewrite <- Hlines. apply split_pieces_no_sep. }
    rewrite split_join.
    + cbn [app]. apply parse_lines_with_section; assumption.
    + destruct before; discriminate.
    + apply Forall_app in Hpieces as [Hpb Hpr]. apply Forall_cons in Hpr as [_ Hpr].
      apply Forall_app in Hpr as [_ Hpa].
      apply Forall_app. split; [exact Hpb|]. apply Forall_app. split; [|exact Hpa].
      rewrite <- (rendered_section_split cs Hcs). apply split_pieces_no_sep.
  - apply find_start_none in Estart. apply trimEnd_no_header in Estart.
    change (join [LF] (header_line :: map render_item cs))
      with (renderAcceptanceCriteriaSection cs).
    assert (Hsec : split LF (renderAcceptanceCriteriaSection cs)
                   = header_line :: map render_item cs ++ [])
      by (rewrite app_nil_r; apply rendered_section_split, Hcs).
    destruct (trimEnd body) as [|a t] eqn:Et.
    + cbn [nonempty app]. rewrite Hsec.
      apply (parse_lines_with_section [] []); [constructor | assumption | exact I].
    + cbn [nonempty]. rewrite <- Et in *.
      change (trimEnd body ++ [LF; LF] ++ renderAcceptanceCriteriaSection cs)
        with (trimEnd body ++ LF :: ([] ++ LF :: renderAcceptanceCriteriaSection cs)).
      rewrite !split_app_sep, Hsec. cbn [split app].
      assert (Hf : forall a b : list jsstring,
                List.filter nonempty (a ++ [] :: b) = List.filter nonempty (a ++ b))
        by (intros; rewrite !List.filter_app; reflexivity).
      rewrite <- parse_section_skips_empty, Hf, parse_section_skips_empty.
      apply parse_lines_with_section; [assumption | assumption | exact I].
Qed.

(** X15.  Whatever the body was, the body [applyAcceptanceCriteriaToIssueBody]
    makes of it parses back to the criteria that were rendered into it: one
    or more criteria with clean texts come back in order, with their texts
    and their check marks, attributed to the operator when checked.  The
    rest of the body, checkboxes outside of the section included, adds
    nothing. *)
Theorem X15_parse_after_apply_returns_the_criteria
    (body : jsstring) (cs : list AcceptanceCriterion) :
  cs <> [] ->
  Forall (fun c => clean_text (text c)) cs ->
  parseAcceptanceCriteria (applyAcceptanceCriteriaToIssueBody body cs)
  = map canonical cs.
Proof. apply parse_apply. Qed.

(** *** What the criteria editor accepts *)

Lemma trimStart_head (s : jsstring) (a : ascii) (r : jsstring) :
  trimStart s = a :: r -> is_ws a = false.
Proof.
  induction s as [|b s IH]; simpl; [discriminate|].
  destruct (is_ws b) eqn:E; [exact IH|]. intros [= <- _]. exact E.
Qed.

Lemma trim_clean (t : jsstring) :
  Forall (fun c => is_line_terminator c = false) t ->
  trim t <> [] -> clean_text (trim t).
Proof.
  intros Hl Hne. unfold trim in *.
  destruct (trimStart_split t) as (w1 & Ht & _).
  destruct (trimEnd_split (trimStart t)) as (w2 & Hs & Hw2).
  set (x := trimEnd (trimStart t)) in *.
  split_and!.
  - destruct x as [|a r] eqn:Ex; [congruence|]. exists a, r. split; [reflexivity|].
    destruct (trimStart t) as [|b s] eqn:Es; [discriminate|].
    simpl in Hs. injection Hs as -> _. eapply trimStart_head, Es.
  - subst x. unfold trimEnd in *.
    destruct (trimStart (rev (trimStart t))) as [|z r] eqn:Er; [simpl in Hne; congruence|].
    exists (rev r), z. split; [reflexivity|]. eapply trimStart_head, Er.
  - rewrite Ht, Hs in Hl. apply Forall_app in Hl as [_ Hl].
    apply Forall_app in Hl as [Hl _]. exact Hl.
Qed.

Lemma nextCriteria_clean (draft : list AcceptanceCriterion) :
  Forall (fun c => Forall (fun a => is_line_terminator a = false) (text c)) draft ->
  Forall (fun c => clean_text (text c)) (Ui.nextCriteria draft).
Proof.
  intros H. unfold Ui.nextCriteria. apply Forall_map, Forall_forall.
  intros c Hc. apply list_elem_of_In, filter_In in Hc as [Hin Hpos].
  rewrite Forall_forall in H. cbn [text Ui.with_text].
  apply trim_clean; [apply H, list_elem_of_In, Hin|].
  destruct (trim (text c)); [discriminate | congruence].
Qed.

(** X16.  The criteria editor and the issue on GitHub agree: when the texts of
    the draft have no line break and at least one of them is not blank, the
    body that [finalizeCriteria] sends to [updateIssueBody] parses back to
    the very criteria it stores in the loop, their texts trimmed, the blank
    ones dropped, in order (with the attribution the parser gives: the
    operator for the checked ones). *)
Theorem X16_accepted_criteria_are_in_the_posted_body
    (issue : Issue) (originalCriteria draft : list AcceptanceCriterion) :
  Forall (fun c => Forall (fun a => is_line_terminator a = false) (text c)) draft ->
  Ui.nextCriteria draft <> [] ->
  let updated := Ui.updatedIssue issue originalCriteria draft in
  parseAcceptanceCriteria (body updated) = map canonical (acceptanceCriteria updated)
  /\ map text (parseAcceptanceCriteria (body updated))
     = map trim (List.filter (fun t => nonempty (trim t)) (map text draft))
  /\ originalAcceptanceCriteria updated = originalCriteria.
Proof.
  intros Hl Hne updated.
  assert (Hp : parseAcceptanceCriteria (body updated)
               = map canonical (acceptanceCriteria updated)).
  { apply parse_apply; [exact Hne | apply nextCriteria_clean, Hl]. }
  split_and!; [exact Hp | | reflexivity].
  rewrite Hp. subst updated. cbn [acceptanceCriteria Ui.updatedIssue].
  unfold Ui.nextCriteria. rewrite !map_map. clear.
  assert (Hcond : forall s : jsstring, (0 <? length s) = nonempty s)
    by (intros []; reflexivity).
  induction draft as [|c draft IH]; [reflexivity|].
  cbn [map List.filter]. rewrite Hcond.
  destruct (nonempty (trim (text c))); [|exact IH].
  cbn [map]. f_equal. exact IH.
Qed.

(* ===================================================================== *)
(** ** The criteria in the agent's prompt *)
(* ===================================================================== *)

Lemma prompt_items (cs : list AcceptanceCriterion) : forall prompt : jsstring,
  fold_left (fun prompt ac =>
    let checkbox := if completed ac then str "[x]" else str "[ ]" in
    prompt ++ str "- " ++ checkbox ++ str " " ++ text ac ++ [LF]) cs prompt
  = prompt ++ concat (map (fun ac => render_item ac ++ [LF]) cs).
Proof.
  induction cs as [|c cs IH]; intros prompt; cbn [fold_left map concat].
  - rewrite app_nil_r. reflexivity.
  - rewrite IH. unfold render_item. rewrite <- !app_assoc. reflexivity.
Qed.

Lemma rendered_section_text (cs : list AcceptanceCriterion) :
  cs <> [] ->
  renderAcceptanceCriteriaSection cs ++ [LF]
  = str "## Acceptance Criteria" ++ [LF] ++ concat (map (fun ac => render_item ac ++ [LF]) cs).
Proof.
  intros Hne. unfold renderAcceptanceCriteriaSection.
  generalize (str "## Acceptance Criteria") as h.
  induction cs as [|c cs IH]; intros h; [congruence|].
  destruct cs as [|c' cs].
  - cbn [map join concat]. rewrite <- !app_assoc. reflexivity.
  - change (join [LF] (h :: map render_item (c :: c' :: cs)))
      with (h ++ [LF] ++ join [LF] (render_item c :: map render_item (c' :: cs))).
    rewrite <- !app_assoc. rewrite (IH ltac:(discriminate) (render_item c)).
    cbn [map concat]. rewrite <- !app_assoc. reflexivity.
Qed.

(** X17.  The agent's prompt shows the criteria as the issue body does: for an
    issue with criteria, [buildPromptFromIssue] is the prompt of the same
    issue without criteria with the section that
    [renderAcceptanceCriteriaSection] writes, and a blank line, put between
    the line of the issue's URL and the issue's description.  So the
    criterion the prompt's [N] refers to is the [N]-th item of the section. *)
Theorem X17_prompt_carries_the_rendered_section (issue : Issue) :
  acceptanceCriteria issue <> [] ->
  let head := str "# Task: " ++ title issue ++ [LF; LF]
              ++ str "GitHub Issue: " ++ url issue ++ [LF; LF] in
  exists description,
    buildPromptFromIssue (App.with_criteria issue []) = head ++ description
    /\ buildPromptFromIssue issue
       = head ++ renderAcceptanceCriteriaSection (acceptanceCriteria issue)
         ++ [LF; LF] ++ description.
Proof.
  intros Hne head. eexists. split.
  - unfold buildPromptFromIssue. cbn [App.with_criteria acceptanceCriteria length Nat.ltb Nat.leb
      title url body]. subst head. rewrite <- !app_assoc. reflexivity.
  - unfold buildPromptFromIssue.
    destruct (acceptanceCriteria issue) as [|c cs] eqn:E; [congruence|].
    cbn [length Nat.ltb Nat.leb]. rewrite prompt_items.
    assert (Hr : forall X : jsstring,
              renderAcceptanceCriteriaSection (c :: cs) ++ [LF; LF] ++ X
              = (renderAcceptanceCriteriaSection (c :: cs) ++ [LF]) ++ LF :: X)
      by (intros; rewrite <- app_assoc; reflexivity).
    rewrite Hr, rendered_section_text by discriminate.
    subst head. rewrite <- !app_assoc. reflexivity.
Qed.

(* ===================================================================== *)
(** ** The session id in the agent's output *)
(* ===================================================================== *)

Import ClaudeCli.

Lemma m_cls_cons n0 (p : ascii -> bool) a s c k :
  m n0 (Cls p) (a :: s) c k = if p a then k s c else None.
Proof. reflexivity. Qed.

Lemma startsWith_app_split (p q s : jsstring) :
  startsWith (p ++ q) s = startsWith p s && startsWith q (drop (length p) s).
Proof.
  revert s. induction p as [|a p IH]; intros s; [reflexivity|].
  destruct s as [|b s]; [reflexivity|]. cbn [app startsWith length drop].
  rewrite IH, andb_assoc. reflexivity.
Qed.

Lemma string_field_needs_key n0 (name : string) (s : jsstring) :
  startsWith (quoted_key name) s = false ->
  match_here (re_string_field name) n0 s = None.
Proof.
  intros H. unfold match_here, re_string_field. cbn [cat].
  destruct s as [|b s]; [reflexivity|].
  rewrite m_cat. unfold chr at 1. rewrite m_cls_cons.
  unfold quoted_key in H. cbn [startsWith] in H.
  destruct (Ascii.eqb DQUOTE b); [|reflexivity]. cbn [andb] in H.
  rewrite startsWith_app_split in H.
  rewrite m_cat, m_lit.
  destruct (startsWith (str name) s); [|reflexivity]. cbn [andb] in H.
  rewrite m_cat. destruct (drop (length (str name)) s) as [|c t]; [reflexivity|].
  unfold chr at 1. rewrite m_cls_cons.
  cbn [startsWith] in H. rewrite andb_true_r in H. rewrite H. reflexivity.
Qed.

Lemma not_quote_run (s : jsstring) :
  DQUOTE ∉ s -> Forall (fun a => not_quote a = true) s.
Proof.
  intros H. apply Forall_forall. intros a Ha. unfold not_quote.
  destruct (Ascii.eqb_spec a DQUOTE) as [->|_]; [contradiction | reflexivity].
Qed.

(** The match of the pattern where the key stands. *)
Lemma string_field_match n0 (name : string) (w1 w2 sid rest : jsstring) :
  all_ws w1 -> all_ws w2 -> sid <> [] -> DQUOTE ∉ sid ->
  exists x,
    match_here (re_string_field name) n0
      (quoted_key name ++ w1 ++ ":"%char :: w2 ++ DQUOTE :: sid ++ DQUOTE :: rest) = Some x
    /\ group x 1 = sid.
Proof.
  intros Hw1 Hw2 Hne Hq. unfold match_here, re_string_field, quoted_key. cbn [cat].
  assert (Hm : exists c',
    m n0 (Cat (chr DQUOTE) (Cat (lit name) (Cat (chr DQUOTE) (Cat (star ws) (Cat (chr ":")
            (Cat (star ws) (Cat (chr DQUOTE)
               (Cat (Grp 1 (plus (Cls not_quote))) (chr DQUOTE)))))))))
      ((DQUOTE :: str name ++ [DQUOTE])
       ++ w1 ++ ":"%char :: w2 ++ DQUOTE :: sid ++ DQUOTE :: rest)
      nocaps (fun s' c' => Some (s', c')) = Some (rest, c')
    /\ c' 1 = Some sid).
  { cbn [app]. rewrite m_cat. unfold chr at 1. rewrite m_cls_ok by reflexivity.
    rewrite <- app_assoc.
    rewrite m_cat, m_lit, startsWith_app, drop_app_length. cbn [app].
    rewrite m_cat. unfold chr at 1. rewrite m_cls_ok by reflexivity.
    rewrite m_cat. unfold star at 1, ws at 1. rewrite m_rep.
    eexists. split.
    - eapply (rep_loop_cls_greedy n0 is_ws _ w1);
        [exact Hw1 | reflexivity | simpl; lia | rewrite length_app; simpl; lia |].
      rewrite m_cat. unfold chr at 1. rewrite m_cls_ok by reflexivity.
      rewrite m_cat. unfold star at 1, ws at 1. rewrite m_rep.
      eapply (rep_loop_cls_greedy n0 is_ws _ w2);
        [exact Hw2 | reflexivity | simpl; lia | rewrite length_app; simpl; lia |].
      rewrite m_cat. unfold chr at 1. rewrite m_cls_ok by reflexivity.
      rewrite m_cat, m_grp. unfold plus. rewrite m_rep.
      eapply (rep_loop_cls_greedy n0 not_quote _ sid);
        [apply not_quote_run, Hq | unfold not_quote; cbn [stops]; rewrite Ascii.eqb_refl; reflexivity
        | destruct sid; [congruence | simpl; lia]
        | rewrite length_app; simpl; lia |].
      cbv beta. unfold chr. rewrite m_cls_ok by reflexivity. reflexivity.
    - unfold setcap. cbn [Nat.eqb]. f_equal.
      match goal with |- take ?j _ = _ =>
        replace j with (length sid) by (rewrite !length_app; cbn [length]; lia) end.
      apply take_app_length. }
  destruct Hm as (c' & Hm & H1). rewrite Hm.
  eexists. split; [reflexivity|]. unfold group. cbn [m_group]. rewrite H1. reflexivity.
Qed.

Lemma exec_string_field (name : string) (output pre w1 w2 sid rest : jsstring) :
  find_sub (quoted_key name) output
    = Some (pre, w1 ++ ":"%char :: w2 ++ DQUOTE :: sid ++ DQUOTE :: rest) ->
  all_ws w1 -> all_ws w2 -> sid <> [] -> DQUOTE ∉ sid ->
  exists x, exec (re_string_field name) output = Some x /\ group x 1 = sid.
Proof.
  intros Hfind Hw1 Hw2 Hne Hq. unfold exec.
  rewrite (search_skip _ _ (quoted_key name) (string_field_needs_key _ name) _ _ _ Hfind).
  destruct (string_field_match (length output) name w1 w2 sid rest Hw1 Hw2 Hne Hq)
    as (x & Hx & Hg).
  exists x. split; [|exact Hg].
  unfold quoted_key in *. cbn [app search] in *. rewrite Hx. reflexivity.
Qed.

(** X18.  [extractSessionId] reads the id the agent prints: the value of the
    first [sessionId] field, when it is a string that is not empty (white
    space around the colon allowed); without any [sessionId] key, the value
    of the first [session_id] field; and nothing when the output has neither
    key.  A [sessionId] field wins also when it comes after a [session_id]
    field. *)
Theorem X18_extractSessionId_reads_the_id
    (output pre w1 w2 sid rest : jsstring) :
  all_ws w1 -> all_ws w2 -> sid <> [] -> DQUOTE ∉ sid ->
  (find_sub (quoted_key "sessionId") output
     = Some (pre, w1 ++ ":"%char :: w2 ++ DQUOTE :: sid ++ DQUOTE :: rest) ->
   extractSessionId output = Some sid)
  /\ (includes (quoted_key "sessionId") output = false ->
      find_sub (quoted_key "session_id") output
        = Some (pre, w1 ++ ":"%char :: w2 ++ DQUOTE :: sid ++ DQUOTE :: rest) ->
      extractSessionId output = Some sid)
  /\ (includes (quoted_key "sessionId") output = false ->
      includes (quoted_key "session_id") output = false ->
      extractSessionId output = None).
Proof.
  intros Hw1 Hw2 Hne Hq. unfold extractSessionId, re_sessionId, re_session_id. split_and!.
  - intros Hfind.
    destruct (exec_string_field _ _ _ _ _ _ _ Hfind Hw1 Hw2 Hne Hq) as (x & -> & ->).
    reflexivity.
  - intros Hnone Hfind. unfold exec at 1.
    rewrite (search_none _ _ (quoted_key "sessionId") (string_field_needs_key _ _) _ Hnone).
    destruct (exec_string_field _ _ _ _ _ _ _ Hfind Hw1 Hw2 Hne Hq) as (x & -> & ->).
    reflexivity.
  - intros Hnone1 Hnone2. unfold exec.
    rewrite (search_none _ _ (quoted_key "sessionId") (string_field_needs_key _ _) _ Hnone1).
    rewrite (search_none _ _ (quoted_key "session_id") (string_field_needs_key _ _) _ Hnone2).
    reflexivity.
Qed.

(* ===================================================================== *)
(** ** The dashboard's tabs and selection *)
(* ===================================================================== *)

Import App.

Lemma setActiveTab_in_range (index : Z) (active : nat) :
  active < length Ui.tabDefs -> Ui.setActiveTab index active < length Ui.tabDefs.
Proof.
  intros H. unfold Ui.setActiveTab.
  destruct ((index <? 0)%Z || (Z.of_nat (length Ui.tabDefs) <=? index)%Z) eqn:E; [exact H|].
  apply orb_false_iff in E as [E1 E2].
  apply Z.ltb_ge in E1. apply Z.leb_gt in E2. lia.
Qed.

(** X19.  The number on a tab is the number of loops the list shows under it:
    whatever tab [setActiveTab] is asked for, the active tab stays one of
    the five, [getFilteredLoops] returns, and the count that
    [getTabCounts] has under the tab's label is the length of the list. *)
Theorem X19_tab_count_is_the_length_of_its_list
    (state : State) (index : Z) (active : nat) :
  active < length Ui.tabDefs ->
  let active' := Ui.setActiveTab index active in
  active' < length Ui.tabDefs
  /\ exists label filter shown,
       Ui.tabDefs !! active' = Some (label, filter)
       /\ Ui.getFilteredLoops state active' = Some shown
       /\ Ui.count_of label (Ui.getTabCounts state) = Some (length shown).
Proof.
  intros H active'. pose proof (setActiveTab_in_range index active H) as H'.
  fold active' in H'. split; [exact H'|]. clearbody active'. clear H.
  change (length Ui.tabDefs) with 5 in H'.
  destruct active' as [|[|[|[|[|n]]]]]; try lia;
    eexists _, _, _; split_and!; reflexivity.
Qed.

(** X20.  Every loop is counted under All; a loop that is queued or stopped is
    counted under no other tab, and every other loop under exactly one. *)
Theorem X20_tabs_partition_the_loops (state : State) :
  let count label := default 0 (Ui.count_of (str label) (Ui.getTabCounts state)) in
  count "All"%string
  = count "Running"%string + count "Paused"%string + count "Completed"%string
    + count "Errors"%string
    + length (List.filter (fun l => Ui.has_status LoopStatus.queued l
                                    || Ui.has_status LoopStatus.stopped l) (loops state)).
Proof.
  intros count. subst count. unfold Ui.getTabCounts.
  change (default 0 (Ui.count_of (str "All") _)) with (length (loops state)).
  change (default 0 (Ui.count_of (str "Running") _))
    with (length (List.filter (Ui.has_status LoopStatus.running) (loops state))).
  change (default 0 (Ui.count_of (str "Paused") _))
    with (length (List.filter (Ui.has_status LoopStatus.paused) (loops state))).
  change (default 0 (Ui.count_of (str "Completed") _))
    with (length (List.filter (Ui.has_status LoopStatus.completed) (loops state))).
  change (default 0 (Ui.count_of (str "Errors") _))
    with (length (List.filter (Ui.has_status LoopStatus.error) (loops state))).
  induction (loops state) as [|l ls IH]; [reflexivity|].
  cbn [List.filter length]. unfold Ui.has_status in *.
  destruct (status l); cbn [bool_decide decide_rel LoopStatus_eq_dec orb length] in *; simpl length; lia.
Qed.

(** *** The sorted list and the selection *)

Section Selection.

Variable getTime : jsstring -> Z.

Lemma insert_by_time_perm (x : Loop) (sorted : list Loop) :
  Ui.insert_by_time getTime x sorted ≡ₚ x :: sorted.
Proof.
  induction sorted as [|y rest IH]; simpl; [reflexivity|].
  destruct (_ <? 0)%Z; [|reflexivity].
  rewrite IH. apply Permutation_swap.
Qed.

Lemma sort_by_time_perm (xs : list Loop) : Ui.sort_by_time getTime xs ≡ₚ xs.
Proof.
  induction xs as [|x xs IH]; simpl; [reflexivity|].
  rewrite insert_by_time_perm, IH. reflexivity.
Qed.

(** X22.  After a change of tab, the selection follows the filter: no loop is
    selected exactly when no loop is listed; a selected loop is one of the
    loops listed, so it has the status of the tab; and the loop that was
    selected stays selected when it is still listed. *)
Theorem X22_selection_follows_the_filter
    (state : State) (active : nat) (selected : option jsstring) (shown : list Loop) :
  Ui.updateLoopList getTime state active = Some shown ->
  let selected' := fst (Ui.syncSelectionAfterFilter shown selected) in
  (selected' = None <-> Ui.getFilteredLoops state active = Some [])
  /\ (forall sel, selected' = Some sel ->
        exists loop, loop ∈ loops state /\ id loop = sel
          /\ forall label filter,
               Ui.tabDefs !! active = Some (label, Some filter) -> status loop = filter)
  /\ ((exists loop, loop ∈ shown /\ Some (id loop) = selected) -> selected' = selected).
Proof.
  unfold Ui.updateLoopList. intros Hshown.
  destruct (Ui.getFilteredLoops state active) as [filtered|] eqn:Ef; [|discriminate].
  injection Hshown as <-.
  pose proof (sort_by_time_perm filtered) as Hperm.
  assert (Hin : forall loop, loop ∈ Ui.sort_by_time getTime filtered ->
            loop ∈ loops state
            /\ forall label filter,
                 Ui.tabDefs !! active = Some (label, Some filter) -> status loop = filter).
  { intros loop Hl. rewrite Hperm in Hl. unfold Ui.getFilteredLoops in Ef.
    destruct (Ui.tabDefs !! active) as [[label [filter|]]|]; [| |discriminate].
    - injection Ef as <-. apply list_elem_of_In, filter_In in Hl as [Hl Hs].
      split; [apply list_elem_of_In, Hl|]. intros ? ? [= _ <-].
      unfold Ui.has_status in Hs. apply bool_decide_eq_true in Hs. exact Hs.
    - injection Ef as <-. split; [exact Hl|]. intros ? ? [=]. }
  cbv zeta. unfold Ui.syncSelectionAfterFilter.
  destruct (Ui.sort_by_time getTime filtered) as [|first rest] eqn:Es.
  - apply Permutation_nil_l in Hperm. subst filtered. cbn [fst]. split_and!.
    + split; reflexivity.
    + intros sel [=].
    + intros (loop & Hl & _). apply elem_of_nil in Hl. contradiction.
  - destruct (find _ (first :: rest)) as [loop|] eqn:Efind; cbn [fst].
    + apply find_some in Efind as [Hl Hid]. apply bool_decide_eq_true in Hid.
      split_and!.
      * split; [intros H; congruence|]. intros [= ->].
        apply Permutation_nil_r in Hperm. discriminate.
      * intros sel Hsel. exists loop. rewrite Hsel in Hid. injection Hid as Hid.
        destruct (Hin loop) as [H1 H2]; [apply list_elem_of_In, Hl|]. auto.
      * reflexivity.
    + split_and!.
      * split; [discriminate|]. intros [= ->].
        apply Permutation_nil_r in Hperm. discriminate.
      * intros sel [= <-]. exists first.
        destruct (Hin first) as [H1 H2]; [apply elem_of_cons; left; reflexivity|]. auto.
      * intros (loop & Hl & Hid). exfalso.
        apply list_elem_of_In in Hl.
        pose proof (find_none _ _ Efind loop Hl) as Hn. cbv beta in Hn.
        apply bool_decide_eq_false in Hn. contradiction.
Qed.

End Selection.

Section LoopOrder.

Variable getTime : jsstring -> Z.

Lemma insert_by_time_sorted (x : Loop) (sorted : list Loop) :
  StronglySorted (fun a b => (Ui.getLoopTimestamp getTime b <= Ui.getLoopTimestamp getTime a)%Z)
    sorted ->
  StronglySorted (fun a b => (Ui.getLoopTimestamp getTime b <= Ui.getLoopTimestamp getTime a)%Z)
    (Ui.insert_by_time getTime x sorted).
Proof.
  induction 1 as [|y rest Hrest IH Hy]; cbn [Ui.insert_by_time].
  - repeat constructor.
  - destruct (_ <? 0)%Z eqn:E.
    + apply Z.ltb_lt in E. constructor; [exact IH|].
      rewrite insert_by_time_perm. constructor; [lia | exact Hy].
    + apply Z.ltb_ge in E. constructor; [constructor; assumption|].
      constructor; [lia|]. eapply Forall_impl; [exact Hy|]. intros z Hz. cbv beta in Hz. lia.
Qed.

(** X21.  The list of loops is the loops of the active tab, each once, the one
    with the most recent action first: [endedAt] counts as the time of the
    action, else [startedAt], and a loop with neither comes last. *)
Theorem X21_loop_list_is_newest_first (state : State) (active : nat) (shown : list Loop) :
  Ui.updateLoopList getTime state active = Some shown ->
  exists filtered,
    Ui.getFilteredLoops state active = Some filtered
    /\ shown ≡ₚ filtered
    /\ StronglySorted
         (fun a b => (Ui.getLoopTimestamp getTime b <= Ui.getLoopTimestamp getTime a)%Z)
         shown.
Proof.
  unfold Ui.updateLoopList. intros H.
  destruct (Ui.getFilteredLoops state active) as [filtered|]; [|discriminate].
  injection H as <-. exists filtered. split_and!.
  - reflexivity.
  - apply sort_by_time_perm.
  - induction filtered as [|x xs IH]; [constructor|].
    apply insert_by_time_sorted, IH.
Qed.

End LoopOrder.

(* ===================================================================== *)
(** ** The criteria editor *)
(* ===================================================================== *)

Lemma save_text_ok (i : nat) (value : jsstring) (draft : list AcceptanceCriterion) :
  i < length draft ->
  exists draft', Ui.save_text i value draft = Some draft' /\ length draft' = length draft.
Proof.
  intros Hi. unfold Ui.save_text.
  destruct (lookup_lt_is_Some_2 draft i Hi) as [c ->].
  eexists. split; [reflexivity|]. apply length_insert.
Qed.

Lemma stopEditing_ok (value : jsstring) (e : Ui.Editor) :
  Ui.editor_ok e ->
  exists e', Ui.stopEditing value e = Some e' /\ Ui.editor_ok e'
    /\ Ui.editingIndex e' = None
    /\ length (Ui.criteriaDraft e') = length (Ui.criteriaDraft e)
    /\ Ui.selectedIndex e' = Ui.selectedIndex e.
Proof.
  intros (Hd & Hs & He). unfold Ui.stopEditing.
  destruct (Ui.editingIndex e) as [i|] eqn:E.
  - destruct (save_text_ok i value _ (He i eq_refl)) as (draft' & -> & Hlen).
    eexists. split; [reflexivity|]. unfold Ui.editor_ok. simpl. rewrite Hlen.
    split_and!; auto. intros ? [=].
  - exists e. rewrite E. split_and!; auto. unfold Ui.editor_ok. rewrite E. split_and!; auto.
Qed.

Lemma press_ok (k : Ui.key) (e : Ui.Editor) :
  Ui.editor_ok e -> exists e', Ui.press k e = Some e' /\ Ui.editor_ok e'.
Proof.
  intros Hok. pose proof Hok as (Hd & Hs & He). destruct k as [v|v|v|v|v]; cbn [Ui.press].
  - unfold Ui.startEditing.
    assert (Hsave : exists draft',
              match Ui.editingIndex e with
              | Some i => Ui.save_text i v (Ui.criteriaDraft e)
              | None => Some (Ui.criteriaDraft e)
              end = Some draft' /\ length draft' = length (Ui.criteriaDraft e)).
    { destruct (Ui.editingIndex e) as [i|] eqn:E; [apply save_text_ok, He, eq_refl|].
      eexists. split; reflexivity. }
    destruct Hsave as (draft' & -> & Hlen). cbn [mbind option_bind].
    destruct (lookup_lt_is_Some_2 draft' (Ui.selectedIndex e)) as [c ->]; [lia|].
    eexists. split; [reflexivity|]. unfold Ui.editor_ok. simpl. rewrite Hlen.
    split_and!; auto. intros ? [= <-]. exact Hs.
  - destruct (stopEditing_ok v e Hok) as (e' & -> & Hok' & _). eauto.
  - unfold Ui.edit_next. destruct (Ui.editingIndex e) as [i|] eqn:E.
    + destruct (save_text_ok i v _ (He i eq_refl)) as (draft' & -> & Hlen).
      eexists. split; [reflexivity|]. unfold Ui.editor_ok. simpl. rewrite Hlen.
      split_and!; auto; [apply Nat.mod_upper_bound; lia | intros ? [=]].
    + eauto.
  - unfold Ui.add_criterion.
    destruct (stopEditing_ok v e Hok) as (e' & -> & (Hd' & Hs' & He') & Hed & Hlen & Hsel).
    eexists. split; [reflexivity|]. unfold Ui.editor_ok. simpl. rewrite length_app. simpl.
    split_and!; try lia. rewrite Hed. intros ? [=].
  - unfold Ui.remove_criterion.
    destruct (stopEditing_ok v e Hok) as (e' & -> & (Hd' & Hs' & He') & Hed & Hlen & Hsel).
    cbn [mbind option_bind].
    destruct (1 <? length (Ui.criteriaDraft e')) eqn:E1.
    + apply Nat.ltb_lt in E1. eexists. split; [reflexivity|].
      unfold Ui.editor_ok. simpl. rewrite length_delete by (apply lookup_lt_is_Some_2; lia).
      split_and!; try lia. rewrite Hed. intros ? [=].
    + destruct (save_text_ok 0 [] (Ui.criteriaDraft e') Hd') as (draft' & -> & Hlen').
      eexists. split; [reflexivity|]. unfold Ui.editor_ok. simpl. rewrite Hlen'.
      split_and!; auto.
Qed.

(** X23.  The criteria editor never runs out of criteria: whatever issue it is
    opened on and whatever keys follow (edit, done, next, add, remove, with
    whatever text the input holds), no handler fails on a criterion that is
    not there, the draft keeps at least one criterion, and the selection and
    the criterion being edited are criteria of the draft. *)
Theorem X23_editor_keeps_a_criterion (issue : Issue) (keys : list Ui.key) :
  exists e,
    Ui.press_all keys (Ui.openCriteriaModal issue) = Some e
    /\ 0 < length (Ui.criteriaDraft e)
    /\ Ui.selectedIndex e < length (Ui.criteriaDraft e)
    /\ forall i, Ui.editingIndex e = Some i -> i < length (Ui.criteriaDraft e).
Proof.
  assert (Hstart : Ui.editor_ok (Ui.openCriteriaModal issue)).
  { unfold Ui.editor_ok, Ui.openCriteriaModal. simpl.
    destruct (acceptanceCriteria issue); simpl; split_and!; try lia; intros ? [=]. }
  revert Hstart. generalize (Ui.openCriteriaModal issue).
  induction keys as [|k keys IH]; intros e Hok.
  - exists e. split; [reflexivity | exact Hok].
  - destruct (press_ok k e Hok) as (e' & Hp & Hok').
    destruct (IH e' Hok') as (e'' & Hall & Hok'').
    exists e''. split; [|exact Hok'']. cbn [Ui.press_all]. rewrite Hp. exact Hall.
Qed.

(* ===================================================================== *)
(** ** Toggles that change nothing, and toggling twice *)
(* ===================================================================== *)

Import App.

(** X24.  A toggle for a loop that is not in the state document, or for an index
    that is not one of the loop's criteria, changes nothing: the state is
    as it was and no line is logged. *)
Theorem X24_toggleCriterion_ignores_what_is_not_there
    (getLoopDir : jsstring -> jsstring) (stringify : LogEntry -> jsstring)
    (now now' loopId : jsstring) (index : Z) (w : World) :
  (forall loop,
     find (fun l => bool_decide (id l = loopId)) (loops (state_json w)) = Some loop ->
     (index < 0)%Z \/ (Z.of_nat (length (acceptanceCriteria (issue loop))) <= index)%Z) ->
  toggleCriterion getLoopDir stringify now now' loopId index w = w.
Proof.
  intros H. unfold toggleCriterion.
  destruct (find _ (loops (state_json w))) as [loop|]; [|reflexivity].
  destruct (H loop eq_refl) as [Hi|Hi].
  - replace (index <? 0)%Z with true by (symmetry; apply Z.ltb_lt; lia). reflexivity.
  - replace (Z.of_nat (length (acceptanceCriteria (issue loop))) <=? index)%Z with true
      by (symmetry; apply Z.leb_le; lia).
    rewrite orb_true_r. reflexivity.
Qed.

Lemma with_issue_same (l : Loop) (i : Issue) :
  i = issue l -> with_issue l i = l.
Proof. intros ->. destruct l. reflexivity. Qed.

Lemma with_criteria_same (i : Issue) (cs : list AcceptanceCriterion) :
  cs = acceptanceCriteria i -> with_criteria i cs = i.
Proof. intros ->. destruct i. reflexivity. Qed.

(** X25.  Toggling a criterion twice.  The criterion ends as it started in text
    and check mark, and the journal has the two lines, [marked complete] and
    [marked incomplete] in the order of the toggles.  A criterion that was
    open, without attribution, is restored exactly, and with it the loop.  A
    criterion that was completed ends completed by the operator at the time
    of the second toggle, whoever had completed it before. *)
Theorem X25_toggling_twice
    (getLoopDir : jsstring -> jsstring) (stringify : LogEntry -> jsstring)
    (now1 now1' now2 now2' loopId : jsstring) (index : Z) (w : World)
    (loop : Loop) (criterion : AcceptanceCriterion) :
  find (fun l => bool_decide (id l = loopId)) (loops (state_json w)) = Some loop ->
  (0 <= index)%Z ->
  acceptanceCriteria (issue loop) !! Z.to_nat index = Some criterion ->
  let w1 := toggleCriterion getLoopDir stringify now1 now1' loopId index w in
  let w2 := toggleCriterion getLoopDir stringify now2 now2' loopId index w1 in
  let i := Z.to_nat index in
  let after :=
    if completed criterion
    then {| text := text criterion; completed := true;
            completedBy := Some Operator; completedAt := Some now2 |}
    else {| text := text criterion; completed := false;
            completedBy := None; completedAt := None |} in
  let line now nextCompleted :=
    stringify {| timestamp := now; loopId := loopId; type := TSystem;
                 content := toggle_line (i + 1) nextCompleted |} ++ [LF] in
  find (fun l => bool_decide (id l = loopId)) (loops (state_json w2))
  = Some (with_issue loop
            (with_criteria (issue loop) (<[ i := after ]> (acceptanceCriteria (issue loop)))))
  /\ (completed criterion = false -> completedBy criterion = None ->
      completedAt criterion = None ->
      find (fun l => bool_decide (id l = loopId)) (loops (state_json w2)) = Some loop)
  /\ Logs.files (disk w2) !! Logs.getLogPath getLoopDir loopId
     = Some (default [] (Logs.files (disk w) !! Logs.getLogPath getLoopDir loopId)
             ++ line now1' (negb (completed criterion))
             ++ line now2' (completed criterion)).
Proof.
  intros Hfind Hidx Hlook w1 w2 i after line.
  change (Z.to_nat index) with i in Hlook.
  assert (Hlt : i < length (acceptanceCriteria (issue loop))) by (eapply lookup_lt_Some, Hlook).
  set (c1 := toggle now1 criterion).
  set (cs1 := <[ i := c1 ]> (acceptanceCriteria (issue loop))).
  set (loop1 := with_issue loop (with_criteria (issue loop) cs1)).
  assert (Hguard : forall cs : list AcceptanceCriterion, length cs = length (acceptanceCriteria (issue loop)) ->
            ((index <? 0)%Z || (Z.of_nat (length cs) <=? index)%Z) = false).
  { intros cs Hcs. apply orb_false_intro; [apply Z.ltb_ge | apply Z.leb_gt]; lia. }
  assert (Hw1 : w1 =
    {| state_json := updateLoop_issue (state_json w) loopId (with_criteria (issue loop) cs1);
       disk := Logs.appendLog getLoopDir stringify now1' loopId
         {| Logs.in_type := TSystem;
            Logs.in_content := str "Criterion " ++ num (i + 1) ++ str " marked "
              ++ (if negb (completed criterion) then str "complete" else str "incomplete")
              ++ str " by operator" |} (disk w) |}).
  { subst w1. unfold toggleCriterion. rewrite Hfind, Hguard by reflexivity.
    fold i. rewrite Hlook. cbv zeta. fold c1. fold cs1.
    replace (Z.to_nat (index + 1)) with (i + 1) by lia. reflexivity. }
  assert (Hfind1 : find (fun l => bool_decide (id l = loopId)) (loops (state_json w1))
                   = Some loop1).
  { rewrite Hw1. cbn [state_json updateLoop_issue loops].
    rewrite find_updateLoop_issue, Hfind. reflexivity. }
  assert (Hlook1 : acceptanceCriteria (issue loop1) !! i = Some c1).
  { subst loop1 cs1. cbn [issue with_issue acceptanceCriteria with_criteria].
    apply list_lookup_insert_eq, Hlt. }
  set (c2 := toggle now2 c1).
  assert (Hc2 : c2 = after).
  { subst c2 c1 after. unfold toggle. cbn [completed text].
    destruct (completed criterion); reflexivity. }
  assert (Hw2 : w2 =
    {| state_json := updateLoop_issue (state_json w1) loopId
         (with_criteria (issue loop1) (<[ i := c2 ]> cs1));
       disk := Logs.appendLog getLoopDir stringify now2' loopId
         {| Logs.in_type := TSystem;
            Logs.in_content := str "Criterion " ++ num (i + 1) ++ str " marked "
              ++ (if completed criterion then str "complete" else str "incomplete")
              ++ str " by operator" |} (disk w1) |}).
  { subst w2. unfold toggleCriterion. rewrite Hfind1.
    rewrite Hguard by (subst loop1 cs1; cbn [issue with_issue acceptanceCriteria with_criteria];
                       apply length_insert).
    fold i. rewrite Hlook1. cbv zeta. fold c2.
    replace (Z.to_nat (index + 1)) with (i + 1) by lia.
    replace (completed c2) with (completed criterion)
      by (rewrite Hc2; subst after; destruct (completed criterion); reflexivity).
    reflexivity. }
  assert (Hfind2 : find (fun l => bool_decide (id l = loopId)) (loops (state_json w2))
    = Some (with_issue loop
              (with_criteria (issue loop) (<[ i := after ]> (acceptanceCriteria (issue loop)))))).
  { rewrite Hw2. cbn [state_json updateLoop_issue loops].
    rewrite find_updateLoop_issue, Hfind1. cbn [option_map]. f_equal.
    subst loop1 cs1. rewrite list_insert_insert_eq, Hc2. reflexivity. }
  split_and!.
  - exact Hfind2.
  - intros Hc Hby Hat. rewrite Hfind2. f_equal.
    apply with_issue_same, with_criteria_same.
    subst after. rewrite Hc. apply list_insert_id. rewrite Hlook. f_equal.
    destruct criterion; simpl in *; subst; reflexivity.
  - rewrite Hw2, Hw1. cbn [disk]. unfold Logs.appendLog, Logs.appendFileSync.
    cbn [Logs.files Logs.ensureLoopDir Logs.in_type Logs.in_content].
    rewrite !lookup_insert_eq. cbn [default from_option Datatypes.id]. subst line. cbv beta.
    unfold toggle_line. rewrite <- !app_assoc. reflexivity.
Qed.

(* ===================================================================== *)
(** ** Bytes and characters agree on ASCII *)
(* ===================================================================== *)

Lemma ascii_text_decide (s : jsstring) : forallb is_ascii s = true -> ascii_text s.
Proof.
  induction s as [|a s IH]; intros H; [constructor|].
  simpl in H. apply andb_true_iff in H as [Ha H]. constructor; [exact Ha | apply IH, H].
Qed.

Lemma toString_ascii (s : jsstring) : ascii_text s -> Raw.toString s = s.
Proof.
  unfold Raw.toString. induction 1 as [|b s Hb _ IH]; [reflexivity|].
  cbn [Raw.decode Nat.eqb]. cbv zeta.
  assert (Hr : Raw.in_range 0 127 b = true).
  { unfold Raw.in_range. unfold is_ascii in Hb. apply Nat.ltb_lt in Hb.
    apply andb_true_iff. split; [reflexivity | apply Nat.leb_le; lia]. }
  rewrite Hr, IH. reflexivity.
Qed.

Lemma white1_ascii (a : ascii) : is_ascii a = true -> Raw.white1 a = is_ws a.
Proof.
  unfold is_ascii, Raw.white1, is_ws. intros H. apply Nat.ltb_lt in H.
  replace (nat_of_ascii a =? 160) with false; [rewrite orb_false_r; reflexivity|].
  symmetry. apply Nat.eqb_neq. lia.
Qed.

Lemma not_white_ascii (a : ascii) (s : jsstring) :
  is_ascii a = true -> is_ws a = false -> Raw.blank (a :: s) = false.
Proof.
  intros Ha Hw. cbn [Raw.blank]. rewrite white1_ascii, Hw by assumption.
  unfold is_ascii in Ha. apply Nat.ltb_lt in Ha.
  destruct s as [|b s]; [reflexivity|].
  assert (H2 : Raw.white2 a b = false).
  { unfold Raw.white2. replace (nat_of_ascii a =? 194) with false; [reflexivity|].
    symmetry. apply Nat.eqb_neq. lia. }
  rewrite H2. destruct s as [|c s]; [reflexivity|].
  assert (H3 : Raw.white3 a b c = false).
  { unfold Raw.white3.
    replace (nat_of_ascii a =? 225) with false by (symmetry; apply Nat.eqb_neq; lia).
    replace (nat_of_ascii a =? 226) with false by (symmetry; apply Nat.eqb_neq; lia).
    replace (nat_of_ascii a =? 227) with false by (symmetry; apply Nat.eqb_neq; lia).
    replace (nat_of_ascii a =? 239) with false by (symmetry; apply Nat.eqb_neq; lia).
    reflexivity. }
  rewrite H3. reflexivity.
Qed.

Lemma trim_starts_nonws (a : ascii) (s : jsstring) :
  is_ws a = false -> nonempty (trim (a :: s)) = true.
Proof.
  intros Ha. unfold trim. cbn [trimStart]. rewrite Ha.
  destruct (trimEnd_split (a :: s)) as (w & Hs & Hw).
  destruct (trimEnd (a :: s)) as [|x t]; [|reflexivity].
  simpl in Hs. subst w. inversion Hw as [|? ? Hx _]. congruence.
Qed.

(** [!line.trim()] on a line of ASCII characters. *)
Lemma blank_ascii (s : jsstring) :
  ascii_text s -> Raw.blank s = negb (nonempty (trim s)).
Proof.
  induction 1 as [|a s Ha _ IH]; [reflexivity|].
  destruct (is_ws a) eqn:Hw.
  - cbn [Raw.blank]. rewrite white1_ascii, Hw by assumption.
    rewrite IH. unfold trim. cbn [trimStart]. rewrite Hw. reflexivity.
  - rewrite not_white_ascii, trim_starts_nonws by assumption. reflexivity.
Qed.

Lemma deliver_ascii (parse : jsstring -> option LogEntry) (lines : list jsstring) :
  Forall ascii_text lines -> Raw.deliver parse lines = Logs.deliver parse lines.
Proof.
  unfold Raw.deliver, Logs.deliver. induction 1 as [|l ls Hl _ IH]; [reflexivity|].
  simpl. rewrite blank_ascii by assumption.
  destruct (nonempty (trim l)); simpl; [|exact IH].
  destruct (parse l); [f_equal|]; exact IH.
Qed.

Lemma split_Forall (P : ascii -> Prop) (sep : ascii) (s : jsstring) :
  Forall P s -> Forall (Forall P) (split sep s).
Proof.
  induction 1 as [|c s Hc _ IH]; simpl; [repeat constructor|].
  destruct (Ascii.eqb c sep); [constructor; [constructor | exact IH]|].
  destruct (split sep s) as [|l ls]; [repeat constructor; assumption|].
  inversion IH; subst. constructor; [constructor; assumption | assumption].
Qed.

Lemma Forall_removelast {A} (P : A -> Prop) (l : list A) :
  Forall P l -> Forall P (removelast l).
Proof.
  induction 1 as [|x l Hx Hl IH]; simpl; [constructor|].
  destruct l; [constructor | constructor; assumption].
Qed.

Lemma Forall_List_last {A} (P : A -> Prop) (l : list A) (d : A) :
  P d -> Forall P l -> P (List.last l d).
Proof.
  intros Hd. induction 1 as [|x l Hx Hl IH]; simpl; [assumption|].
  destruct l; assumption.
Qed.

Lemma partial_line_ascii (s : jsstring) : ascii_text s -> ascii_text (partial_line s).
Proof.
  intros H. unfold partial_line. apply Forall_List_last; [constructor|].
  apply split_Forall, H.
Qed.

Section RawFacts.

Variable getLoopDir : jsstring -> jsstring.
Variable JSON_parse : jsstring -> option LogEntry.

(** A poll that finds characters of one byte only. *)
Lemma raw_poll_watching loopId pre consumed pending fs t :
  watching getLoopDir loopId pre consumed pending fs t ->
  ascii_text consumed -> ascii_text pending ->
  Raw.poll getLoopDir JSON_parse loopId fs t = Logs.poll getLoopDir JSON_parse loopId fs t.
Proof.
  intros (Hf & Hp & Hb & Ha) Hc Hpend. unfold Raw.poll, Logs.poll.
  rewrite Ha, Hf. simpl negb. cbv iota. rewrite Hp.
  destruct (length (pre ++ consumed) <? length (pre ++ consumed ++ pending)) eqn:Hlt;
    [|reflexivity].
  assert (Hnew : take (length (pre ++ consumed ++ pending) - length (pre ++ consumed))
                   (drop (length (pre ++ consumed)) (pre ++ consumed ++ pending))
                 = pending).
  { rewrite app_assoc, drop_app_length, take_ge; [reflexivity|].
    rewrite !length_app. lia. }
  cbv zeta. rewrite Hnew, toString_ascii by assumption.
  unfold Logs.pop. f_equal. apply deliver_ascii, Forall_removelast, split_Forall.
  apply Forall_app. split; [|assumption]. rewrite Hb. apply partial_line_ascii, Hc.
Qed.

Lemma raw_run_watching loopId pre evs : forall fs t consumed pending,
  watching getLoopDir loopId pre consumed pending fs t ->
  ascii_text consumed -> ascii_text pending -> ascii_text (appended evs) ->
  Raw.run getLoopDir JSON_parse loopId evs fs t = run getLoopDir JSON_parse loopId evs fs t.
Proof.
  induction evs as [|[data|] evs IH]; intros fs t consumed pending Hw Hc Hp He; simpl.
  - reflexivity.
  - simpl in He. apply Forall_app in He as [Hd He].
    apply (IH _ _ consumed (pending ++ data)); try assumption.
    + apply append_watching, Hw.
    + apply Forall_app. split; assumption.
  - rewrite (raw_poll_watching _ _ _ _ _ _ Hw Hc Hp).
    destruct (poll_watching getLoopDir JSON_parse _ _ _ _ _ _ Hw) as [Hw1 _].
    destruct (Logs.poll getLoopDir JSON_parse loopId fs t) as [t1 out1]. simpl in Hw1.
    rewrite (IH _ _ (consumed ++ pending) [] Hw1); try assumption.
    + reflexivity.
    + apply Forall_app. split; assumption.
    + constructor.
Qed.

(** What a tailer delivers when everything appended is ASCII. *)
Lemma raw_tail_session loopId evs fs :
  ascii_text (appended evs) ->
  Raw.tail_session getLoopDir JSON_parse loopId evs fs
  = tail_session getLoopDir JSON_parse loopId evs fs.
Proof.
  intros He. unfold Raw.tail_session, tail_session, Raw.tailLog, Logs.tailLog.
  destruct (tailLog_start_watching getLoopDir loopId fs) as [pre Hw0].
  destruct (Logs.tailLog_start getLoopDir loopId fs) as [fs1 t0]. simpl in Hw0.
  rewrite (raw_poll_watching _ _ _ _ _ _ Hw0) by constructor.
  destruct (poll_watching _ JSON_parse _ _ _ _ _ _ Hw0) as [Hw1 _].
  destruct (Logs.poll getLoopDir JSON_parse loopId fs1 t0) as [t1 out0]. simpl in Hw1.
  rewrite (raw_run_watching _ _ _ _ _ _ _ Hw1) by (try constructor; assumption).
  destruct (run_watching _ JSON_parse _ _ evs _ _ _ _ Hw1) as (c & p & Heq & Hw2 & _).
  destruct (run getLoopDir JSON_parse loopId evs fs1 t1) as [[fs2 t2] out]. simpl in Hw2.
  simpl in Heq. rewrite Heq in He. apply Forall_app in He as [Hc Hp].
  rewrite (raw_poll_watching _ _ _ _ _ _ Hw2) by assumption. reflexivity.
Qed.

(** [readRecentLogs] on a log file of ASCII characters. *)
Lemma raw_readRecentLogs fs loopId count content :
  files fs !! getLogPath getLoopDir loopId = Some content ->
  ascii_text content ->
  Raw.readRecentLogs getLoopDir JSON_parse fs loopId count
  = Logs.readRecentLogs getLoopDir JSON_parse fs loopId count.
Proof.
  intros Hf Hc. unfold Raw.readRecentLogs, Logs.readRecentLogs. rewrite Hf.
  destruct (length content =? 0); [reflexivity|].
  cbv zeta. rewrite toString_ascii; [reflexivity|].
  unfold Raw.recent_buffer. apply Forall_take, Forall_drop, Hc.
Qed.

End RawFacts.

(** X26.  The tailer on bytes: after [tailLog] starts, whatever bytes are
    appended to the log file and however the appends fall between the
    polls, when the appended bytes are ASCII characters and make up
    complete newline-terminated JSON records of the entries [es], then a
    rest without newline (an unfinished last line, possibly empty), the
    tailer hands [onEntry] exactly [es], in order, and nothing of the
    rest.  What the file held before the tailer started does not matter. *)
Theorem X26_tailLog_delivers_ascii_records
    (getLoopDir : jsstring -> jsstring) (parse : jsstring -> option LogEntry)
    (loopId : jsstring) (fs : Logs.filesystem)
    (evs : list event) (lines : list jsstring) (es : list LogEntry) (rest : jsstring) :
  Forall2 (json_record parse) lines es ->
  LF ∉ rest ->
  appended evs = concat (map (fun line => line ++ [LF]) lines) ++ rest ->
  Forall (fun c => is_ascii c = true) (appended evs) ->
  Raw.tail_session getLoopDir parse loopId evs fs = es.
Proof.
  intros Hrec Hrest Hev Hascii. rewrite raw_tail_session by exact Hascii.
  exact (tail_session_delivers getLoopDir parse loopId fs evs lines es rest Hrec Hrest Hev).
Qed.

(* ===================================================================== *)
(** ** C8: closing an issue *)
(* ===================================================================== *)

(** A literal under the [i] flag matches what starts with it in any case. *)
Lemma m_lits_i n0 (p : jsstring) : forall s c k,
  m n0 (cat (map chr_i p)) s c k
  = if startsWith_i p s then k (drop (length p) s) c else None.
Proof.
  induction p as [|a p IH]; intros s c k; [reflexivity|].
  assert (Hone : m n0 (chr_i a) s c (fun s' c' => m n0 (cat (map chr_i p)) s' c' k)
                 = if startsWith_i (a :: p) s then k (drop (length (a :: p)) s) c else None).
  { destruct s as [|b s]; [reflexivity|]. cbn [m chr_i startsWith_i].
    destruct (Ascii.eqb (to_lower b) (to_lower a)); [|reflexivity]. rewrite IH. reflexivity. }
  destruct p as [|a' p]; [|exact Hone].
  rewrite <- Hone. destruct s as [|b s]; [reflexivity|]. cbn [m chr_i map cat].
  destruct (Ascii.eqb (to_lower b) (to_lower a)); reflexivity.
Qed.

Lemma startsWith_i_app (p a rest : jsstring) :
  map to_lower a = map to_lower p ->
  startsWith_i p (a ++ rest) = true /\ drop (length p) (a ++ rest) = rest.
Proof.
  revert a. induction p as [|x p IH]; intros a H.
  - destruct a; [|discriminate]. split; reflexivity.
  - destruct a as [|b a]; [discriminate|]. simpl in H. injection H as Hb Ha.
    destruct (IH a Ha) as [H1 H2]. cbn [app startsWith_i length drop].
    rewrite Hb, Ascii.eqb_refl, H1. split; [reflexivity | exact H2].
Qed.

Lemma startsWith_i_true (p s : jsstring) :
  startsWith_i p s = true ->
  s = take (length p) s ++ drop (length p) s
  /\ map to_lower (take (length p) s) = map to_lower p.
Proof.
  revert s. induction p as [|x p IH]; intros s H.
  - split; reflexivity.
  - destruct s as [|b s]; [discriminate|]. cbn [startsWith_i] in H.
    apply andb_true_iff in H as [Hb H]. apply Ascii.eqb_eq in Hb.
    destruct (IH s H) as [H1 H2]. cbn [length take drop map app].
    split; [f_equal; exact H1 | rewrite Hb, H2; reflexivity].
Qed.

(** What a word under the [i] flag matches, before a continuation. *)
Lemma lit_i_some n0 (w : string) (s : jsstring) (c : caps) (k : cont) :
  is_Some (m n0 (lit_i w) s c k)
  <-> exists a rest, s = a ++ rest /\ spells w a /\ is_Some (k rest c).
Proof.
  unfold lit_i, spells. rewrite m_lits_i. split.
  - destruct (startsWith_i (str w) s) eqn:E; [|intros [? ?]; discriminate].
    intros Hk. destruct (startsWith_i_true _ _ E) as [H1 H2].
    exists (take (length (str w)) s), (drop (length (str w)) s). auto.
  - intros (a & rest & -> & Ha & Hk).
    destruct (startsWith_i_app (str w) a rest Ha) as [-> ->]. exact Hk.
Qed.

(** What a greedy run of a class matches, before a continuation: any
    number of the class's characters from [lo] on. *)
Lemma rep_cls_some n0 (p : ascii -> bool) (k : cont) : forall s fuel lo c,
  S (lo + length s) <= fuel ->
  is_Some (rep_loop (m n0 (Cls p)) k fuel lo None s c)
  <-> exists pre rest, s = pre ++ rest /\ lo <= length pre
        /\ Forall (fun a => p a = true) pre /\ is_Some (k rest c).
Proof.
  induction s as [|a s IH]; intros fuel lo c Hf; (destruct fuel as [|fuel]; [lia|]).
  - assert (Hstep : rep_loop (m n0 (Cls p)) k (S fuel) lo None [] c
                    = match lo with 0 => k [] c | S _ => None end).
    { destruct lo; reflexivity. }
    rewrite Hstep. destruct lo as [|lo].
    + split.
      * intros Hk. exists [], []. split_and!; [reflexivity | simpl; lia | constructor | exact Hk].
      * intros (pre & rest & Hs & _ & _ & Hk). symmetry in Hs.
        apply app_eq_nil in Hs as [_ ->]. exact Hk.
    + split; [intros [? ?]; discriminate|].
      intros (pre & rest & Hs & Hlo & _). symmetry in Hs.
      apply app_eq_nil in Hs as [-> _]. simpl in Hlo. lia.
  - simpl length in Hf.
    assert (Hstep : rep_loop (m n0 (Cls p)) k (S fuel) lo None (a :: s) c
                    = let round := if p a then rep_loop (m n0 (Cls p)) k fuel (pred lo) None s c
                                   else None in
                      match lo with
                      | 0 => match round with Some x => Some x | None => k (a :: s) c end
                      | S _ => round
                      end).
    { cbn [rep_loop]. rewrite !m_cls_cons.
      assert (Hne : (length s =? length (a :: s)) = false) by (apply Nat.eqb_neq; simpl; lia).
      rewrite Hne, andb_false_r. reflexivity. }
    rewrite Hstep. cbv zeta. clear Hstep.
    specialize (IH fuel (pred lo) c). destruct lo as [|lo]; cbn [pred] in *.
    + destruct (p a) eqn:Ea.
      * destruct (rep_loop (m n0 (Cls p)) k fuel 0 None s c) as [x|] eqn:E.
        -- split; [|intros _; eexists; reflexivity]. intros _.
           destruct (proj1 (IH ltac:(lia))) as (pre & rest & -> & _ & Hpre & Hk);
             [eexists; reflexivity|].
           exists (a :: pre), rest.
           split_and!; [reflexivity | simpl; lia | constructor; assumption | exact Hk].
        -- split.
           ++ intros Hk. exists [], (a :: s).
              split_and!; [reflexivity | simpl; lia | constructor | exact Hk].
           ++ intros (pre & rest & Hs & _ & Hpre & Hk). destruct pre as [|b pre].
              ** simpl in Hs. subst rest. exact Hk.
              ** simpl in Hs. injection Hs as <- ->. inversion Hpre; subst.
                 assert (Hsome : is_Some (@None (list ascii * caps))).
                 { apply IH; [lia|]. exists pre, rest.
                   split_and!; [reflexivity | lia | assumption | exact Hk]. }
                 destruct Hsome as [? ?]. discriminate.
      * split.
        -- intros Hk. exists [], (a :: s).
           split_and!; [reflexivity | simpl; lia | constructor | exact Hk].
        -- intros (pre & rest & Hs & _ & Hpre & Hk). destruct pre as [|b pre].
           ++ simpl in Hs. subst rest. exact Hk.
           ++ simpl in Hs. injection Hs as <- ->. inversion Hpre; subst. congruence.
    + destruct (p a) eqn:Ea.
      * rewrite IH by lia. split.
        -- intros (pre & rest & -> & Hlo & Hpre & Hk).
           exists (a :: pre), rest.
           split_and!; [reflexivity | simpl; lia | constructor; assumption | exact Hk].
        -- intros (pre & rest & Hs & Hlo & Hpre & Hk).
           destruct pre as [|b pre]; [simpl in Hlo; lia|].
           simpl in Hs. injection Hs as <- ->. inversion Hpre; subst.
           exists pre, rest. split_and!; [reflexivity | simpl in Hlo; lia | assumption | exact Hk].
      * split; [intros [? ?]; discriminate|].
        intros (pre & rest & Hs & Hlo & Hpre & _).
        destruct pre as [|b pre]; [simpl in Hlo; lia|].
        simpl in Hs. injection Hs as <- ->. inversion Hpre; subst. congruence.
Qed.

(** What [\s+] matches, before a continuation. *)
Lemma gap_some n0 (s : jsstring) (c : caps) (k : cont) :
  is_Some (m n0 (plus ws) s c k)
  <-> exists g rest, s = g ++ rest /\ gap g /\ is_Some (k rest c).
Proof.
  change (m n0 (plus ws) s c k)
    with (rep_loop (m n0 (Cls is_ws)) k (S (1 + length s)) 1 None s c).
  rewrite rep_cls_some by lia. unfold gap, all_ws. split.
  - intros (g & rest & -> & Hlo & Hg & Hk). exists g, rest. split_and!; auto.
    intros ->. simpl in Hlo. lia.
  - intros (g & rest & -> & [Hne Hg] & Hk). exists g, rest. split_and!; auto.
    destruct g; [congruence | simpl; lia].
Qed.

(** A pattern is found in a text when it matches at some place of it. *)
Lemma search_some (r : regex) (n0 : nat) (s : jsstring) :
  is_Some (search r n0 s)
  <-> exists pre s', s = pre ++ s' /\ is_Some (match_here r n0 s').
Proof.
  induction s as [|a s IH].
  - cbn [search]. split.
    + intros H. exists [], []. split; [reflexivity|].
      destruct (match_here r n0 []); [eexists; reflexivity | exact H].
    + intros (pre & s' & Hs & H). symmetry in Hs. apply app_eq_nil in Hs as [_ ->].
      destruct (match_here r n0 []); [eexists; reflexivity | destruct H; discriminate].
  - cbn [search]. destruct (match_here r n0 (a :: s)) as [x|] eqn:E.
    + split; [|intros _; eexists; reflexivity].
      intros _. exists [], (a :: s). split; [reflexivity|]. rewrite E. eexists; reflexivity.
    + rewrite IH. split.
      * intros (pre & s' & -> & H). exists (a :: pre), s'. split; [reflexivity | exact H].
      * intros (pre & s' & Hs & H). destruct pre as [|b pre].
        -- simpl in Hs. subst s'. rewrite E in H. destruct H; discriminate.
        -- simpl in Hs. injection Hs as <- ->. exists pre, s'. split; [reflexivity | exact H].
Qed.

Lemma test_true (r : regex) (s : jsstring) :
  test r s = true
  <-> exists pre s', s = pre ++ s'
        /\ is_Some (m (length s) r s' nocaps (fun s'' c' => Some (s'', c'))).
Proof.
  unfold test, exec.
  assert (H : is_Some (search r (length s) s)
              <-> exists pre s', s = pre ++ s'
                    /\ is_Some (m (length s) r s' nocaps (fun s'' c' => Some (s'', c')))).
  { rewrite search_some. split; intros (pre & s' & Hs & Hm); exists pre, s'; (split; [exact Hs|]);
      unfold match_here in *;
      destruct (m (length s) r s' nocaps (fun s'' c' => Some (s'', c'))) as [[? ?]|];
      try (eexists; reflexivity); destruct Hm; discriminate. }
  rewrite <- H. destruct (search r (length s) s); split; intros H'; try reflexivity;
    try discriminate; [eexists; reflexivity | destruct H'; discriminate].
Qed.

(** [/already\s+closed/i] and [/already\s+been\s+closed/i] find what
    [reports_already_closed] says. *)
Lemma already_closed_test (text : jsstring) :
  test re_already_closed text || test re_already_been_closed text = true
  <-> reports_already_closed text.
Proof.
  rewrite orb_true_iff, !test_true. unfold reports_already_closed.
  match goal with |- (?A \/ ?B) <-> (?A' \/ ?B') =>
    cut ((A <-> A') /\ (B <-> B')); [tauto|]
  end.
  unfold re_already_closed, re_already_been_closed; cbn [cat]. split.
  - split.
    + intros (pre & s & -> & H). rewrite m_cat in H.
      apply lit_i_some in H as (a & s1 & -> & Ha & H). rewrite m_cat in H.
      apply gap_some in H as (g & s2 & -> & Hg & H).
      apply lit_i_some in H as (c & post & -> & Hc & _).
      exists pre, a, g, c, post. auto.
    + intros (pre & a & g & c & post & -> & Ha & Hg & Hc).
      exists pre, (a ++ g ++ c ++ post). split; [reflexivity|].
      rewrite m_cat. apply lit_i_some. exists a, (g ++ c ++ post). split_and!; auto.
      rewrite m_cat. apply gap_some. exists g, (c ++ post). split_and!; auto.
      apply lit_i_some. exists c, post. split_and!; auto; eexists; reflexivity.
  - split.
    + intros (pre & s & -> & H). rewrite m_cat in H.
      apply lit_i_some in H as (a & s1 & -> & Ha & H). rewrite m_cat in H.
      apply gap_some in H as (g1 & s2 & -> & Hg1 & H). rewrite m_cat in H.
      apply lit_i_some in H as (b & s3 & -> & Hb & H). rewrite m_cat in H.
      apply gap_some in H as (g2 & s4 & -> & Hg2 & H).
      apply lit_i_some in H as (c & post & -> & Hc & _).
      exists pre, a, g1, b, g2, c, post. split_and!; auto.
    + intros (pre & a & g1 & b & g2 & c & post & -> & Ha & Hg1 & Hb & Hg2 & Hc).
      exists pre, (a ++ g1 ++ b ++ g2 ++ c ++ post). split; [reflexivity|].
      rewrite m_cat. apply lit_i_some. exists a, (g1 ++ b ++ g2 ++ c ++ post). split_and!; auto.
      rewrite m_cat. apply gap_some. exists g1, (b ++ g2 ++ c ++ post). split_and!; auto.
      rewrite m_cat. apply lit_i_some. exists b, (g2 ++ c ++ post). split_and!; auto.
      rewrite m_cat. apply gap_some. exists g2, (c ++ post). split_and!; auto.
      apply lit_i_some. exists c, post. split_and!; auto; eexists; reflexivity.
Qed.

Lemma includes_mentions (p text : jsstring) : includes p text = true <-> mentions p text.
Proof.
  unfold mentions. split.
  - unfold includes. destruct (find_sub p text) as [[pre post]|] eqn:E; [|discriminate].
    intros _. exists pre, post. apply find_sub_spec, E.
  - intros (pre & post & ->). apply find_sub_app.
Qed.

Lemma failure_message_text (err : ExecError) : failure_message err = reported_text err.
Proof.
  unfold failure_message, reported_text, or_else.
  destruct (err_stderr err), (err_stdout err); reflexivity.
Qed.

(** The first line of a text. *)
Lemma first_line_of (line rest : jsstring) :
  LF ∉ line -> (rest = [] \/ exists r, rest = LF :: r) ->
  hd [] (split LF (line ++ rest)) = line.
Proof.
  intros Hl Hr. rewrite split_hd_app by assumption.
  destruct Hr as [->|[r ->]]; simpl; rewrite ?Ascii.eqb_refl; simpl; apply app_nil_r.
Qed.

(** C8.  [closeIssue] returns [closed] or [already_closed] or throws.
    Without a URL it throws.  Otherwise it runs [gh issue close url], with
    [--comment] and the trimmed comment when that is not empty, and returns
    [closed] when the command succeeds.  When the command fails, one text
    decides, [reported_text]: what the command wrote to stderr, or else to
    stdout, or else the error's message.  When [gh] is missing (the error
    code [ENOENT], or [gh: command not found] in the text), it throws.
    Otherwise it returns [already_closed] when the text has the words
    [already closed] or [already been closed], whatever else the text
    says, and throws [Failed to close issue: ] and the first line of the
    text in every other case. *)
Theorem C8_closeIssue_outcomes
    (execFileSync : list jsstring -> option ExecError)
    (url : jsstring) (comment : option jsstring) :
  let args :=
    [str "issue"; str "close"; url]
    ++ match comment with
       | Some c => if nonempty (trim c) then [str "--comment"; trim c] else []
       | None => []
       end in
  let result := closeIssue execFileSync url comment in
  (url = [] -> result = Throw (str "Missing GitHub issue URL"))
  /\ (url <> [] -> execFileSync args = None -> result = Return closed)
  /\ (forall err, url <> [] -> execFileSync args = Some err ->
        let text := reported_text err in
        let no_gh :=
          err_code err = Some (str "ENOENT")
          \/ mentions (str "gh: command not found") text in
        (no_gh ->
         result = Throw (str "GitHub CLI (gh) not found. Install from https://cli.github.com"))
        /\ (~ no_gh -> reports_already_closed text -> result = Return already_closed)
        /\ (~ no_gh -> ~ reports_already_closed text ->
            forall line rest,
              text = line ++ rest -> LF ∉ line -> (rest = [] \/ exists r, rest = LF :: r) ->
              result = Throw (str "Failed to close issue: "
                              ++ if nonempty line then line else str "Unknown error"))).
Proof.
  intros args result.
  assert (Hargs : close_args url comment = args).
  { unfold close_args, args. destruct comment as [c|]; [|reflexivity].
    destruct (nonempty (trim c)); reflexivity. }
  subst result. unfold closeIssue. rewrite Hargs. refine (conj _ (conj _ _)).
  - intros ->. reflexivity.
  - intros Hu Hrun. destruct url; [congruence|]. simpl. rewrite Hrun. reflexivity.
  - intros err Hu Hrun. set (text := reported_text err).
    set (no_gh := err_code err = Some (str "ENOENT")
                  \/ mentions (str "gh: command not found") text).
    destruct url as [|u url']; [congruence|].
    cbn [nonempty negb]. rewrite Hrun.
    assert (Hgh : gh_not_found err = true <-> no_gh).
    { unfold gh_not_found, no_gh, text. rewrite orb_true_iff, bool_decide_eq_true,
        failure_message_text, includes_mentions. reflexivity. }
    assert (Hsays : says_already_closed err = true <-> reports_already_closed text).
    { unfold says_already_closed, text. rewrite failure_message_text.
      apply already_closed_test. }
    destruct (gh_not_found err) eqn:Eg.
    + split_and!; [reflexivity | |]; intros Hn; exfalso; apply Hn, Hgh; reflexivity.
    + assert (Hno : ~ no_gh) by (intros H; apply Hgh in H; discriminate).
      destruct (says_already_closed err) eqn:Es.
      * split_and!; [intros H; contradiction | reflexivity |].
        intros _ Hn. exfalso. apply Hn, Hsays. reflexivity.
      * split_and!; [intros H; contradiction | |].
        -- intros _ Hr. apply Hsays in Hr. discriminate.
        -- intros _ _ line rest Ht Hl Hrest. cbv zeta.
           rewrite failure_message_text. fold text. rewrite Ht.
           rewrite first_line_of by assumption. unfold or_else. reflexivity.
Qed.

(** C8 fails in both directions on what [gh] can print.  When [gh] fails
    with a warning on stderr and its report that the issue is already
    closed on stdout, [closeIssue] throws, naming the warning.  When [gh]
    fails for another reason and its text has the words [already closed],
    [closeIssue] returns [already_closed]. *)
Lemma C8_counterexample_report_on_stdout :
  includes (str "is already closed") (err_stdout Faults.report_on_stdout) = true
  /\ closeIssue (fun _ => Some Faults.report_on_stdout) (url Ex.the_issue) None
     = Throw (str "Failed to close issue: warning: a new release of gh is available")
  /\ closeIssue (fun _ => Some Faults.other_failure) (url Ex.the_issue) None
     = Return already_closed.
Proof. vm_compute. repeat split. Qed.

(* ===================================================================== *)
(** ** C9: the fallback of the criteria parser, and checked boxes *)
(* ===================================================================== *)

(** The checkbox pattern on a checkbox line: the groups are the box and
    the label. *)
Lemma checkbox_line_exec (line : jsstring) (box : ascii) (label : jsstring) :
  checkbox_line line box label ->
  exists x, exec re_checkbox line = Some x /\ group x 1 = [box] /\ group x 2 = label.
Proof.
  intros (lead & bullet & w1 & w2 & rest & Hline & Hlead & Hbul & Hw1 & Hbox & Hw2
          & (a & t & Hlab & Ha) & Hl & Hrest).
  unfold re_checkbox. cbn [cat]. rewrite exec_anchored. unfold match_here.
  assert (Hb : (Ascii.eqb box " " || Ascii.eqb box "x" || Ascii.eqb box "X") = true).
  { destruct Hbox as [->|[->| ->]]; reflexivity. }
  assert (Hbu : (Ascii.eqb bullet "-" || Ascii.eqb bullet "*") = true).
  { destruct Hbul as [->| ->]; reflexivity. }
  assert (Hbw : is_ws bullet = false).
  { destruct Hbul as [->| ->]; reflexivity. }
  set (n0 := length line).
  assert (Hm : exists c',
    m n0 (Cat Bol (Cat (star ws) (Cat (Cls (fun c => Ascii.eqb c "-" || Ascii.eqb c "*"))
       (Cat (star ws) (Cat (chr "[") (Cat (Grp 1 (Cls (fun c => Ascii.eqb c " " || Ascii.eqb c "x" || Ascii.eqb c "X")))
          (Cat (chr "]") (Cat (star ws) (Grp 2 (plus dot))))))))))
      line nocaps (fun s' c' => Some (s', c')) = Some (rest, c')
    /\ c' 1 = Some [box] /\ c' 2 = Some label).
  { rewrite m_cat, m_bol by reflexivity.
    rewrite m_cat. unfold star at 1. rewrite m_rep.
    eexists. split.
    - rewrite Hline.
      eapply (rep_loop_cls_greedy n0 is_ws _ lead);
        [exact Hlead | exact Hbw | simpl; lia | rewrite length_app; simpl; lia |].
      rewrite m_cat, m_cls_ok by exact Hbu.
      rewrite m_cat. unfold star at 1. rewrite m_rep.
      eapply (rep_loop_cls_greedy n0 is_ws _ w1);
        [exact Hw1 | reflexivity | simpl; lia | rewrite length_app; simpl; lia |].
      rewrite m_cat. unfold chr at 1. rewrite m_cls_ok by reflexivity.
      rewrite m_cat, m_grp, m_cls_ok by exact Hb.
      rewrite m_cat. unfold chr at 1. rewrite m_cls_ok by reflexivity.
      rewrite m_cat. unfold star at 1. rewrite m_rep.
      eapply (rep_loop_cls_greedy n0 is_ws _ w2);
        [exact Hw2 | rewrite Hlab; exact Ha | simpl; lia | rewrite length_app; simpl; lia |].
      rewrite m_grp. unfold plus. rewrite m_rep.
      eapply (rep_loop_cls_greedy n0 _ _ label _ _ rest).
      + unfold dot. eapply List.Forall_impl; [|exact Hl]. simpl. intros x ->. reflexivity.
      + exact Hrest.
      + rewrite Hlab. simpl. lia.
      + rewrite !length_app. lia.
      + reflexivity.
    - unfold setcap. cbn [Nat.eqb]. split.
      + match goal with |- context [take ?n _] =>
          replace n with 1 by (simpl; lia) end.
        reflexivity.
      + rewrite length_app.
        replace (length label + length rest - length rest) with (length label) by lia.
        rewrite take_app_length. reflexivity. }
  destruct Hm as (c' & -> & H1 & H2).
  eexists. split; [reflexivity|].
  unfold group. cbn [m_group]. rewrite H1, H2. split; reflexivity.
Qed.


Lemma item_of_open_box (line : jsstring) (label : jsstring) :
  checkbox_line line " " label ->
  item_of line = Some {| text := trim label; completed := false;
                         completedBy := None; completedAt := None |}.
Proof.
  intros Hline. destruct (checkbox_line_exec _ _ _ Hline) as (x & Hx & H1 & H2).
  unfold item_of, criterion_of_checkbox. rewrite Hx, H1, H2. reflexivity.
Qed.





(** A section with prose, an indented item with a starred bullet, a
    capital X and a carriage return at the end, and a plain bullet. *)
Example checked_box_in_a_section :
  checkbox_line (str "  * [X]  ship it" ++ [CR]) "X" (str "ship it")
  /\ parseAcceptanceCriteria
       (join [LF] [str "Intro"; str "## Done When"; str "All of:";
                   str "  * [X]  ship it" ++ [CR]; str "- plain bullet";
                   str "## Notes"; str "- [x] not in the section"])
     = [ {| text := str "ship it"; completed := true;
            completedBy := Some Operator; completedAt := None |};
         {| text := str "plain bullet"; completed := false;
            completedBy := None; completedAt := None |} ].
Proof.
  split; [|vm_compute; reflexivity].
  exists (str "  "), "*"%char, (str " "), (str "  "), [CR].
  split_and!; try reflexivity; auto; try (repeat constructor).
  exists "s"%char, (str "hip it"). split; reflexivity.
Qed.

(** The checkbox pattern asks for a character behind the box: a box with
    nothing behind it is read as a plain bullet with the text [[x]], and
    the fallback does not see it. *)
Example box_without_label :
  parseAcceptanceCriteria (join [LF] [str "## Done when"; str "- [x]"])
  = [ {| text := str "[x]"; completed := false;
         completedBy := None; completedAt := None |} ]
  /\ parseAcceptanceCriteria (join [LF] [str "Steps"; str "- [x]"]) = [].
Proof. vm_compute. split; reflexivity. Qed.

(* ===================================================================== *)
(** ** The further properties at concrete inputs *)
(* ===================================================================== *)

Lemma X1_witness :
  readLogs Ex.getLoopDir MiniJson.parse
    (run_ops Ex.getLoopDir MiniJson.stringify Cases.mixed_ops no_files) Ex.loop1
  = [Ex.entry1; Ex.entry2].
Proof.
  rewrite (X1_readLogs_returns_the_appended_entries Ex.getLoopDir MiniJson.stringify
             MiniJson.parse MiniJson_codec Cases.mixed_ops Ex.loop1).
  vm_compute. reflexivity.
Defined.

Lemma junk_lines_solid : Forall solid_line Cases.junk_lines.
Proof.
  repeat constructor; try apply (codec_solid _ _ MiniJson_codec).
  - apply no_LF_decide. reflexivity.
  - exists "n"%char, (str "ot json"). split; reflexivity.
  - exists (str "not jso"), "n"%char. split; reflexivity.
Qed.

Lemma X2_witness :
  readLogs Ex.getLoopDir MiniJson.parse Cases.junk_journal Ex.loop1
  = [Ex.entry1; Ex.entry2].
Proof.
  rewrite (X2_readLogs_line_by_line Ex.getLoopDir MiniJson.parse Cases.junk_journal
             Ex.loop1 Cases.junk_lines junk_lines_solid).
  - vm_compute. reflexivity.
  - vm_compute. reflexivity.
Defined.

Lemma journal_lines_solid :
  Forall solid_line [MiniJson.stringify Ex.entry1; MiniJson.stringify Ex.entry2].
Proof. repeat constructor; apply (codec_solid _ _ MiniJson_codec). Qed.

Lemma X3_witness :
  readRecentLogs Ex.getLoopDir MiniJson.parse Ex.journal Ex.loop1 1 = [Ex.entry2]
  /\ readLogs Ex.getLoopDir MiniJson.parse Ex.journal Ex.loop1 = [Ex.entry1; Ex.entry2].
Proof.
  rewrite (X3_readRecentLogs_is_the_end_of_readLogs Ex.getLoopDir MiniJson.parse Ex.journal
             Ex.loop1 [MiniJson.stringify Ex.entry1; MiniJson.stringify Ex.entry2] 1
             journal_lines_solid).
  - vm_compute. split; reflexivity.
  - repeat constructor; vm_compute; eauto.
  - repeat constructor; vm_compute; lia.
  - vm_compute. reflexivity.
Defined.

Lemma X4_witness :
  tail_steps_session Ex.getLoopDir MiniJson.stringify MiniJson.parse Ex.loop1
    Cases.mixed_steps Ex.journal
  = [Ex.entry1; Ex.entry2].
Proof.
  rewrite (X4_tailLog_follows_appendLog Ex.getLoopDir MiniJson.stringify MiniJson.parse
             MiniJson_codec Ex.loop1 Cases.mixed_steps Ex.journal).
  vm_compute. reflexivity.
Defined.


Lemma X7_witness :
  Ui.log_pane Ex.getLoopDir MiniJson.stringify MiniJson.parse Ex.loop1 Cases.mixed_steps
    (run_ops Ex.getLoopDir MiniJson.stringify Ex.ops no_files)
  = map Ui.formatLogEntry [Ex.entry1; Ex.entry2; Ex.entry1; Ex.entry2].
Proof.
  rewrite (X7_log_pane_shows_each_entry_once Ex.getLoopDir MiniJson.stringify MiniJson.parse
             MiniJson_codec Ex.ops Ex.loop1 Cases.mixed_steps).
  - vm_compute. reflexivity.
  - repeat constructor; vm_compute; lia.
Defined.

Lemma X8_witness :
  hd [] (summary_parts Cases.marked_logs) = str "Iterations completed: 12".
Proof.
  rewrite (X8_summary_reports_the_highest_iteration Cases.marked_logs
             [(3, str " ---"); (12, str " ---")]).
  - vm_compute. reflexivity.
  - vm_compute. reflexivity.
  - repeat constructor.
  - repeat constructor; cbn [fst]; lia.
Defined.

Lemma X9_witness :
  summary_parts Cases.toggle_logs
  = [str "Iterations completed: 0"; str "Criteria progress: 2 updates"].
Proof.
  rewrite (X9_every_toggle_counts_as_progress Cases.toggle_logs).
  - vm_compute. reflexivity.
  - discriminate.
  - repeat constructor; eauto.
Defined.

Lemma X10_witness :
  GithubCli.parseIssueUrl (url Ex.the_issue)
  = Some {| GithubCli.ref_repo := str "o/r"; GithubCli.ref_number := 7 |}.
Proof.
  apply (X10_parseIssueUrl_reads_repo_and_number (url Ex.the_issue) (str "https://")
           (str "o") (str "r") [] 7).
  - vm_compute. reflexivity.
  - discriminate.
  - discriminate.
  - apply no_char_decide. reflexivity.
  - apply no_char_decide. reflexivity.
  - exact I.
  - lia.
Defined.

Lemma X11_witness :
  GithubCli.parseIssueUrl (str "https://example.com/o/r/issues/7") = None
  /\ GithubCli.fetchIssue Cases.execSync Cases.JSON_parse
       (str "https://example.com/o/r/issues/7")
     = Throw (str "Invalid GitHub issue URL: https://example.com/o/r/issues/7").
Proof.
  apply (X11_fetchIssue_rejects_other_urls Cases.execSync Cases.JSON_parse
           (str "https://example.com/o/r/issues/7")).
  vm_compute. reflexivity.
Defined.

Lemma X12_witness :
  GithubCli.fetchIssue Cases.execSync Cases.JSON_parse (url Ex.the_issue)
  = Return {| url := url Ex.the_issue; number := 7; title := str "Do it";
              body := Ex.body_rendered; repo := str "o/r";
              acceptanceCriteria := [canonical Ex.item_a; canonical Ex.item_bee];
              originalAcceptanceCriteria := [canonical Ex.item_a; canonical Ex.item_bee] |}.
Proof.
  rewrite (X12_fetchIssue_builds_the_issue Cases.execSync Cases.JSON_parse (url Ex.the_issue)
             (str "https://") (str "o") (str "r") [] Cases.gh_output 7 Cases.gh_data).
  - vm_compute. reflexivity.
  - vm_compute. reflexivity.
  - discriminate.
  - discriminate.
  - apply no_char_decide. reflexivity.
  - apply no_char_decide. reflexivity.
  - exact I.
  - lia.
  - vm_compute. reflexivity.
  - vm_compute. reflexivity.
Defined.

Lemma X14_witness :
  closeIssue (fun _ => Some Cases.blank_failure) (url Ex.the_issue) None
  = Throw (str "Failed to close issue: Unknown error")
  /\ GithubCli.updateIssueBody (fun _ => Some Cases.blank_failure) (url Ex.the_issue)
       Ex.body_rendered
     = Throw (str "Failed to update issue: Unknown error").
Proof.
  destruct (X14_blank_stderr_hides_the_cause (fun _ => Some Cases.blank_failure)
              (url Ex.the_issue) Ex.body_rendered None Cases.blank_failure) as [H1 H2].
  - discriminate.
  - discriminate.
  - repeat constructor.
  - discriminate.
  - split; [apply H1 | apply H2]; reflexivity.
Defined.

Lemma clean_a : clean_text (str "a").
Proof.
  split_and!; [exists "a"%char, []; split; reflexivity
              | exists [], "a"%char; split; reflexivity
              | repeat constructor].
Qed.

Lemma clean_bee : clean_text (str "bee").
Proof.
  split_and!; [exists "b"%char, (str "ee"); split; reflexivity
              | exists (str "be"), "e"%char; split; reflexivity
              | repeat constructor].
Qed.

Lemma X15_witness :
  parseAcceptanceCriteria
    (applyAcceptanceCriteriaToIssueBody Ex.body_done_when [Ex.item_a; Ex.item_bee])
  = [canonical Ex.item_a; canonical Ex.item_bee].
Proof.
  apply (X15_parse_after_apply_returns_the_criteria Ex.body_done_when [Ex.item_a; Ex.item_bee]).
  - discriminate.
  - constructor; [apply clean_a | constructor; [apply clean_bee | constructor]].
Defined.

Lemma X16_witness :
  map text (parseAcceptanceCriteria
              (body (Ui.updatedIssue Ex.the_issue Ex.criteria Cases.draft)))
  = [str "a"; str "bee"]
  /\ map text (acceptanceCriteria (Ui.updatedIssue Ex.the_issue Ex.criteria Cases.draft))
     = [str "a"; str "bee"].
Proof.
  destruct (X16_accepted_criteria_are_in_the_posted_body Ex.the_issue Ex.criteria Cases.draft)
    as (_ & Htexts & _).
  - repeat constructor.
  - discriminate.
  - rewrite Htexts. vm_compute. split; reflexivity.
Defined.

Lemma X17_witness :
  exists description,
    buildPromptFromIssue (App.with_criteria Ex.the_issue [])
    = str "# Task: Do it" ++ [LF; LF]
      ++ str "GitHub Issue: https://github.com/o/r/issues/7" ++ [LF; LF] ++ description
    /\ buildPromptFromIssue Ex.the_issue
       = str "# Task: Do it" ++ [LF; LF]
         ++ str "GitHub Issue: https://github.com/o/r/issues/7" ++ [LF; LF]
         ++ join [LF] [str "## Acceptance Criteria"; str "- [x] A"; str "- [ ] B"; str "- [ ] C"]
         ++ [LF; LF] ++ description.
Proof.
  destruct (X17_prompt_carries_the_rendered_section Ex.the_issue) as (description & H1 & H2).
  - discriminate.
  - exists description. split; [exact H1 | exact H2].
Defined.

Lemma X18_witness :
  ClaudeCli.extractSessionId (Cases.result_line "sessionId") = Some (str "abc-123")
  /\ ClaudeCli.extractSessionId (Cases.result_line "session_id") = Some (str "abc-123")
  /\ ClaudeCli.extractSessionId (str "no id in this chunk") = None.
Proof.
  assert (Hq : DQUOTE ∉ str "abc-123") by (apply no_char_decide; reflexivity).
  assert (Hw : all_ws [" "%char]) by repeat constructor.
  assert (Hne : str "abc-123" <> []) by discriminate.
  split_and!.
  - destruct (X18_extractSessionId_reads_the_id (Cases.result_line "sessionId")
                (str "{" ++ ClaudeCli.quoted_key "type" ++ str ":" ++ [DQUOTE]
                 ++ str "result" ++ [DQUOTE] ++ str ",")
                [] [" "%char] (str "abc-123")
                (str "," ++ ClaudeCli.quoted_key "cost_usd" ++ str ":0.1}")
                ltac:(constructor) Hw Hne Hq) as (H & _ & _).
    apply H. vm_compute. reflexivity.
  - destruct (X18_extractSessionId_reads_the_id (Cases.result_line "session_id")
                (str "{" ++ ClaudeCli.quoted_key "type" ++ str ":" ++ [DQUOTE]
                 ++ str "result" ++ [DQUOTE] ++ str ",")
                [] [" "%char] (str "abc-123")
                (str "," ++ ClaudeCli.quoted_key "cost_usd" ++ str ":0.1}")
                ltac:(constructor) Hw Hne Hq) as (_ & H & _).
    apply H; vm_compute; reflexivity.
  - destruct (X18_extractSessionId_reads_the_id (str "no id in this chunk")
                [] [] [" "%char] (str "abc-123") []
                ltac:(constructor) Hw Hne Hq) as (_ & _ & H).
    apply H; vm_compute; reflexivity.
Defined.

Lemma X19_witness :
  Ui.setActiveTab 3 0 = 3
  /\ exists label filter shown,
       Ui.tabDefs !! 3 = Some (label, filter)
       /\ Ui.getFilteredLoops Cases.three_loops 3 = Some shown
       /\ Ui.count_of label (Ui.getTabCounts Cases.three_loops) = Some (length shown).
Proof.
  destruct (X19_tab_count_is_the_length_of_its_list Cases.three_loops 3 0) as [_ H].
  - vm_compute. lia.
  - split; [reflexivity | exact H].
Defined.

Lemma X22_witness :
  fst (Ui.syncSelectionAfterFilter
         (Ui.sort_by_time Cases.getTime (App.loops Cases.three_loops))
         (Some Cases.loop2))
  = Some Cases.loop2
  /\ fst (Ui.syncSelectionAfterFilter
            (Ui.sort_by_time Cases.getTime (App.loops Cases.three_loops)) None)
     = Some (str "loop-3").
Proof.
  destruct (X22_selection_follows_the_filter Cases.getTime Cases.three_loops 0
              (Some Cases.loop2)
              (Ui.sort_by_time Cases.getTime (App.loops Cases.three_loops)))
    as (_ & _ & Hkeep).
  - reflexivity.
  - split; [|vm_compute; reflexivity].
    apply Hkeep. exists (Cases.loop_with Cases.loop2 LoopStatus.queued None).
    split; [|reflexivity]. vm_compute.
    apply elem_of_cons; right. apply elem_of_cons; right. apply elem_of_cons; left.
    reflexivity.
Defined.

Lemma X24_witness :
  App.toggleCriterion Ex.getLoopDir MiniJson.stringify
    (str "2026-01-05T11:00:00.000Z") (str "2026-01-05T11:00:00.001Z") Ex.loop1 3 Ex.world
  = Ex.world
  /\ App.toggleCriterion Ex.getLoopDir MiniJson.stringify
       (str "2026-01-05T11:00:00.000Z") (str "2026-01-05T11:00:00.001Z") Cases.loop2 0 Ex.world
     = Ex.world.
Proof.
  split.
  - apply (X24_toggleCriterion_ignores_what_is_not_there Ex.getLoopDir MiniJson.stringify).
    intros loop Hfind. injection Hfind as <-. right. vm_compute. discriminate.
  - apply (X24_toggleCriterion_ignores_what_is_not_there Ex.getLoopDir MiniJson.stringify).
    intros loop Hfind. vm_compute in Hfind. discriminate.
Defined.

Lemma X25_witness :
  find (fun l => bool_decide (App.id l = Ex.loop1))
    (App.loops (App.state_json
       (App.toggleCriterion Ex.getLoopDir MiniJson.stringify
          (str "2026-01-05T11:00:05.000Z") (str "2026-01-05T11:00:05.001Z") Ex.loop1 1
          (App.toggleCriterion Ex.getLoopDir MiniJson.stringify
             (str "2026-01-05T11:00:00.000Z") (str "2026-01-05T11:00:00.001Z") Ex.loop1 1
             Ex.world))))
  = Some Ex.the_loop.
Proof.
  destruct (X25_toggling_twice Ex.getLoopDir MiniJson.stringify
              (str "2026-01-05T11:00:00.000Z") (str "2026-01-05T11:00:00.001Z")
              (str "2026-01-05T11:00:05.000Z") (str "2026-01-05T11:00:05.001Z")
              Ex.loop1 1 Ex.world Ex.the_loop Ex.B) as (_ & Hsame & _).
  - reflexivity.
  - lia.
  - reflexivity.
  - apply Hsame; reflexivity.
Defined.

Lemma X21_witness :
  map App.id (Ui.sort_by_time Cases.getTime (App.loops Cases.three_loops))
  = [str "loop-3"; Ex.loop1; Cases.loop2]
  /\ exists filtered,
       Ui.getFilteredLoops Cases.three_loops 0 = Some filtered
       /\ Ui.sort_by_time Cases.getTime (App.loops Cases.three_loops) ≡ₚ filtered
       /\ StronglySorted
            (fun a b => (Ui.getLoopTimestamp Cases.getTime b
                         <= Ui.getLoopTimestamp Cases.getTime a)%Z)
            (Ui.sort_by_time Cases.getTime (App.loops Cases.three_loops)).
Proof.
  split; [vm_compute; reflexivity|].
  apply (X21_loop_list_is_newest_first Cases.getTime Cases.three_loops 0). reflexivity.
Defined.

Lemma X26_witness :
  Raw.tail_session Ex.getLoopDir MiniJson.parse Ex.loop1 Ex.events no_files
  = [Ex.entry1; Ex.entry2].
Proof.
  apply (X26_tailLog_delivers_ascii_records Ex.getLoopDir MiniJson.parse Ex.loop1
           no_files Ex.events
           [MiniJson.stringify Ex.entry1; MiniJson.stringify Ex.entry2]
           [Ex.entry1; Ex.entry2] Ex.torn).
  - repeat constructor; try (apply no_LF_decide); vm_compute; reflexivity.
  - apply no_LF_decide. vm_compute. reflexivity.
  - vm_compute. reflexivity.
  - apply ascii_text_decide. vm_compute. reflexivity.
Defined.

(** The callback calls the cleanup function at the first of two entries
    that one poll finds: both are delivered, the tailer has moved to the end
    of the file, and it is not active any more. *)
Example cleanup_inside_the_loop :
  poll_calling Ex.getLoopDir MiniJson.parse
    (fun e => streq (content e) (content Ex.entry1)) Ex.loop1 Ex.journal
    {| position := 0; active := true; lineBuffer := [] |}
  = ({| position := length (Ex.record1 ++ Ex.record2); active := false; lineBuffer := [] |},
     [Ex.entry1; Ex.entry2]).
Proof. vm_compute. reflexivity. Qed.
